(** * Amaro VS Code extension and the amaro-lsp front end

    Part 1 embeds the extension client [src/src/extension.ts] (and the older
    client copy kept in [src/unnamed/part_001]) as explicit state passing over
    a small host world: the module-level [client] variable, the files on disk
    with their modes, and the log of host calls the code makes.

    Part 2 embeds the language-server front end (lexer, parser, type system,
    semantic analyzer, node-id counter).  Its Rust sources are not part of
    [src/], so each of its definitions is modelled from the spec. *)

From Stdlib Require Import String Ascii List Bool Arith Lia Permutation Sorted Relation_Operators.
Import ListNotations.
Open Scope string_scope.
Set Warnings "-register-all".

(* ------------------------------------------------------------------ *)
(** ** Part 1: the extension client *)

Module Host.

(** Transport kinds of [vscode-languageclient]; only [stdio] is used. *)
Inductive TransportKind := stdio | ipc | pipe | socket.

(** The fields of [new LanguageClient(id, name, serverOptions, clientOptions)]
    that the code sets: both [run] and [debug] use the same command. *)
Record LanguageClient := mkClient {
  lc_id : string;
  lc_name : string;
  lc_run_command : string;
  lc_debug_command : string;
  lc_transport : TransportKind;
  lc_scheme : string;
  lc_language : string
}.

(** The value returned by [client.stop()]. *)
Inductive Thenable := StopPromise (c : LanguageClient).

(** Observable host calls, in program order. *)
Inductive event :=
| ConsoleLog (msg : string)
| ConsoleError (msg : string)
| ShowErrorMessage (msg : string)
| ExistsSync (path : string)
| ChmodSync (path mode : string)
| NewLanguageClient (c : LanguageClient)
| ClientStart (c : LanguageClient)
| ClientStop (c : LanguageClient).

(** Host state: the module-level [client] ([None] is [undefined]), the
    files on disk as (path, mode) pairs, the existing files on which
    [fs.chmodSync] throws, with the error code it throws ([EPERM] for a file
    of another owner, [EROFS] on a read-only file system), and the event
    log. *)
Record world := mkWorld {
  client : option LanguageClient;
  files : list (string * string);
  chmod_errors : list (string * string);
  events : list event
}.

(** The [ExtensionContext] passed to [activate]: only its extension path is
    read (through [asAbsolutePath]). *)
Record ExtensionContext := mkContext { extensionPath : string }.

(** [path.join] of two segments with the platform separator (no
    normalisation of [..] or doubled separators). *)
Definition path_sep (platform : string) : string :=
  if String.eqb platform "win32" then "\" else "/".

Definition path_join (platform a b : string) : string :=
  a ++ path_sep platform ++ b.

(** [context.asAbsolutePath(rel)] joins the extension path and [rel]. *)
Definition asAbsolutePath (platform : string) (ctx : ExtensionContext)
    (rel : string) : string :=
  path_join platform (extensionPath ctx) rel.

Definition emit (e : event) (w : world) : world :=
  mkWorld (client w) (files w) (chmod_errors w) (events w ++ [e]).

(** [fs.existsSync(p)]. *)
Definition existsSync (p : string) (w : world) : bool :=
  existsb (fun f => String.eqb (fst f) p) (files w).

(** The error code [fs.chmodSync(p, ...)] throws on the existing file [p]. *)
Definition chmod_error (p : string) (w : world) : option string :=
  match find (fun e => String.eqb (fst e) p) (chmod_errors w) with
  | Some (_, code) => Some code
  | None => None
  end.

(** [fs.chmodSync(p, mode)]: the new world ([inl]), or the message of the
    error it throws ([inr]): [ENOENT] for a missing file, otherwise the
    file's own error code; a [ChmodSync] event records a mode change. *)
Definition chmodSync (p mode : string) (w : world) : world + string :=
  if negb (existsSync p w) then
    inr ("ENOENT: no such file or directory, chmod '" ++ p ++ "'")
  else
    match chmod_error p w with
    | Some code => inr (code ++ ": chmod '" ++ p ++ "'")
    | None =>
        inl (mkWorld (client w)
               (map (fun f => if String.eqb (fst f) p then (p, mode) else f) (files w))
               (chmod_errors w) (events w ++ [ChmodSync p mode]))
    end.

Definition set_client (c : LanguageClient) (w : world) : world :=
  mkWorld (Some c) (files w) (chmod_errors w) (events w ++ [NewLanguageClient c]).

(** Initial module state: [let client: LanguageClient;] is [undefined]. *)
Definition init_world (fs : list (string * string)) : world :=
  mkWorld None fs [] [].

Definition is_new_client (e : event) : bool :=
  match e with NewLanguageClient _ => true | _ => false end.

End Host.

Import Host.

(** [src/src/extension.ts]. *)
Module Extension.

(** Lines 17-28: the binary name per platform; [None] takes the
    unsupported-OS branch. *)
Definition binaryName (platform : string) : option string :=
  if String.eqb platform "win32" then Some "amaro-lsp-win.exe"
  else if String.eqb platform "darwin" then Some "amaro-lsp-mac"
  else if String.eqb platform "linux" then Some "amaro-lsp-linux"
  else None.

Definition mkLanguageClient (serverPath : string) : LanguageClient :=
  mkClient "amaroLSP" "Amaro Language Server" serverPath serverPath stdio
    "file" "amaro".

(** Lines 30-32. *)
Definition serverPath (platform : string) (ctx : ExtensionContext)
    (bin : string) : string :=
  asAbsolutePath platform ctx (path_join platform "bin" bin).

(** [activate(context)] with [os.platform()] = [platform].  Both exits are
    [return;], so only the world is returned.  The [.then]/[.catch]
    callbacks of [client.start()] run after [activate] returns and are not
    part of this step. *)
Definition activate (platform : string) (ctx : ExtensionContext) (w0 : world)
    : world :=
  let w1 := emit (ConsoleLog "Activating Amaro Extension...") w0 in
  match binaryName platform with
  | None =>
      emit (ShowErrorMessage ("Amaro is not supported on this OS: " ++ platform)) w1
  | Some bin =>
      let serverPath := serverPath platform ctx bin in
      let w2 := emit (ConsoleLog ("Looking for LSP binary at: " ++ serverPath)) w1 in
      let w3 := emit (ExistsSync serverPath) w2 in
      if negb (existsSync serverPath w2) then
        emit (ConsoleError ("Binary missing at " ++ serverPath))
          (emit (ShowErrorMessage ("Amaro LSP binary not found! Expected at: "
                   ++ serverPath ++ ". Did you run 'cargo build'?")) w3)
      else
        let w4 :=
          if negb (String.eqb platform "win32") then
            match chmodSync serverPath "755" w3 with
            | inl w' => w'
            | inr _ => emit (ConsoleError ("Failed to set permissions for "
                                           ++ serverPath ++ ":")) w3
            end
          else w3 in
        let c := mkLanguageClient serverPath in
        let w5 := set_client c w4 in
        emit (ClientStart c) w5
  end.

(** [deactivate()]: [None] is [undefined]. *)
Definition deactivate (w : world) : option Thenable * world :=
  match client w with
  | None => (None, w)
  | Some c => (Some (StopPromise c), emit (ClientStop c) w)
  end.

End Extension.

(** The older client kept in [src/unnamed/part_001]: one binary name for every
    non-Windows platform, and [fs.chmodSync] outside any [try]. *)
Module MarolExtension.

(** How a call ends: normally, or with an exception escaping [activate]. *)
Inductive completion := Normal | Throws (err : string).

Definition binaryName (platform : string) : string :=
  if String.eqb platform "win32" then "marol-lsp.exe" else "marol-lsp".

(** Lines 17-19: [path.join('marol-lsp', 'target', 'debug', binaryName)]. *)
Definition serverPath (platform : string) (ctx : ExtensionContext) : string :=
  asAbsolutePath platform ctx
    (path_join platform (path_join platform (path_join platform "marol-lsp" "target")
                           "debug") (binaryName platform)).

Definition mkLanguageClient (serverPath : string) : LanguageClient :=
  mkClient "marolLSP" "Marol Language Server" serverPath serverPath stdio
    "file" "marol".

(** [activate(context)] with [process.platform] = [platform]; an
    exception thrown by [fs.chmodSync] escapes it ([Throws]). *)
Definition activate (platform : string) (ctx : ExtensionContext) (w0 : world)
    : world * completion :=
  let w1 := emit (ConsoleLog "Activating Marol Extension...") w0 in
  let serverPath := serverPath platform ctx in
  let w2 := emit (ConsoleLog ("Looking for LSP binary at: " ++ serverPath)) w1 in
  let w3 := emit (ExistsSync serverPath) w2 in
  if negb (existsSync serverPath w2) then
    (emit (ConsoleError ("Binary missing at " ++ serverPath))
       (emit (ShowErrorMessage ("Marol LSP binary not found! Expected at: "
                ++ serverPath ++ ". Did you run 'cargo build'?")) w3), Normal)
  else
    match (if negb (String.eqb platform "win32")
           then chmodSync serverPath "755" w3 else inl w3) with
    | inr err => (w3, Throws err)
    | inl w4 =>
        let c := mkLanguageClient serverPath in
        let w5 := set_client c w4 in
        (emit (ClientStart c) w5, Normal)
    end.

Definition deactivate (w : world) : option Thenable * world :=
  match client w with
  | None => (None, w)
  | Some c => (Some (StopPromise c), emit (ClientStop c) w)
  end.

End MarolExtension.

(** Sequences of calls the host makes into the extension module, with the
    files on disk (and the files [fs.chmodSync] fails on) possibly changed
    in between. *)
Module Session.

Inductive call :=
| CallActivate (platform : string) (ctx : ExtensionContext)
| CallDeactivate
| SetFiles (fs : list (string * string)) (errs : list (string * string)).

Definition step (c : call) (w : world) : world :=
  match c with
  | CallActivate p ctx => Extension.activate p ctx w
  | CallDeactivate => snd (Extension.deactivate w)
  | SetFiles fs errs => mkWorld (client w) fs errs (events w)
  end.

Definition run (w : world) (cs : list call) : world :=
  fold_left (fun w c => step c w) cs w.

(** The same host sessions against the older client; an exception escaping
    [activate] leaves the world as it was when it was thrown. *)
Definition marol_step (c : call) (w : world) : world :=
  match c with
  | CallActivate p ctx => fst (MarolExtension.activate p ctx w)
  | CallDeactivate => snd (MarolExtension.deactivate w)
  | SetFiles fs errs => mkWorld (client w) fs errs (events w)
  end.

Definition marol_run (w : world) (cs : list call) : world :=
  fold_left (fun w c => marol_step c w) cs w.

(** Some [activate] constructed a [LanguageClient] during the session. *)
Definition client_created (w : world) : Prop :=
  exists c, In (NewLanguageClient c) (events w).

End Session.

(** A step that only appends events, and either leaves [client] alone
    without constructing a client or constructs the client it stores. *)
Definition tracks_client (w0 w : world) : Prop :=
  exists new, events w = (events w0 ++ new)%list /\
    ((client w = client w0 /\ forall c, ~ In (NewLanguageClient c) new) \/
     (exists c, client w = Some c /\ In (NewLanguageClient c) new)).

(** The [client] variable is [undefined] exactly when no client was made. *)
Definition client_inv (w : world) : Prop :=
  client w = None <-> ~ Session.client_created w.

(* ------------------------------------------------------------------ *)
(** ** Part 2: the amaro-lsp front end

    The Rust crate [amaro-lsp] (parser, symbol table, semantic analyzer) is
    code of this repository that is not under [src/]; the definitions below
    follow the spec's words. *)

(** Source ranges as (start, end) character offsets. *)
Definition Range : Type := (nat * nat)%type.

(** Modelled from the spec: the diagnostic record and the rule codes of
    §3 and §7 ([SyntaxError] and [DepthLimitExceeded] are the parser's
    recoverable-error codes of §4.2 and §4.3). *)
Inductive Severity := Error | Warning.

Inductive DiagCode :=
| SyntaxError | DepthLimitExceeded
| MissingBlock | MissingField | TypeMismatch | IndexTypeMismatch
| UnknownIdentifier | StyleCapitalization.

Record Diagnostic := mkDiag {
  severity : Severity;
  drange : Range;
  message : string;
  code : DiagCode
}.

Definition DiagCode_eqb (a b : DiagCode) : bool :=
  match a, b with
  | SyntaxError, SyntaxError | DepthLimitExceeded, DepthLimitExceeded
  | MissingBlock, MissingBlock | MissingField, MissingField
  | TypeMismatch, TypeMismatch | IndexTypeMismatch, IndexTypeMismatch
  | UnknownIdentifier, UnknownIdentifier
  | StyleCapitalization, StyleCapitalization => true
  | _, _ => false
  end.

Module Types.

(** Modelled from the spec: the [Type] enum of [parser/symbols.rs] (§3),
    with the [QubitMap] container (indexed by [Qubit], holding
    [Location]s) that the CHANGELOG of [src/] names. *)
Inductive Ty :=
| TInt | TFloat | TBool | TString | TLocation | TQubit
| TGate | TArch | TState | TQubitMap
| TOption (t : Ty)
| TVec (t : Ty)
| TTuple (ts : list Ty)
| TFunction (params : list Ty) (ret : Ty)
| TStruct (name : string) (fields : list (string * Ty))
| TUnknown.

(** Modelled from the spec: [types_compatible] (§4.4).  [Unknown] is a
    sink on either side; containers compare structurally ([Tuple] and
    [Function] element-wise); [Struct] compares by name and by field set
    (every field of each side has a same-named, compatible field on the
    other side); the other types only with themselves. *)
Fixpoint compatible (t1 t2 : Ty) {struct t1} : bool :=
  match t1, t2 with
  | TUnknown, _ => true
  | _, TUnknown => true
  | TInt, TInt | TFloat, TFloat | TBool, TBool | TString, TString
  | TLocation, TLocation | TQubit, TQubit | TGate, TGate | TArch, TArch
  | TState, TState | TQubitMap, TQubitMap => true
  | TOption a, TOption b => compatible a b
  | TVec a, TVec b => compatible a b
  | TTuple xs, TTuple ys =>
      (fix all2 (xs ys : list Ty) : bool :=
         match xs, ys with
         | [], [] => true
         | x :: xs', y :: ys' => compatible x y && all2 xs' ys'
         | _, _ => false
         end) xs ys
  | TFunction ps r, TFunction qs s =>
      (fix all2 (xs ys : list Ty) : bool :=
         match xs, ys with
         | [], [] => true
         | x :: xs', y :: ys' => compatible x y && all2 xs' ys'
         | _, _ => false
         end) ps qs && compatible r s
  | TStruct n fs, TStruct m gs =>
      String.eqb n m &&
      (fix left_in (fs : list (string * Ty)) : bool :=
         match fs with
         | [] => true
         | (f, t) :: fs' =>
             existsb (fun g => String.eqb f (fst g) && compatible t (snd g)) gs
             && left_in fs'
         end) fs &&
      forallb (fun g =>
        (fix right_in (fs : list (string * Ty)) : bool :=
           match fs with
           | [] => false
           | (f, t) :: fs' =>
               (String.eqb f (fst g) && compatible t (snd g)) || right_in fs'
           end) fs) gs
  | _, _ => false
  end.

(** Modelled from the spec: the index-type relation of §4.4, its own
    relation: [Qubit] and [Int] are mutually accepted, otherwise the
    declared index type must match the probe. *)
Definition index_compatible (declared probe : Ty) : bool :=
  match declared, probe with
  | TInt, TQubit | TQubit, TInt => true
  | _, _ => compatible declared probe
  end.

(** Modelled from the spec: the declared index type and the element type of
    an indexable container ([Vec] by [Int], [QubitMap] by [Qubit]). *)
Definition index_type (t : Ty) : option (Ty * Ty) :=
  match t with
  | TVec e => Some (TInt, e)
  | TQubitMap => Some (TQubit, TLocation)
  | _ => None
  end.

(** Modelled from the spec: the unified type of two compatible types (§4.5
    if/then/else and vector literals): an empty literal ([Unknown]
    element) takes the concrete side. *)
Fixpoint unify (t1 t2 : Ty) : Ty :=
  match t1, t2 with
  | TUnknown, _ => t2
  | _, TUnknown => t1
  | TVec a, TVec b => TVec (unify a b)
  | TOption a, TOption b => TOption (unify a b)
  | _, _ => t1
  end.

Fixpoint show_ty (t : Ty) : string :=
  match t with
  | TInt => "Int" | TFloat => "Float" | TBool => "Bool" | TString => "String"
  | TLocation => "Location" | TQubit => "Qubit" | TGate => "Gate"
  | TArch => "Arch" | TState => "State" | TQubitMap => "QubitMap"
  | TOption a => "Option<" ++ show_ty a ++ ">"
  | TVec a => "Vec<" ++ show_ty a ++ ">"
  | TTuple ts =>
      "(" ++ (fix go ts := match ts with
              | [] => EmptyString | [x] => show_ty x | x :: xs => show_ty x ++ ", " ++ go xs
              end) ts ++ ")"
  | TFunction _ r => "fn -> " ++ show_ty r
  | TStruct n _ => n
  | TUnknown => "Unknown"
  end.

Definition is_numeric (t : Ty) : bool := compatible t TInt || compatible t TFloat.

(** Induction over [Ty] that sees through the nested lists. *)
Section Ty_nested_ind.
Variable P : Ty -> Prop.
Hypotheses (HInt : P TInt) (HFloat : P TFloat) (HBool : P TBool)
  (HString : P TString) (HLocation : P TLocation) (HQubit : P TQubit)
  (HGate : P TGate) (HArch : P TArch) (HState : P TState)
  (HQubitMap : P TQubitMap) (HUnknown : P TUnknown)
  (HOption : forall t, P t -> P (TOption t))
  (HVec : forall t, P t -> P (TVec t))
  (HTuple : forall ts, Forall P ts -> P (TTuple ts))
  (HFunction : forall ps r, Forall P ps -> P r -> P (TFunction ps r))
  (HStruct : forall n fs, Forall (fun f => P (snd f)) fs -> P (TStruct n fs)).

Fixpoint Ty_nested_ind (t : Ty) : P t :=
  match t with
  | TInt => HInt | TFloat => HFloat | TBool => HBool | TString => HString
  | TLocation => HLocation | TQubit => HQubit | TGate => HGate
  | TArch => HArch | TState => HState | TQubitMap => HQubitMap
  | TUnknown => HUnknown
  | TOption a => HOption a (Ty_nested_ind a)
  | TVec a => HVec a (Ty_nested_ind a)
  | TTuple ts =>
      HTuple ts ((fix go (ts : list Ty) : Forall P ts :=
                    match ts with
                    | [] => Forall_nil P
                    | x :: xs => Forall_cons x (Ty_nested_ind x) (go xs)
                    end) ts)
  | TFunction ps r =>
      HFunction ps r ((fix go (ts : list Ty) : Forall P ts :=
                         match ts with
                         | [] => Forall_nil P
                         | x :: xs => Forall_cons x (Ty_nested_ind x) (go xs)
                         end) ps) (Ty_nested_ind r)
  | TStruct n fs =>
      HStruct n fs ((fix go (fs : list (string * Ty))
                       : Forall (fun f => P (snd f)) fs :=
                       match fs with
                       | [] => Forall_nil _
                       | (f, x) :: xs => Forall_cons (f, x) (Ty_nested_ind x) (go xs)
                       end) fs)
  end.
End Ty_nested_ind.

End Types.

Import Types.

Module Symbols.

(** Modelled from the spec: a scope is an ordered name-to-type mapping;
    the scope stack lists the innermost scope first (§3 Scope). *)
Definition Scope : Type := list (string * Ty).

Fixpoint scope_lookup (s : Scope) (x : string) : option Ty :=
  match s with
  | [] => None
  | (y, t) :: s' => if String.eqb x y then Some t else scope_lookup s' x
  end.

(** Modelled from the spec: innermost-to-outermost lookup. *)
Fixpoint lookup (scopes : list Scope) (x : string) : option Ty :=
  match scopes with
  | [] => None
  | s :: ss => match scope_lookup s x with Some t => Some t | None => lookup ss x end
  end.

(** Modelled from the spec: the built-in registry of §4.4 ([register_builtin_functions]);
    the type parameters [T] and [U] of [map] and [fold] are [Unknown], the
    signatures the spec leaves open follow the README's uses, and the
    domain objects and gate names of the README are bound as well. *)
Definition global_scope : Scope :=
  [("map", TFunction [TVec TUnknown; TFunction [TUnknown] TUnknown] (TVec TUnknown));
   ("fold", TFunction [TVec TUnknown; TUnknown; TFunction [TUnknown; TUnknown] TUnknown]
              TUnknown);
   ("all_paths", TFunction [TArch; TVec TLocation; TVec TLocation; TVec TLocation]
                   (TVec (TVec TLocation)));
   ("shortest_path", TFunction [TArch; TVec TLocation; TVec TLocation; TVec TLocation]
                       (TOption (TVec TLocation)));
   ("vertical_neighbors", TFunction [TLocation; TInt; TInt] (TVec TLocation));
   ("horizontal_neighbors", TFunction [TLocation; TInt] (TVec TLocation));
   ("value_swap", TFunction [TLocation; TLocation] TUnknown);
   ("values", TFunction [TQubitMap] (TVec TLocation));
   ("Some", TFunction [TUnknown] (TOption TUnknown));
   ("None", TOption TUnknown);
   ("Vec", TFunction [] (TVec TUnknown));
   ("Arch", TArch); ("State", TState); ("Gate", TGate);
   ("CX", TGate); ("T", TGate); ("Pauli", TGate)].

(** Modelled from the spec: the field and method schema of the domain and
    container types (§4.4; [stack_size], [x_indices], ... and
    [State.map : () -> QubitMap] as the CHANGELOG lists them). *)
Definition field_type (t : Ty) (f : string) : option Ty :=
  match t with
  | TGate =>
      if String.eqb f "qubits" then Some (TVec TQubit)
      else if String.eqb f "gate_type" then Some (TFunction [] TGate)
      else if String.eqb f "x_indices" then Some (TFunction [] (TVec TQubit))
      else if String.eqb f "y_indices" then Some (TFunction [] (TVec TQubit))
      else if String.eqb f "z_indices" then Some (TFunction [] (TVec TQubit))
      else None
  | TState =>
      if String.eqb f "map" then Some (TFunction [] TQubitMap)
      else if String.eqb f "implemented_gates" then Some TUnknown
      else None
  | TArch =>
      if String.eqb f "width" then Some TInt
      else if String.eqb f "height" then Some TInt
      else if String.eqb f "stack_size" then Some TInt
      else if String.eqb f "magic_state_qubits" then Some (TFunction [] (TVec TLocation))
      else if String.eqb f "edges" then
        Some (TFunction [] (TVec (TTuple [TLocation; TLocation])))
      else if String.eqb f "contains_edge" then
        Some (TFunction [TTuple [TLocation; TLocation]] TBool)
      else None
  | TVec a =>
      if String.eqb f "push" then Some (TFunction [a] (TVec a))
      else if String.eqb f "pop" then Some (TFunction [] (TOption a))
      else if String.eqb f "extend" then Some (TFunction [TVec a] (TVec a))
      else if String.eqb f "len" then Some (TFunction [] TInt)
      else None
  | TStruct _ fs => scope_lookup fs f
  | _ => None
  end.

(** Modelled from the spec: property/function unification (§4.4): a
    zero-argument function referenced as a property has its return type. *)
Definition property_type (t : Ty) : Ty :=
  match t with
  | TFunction [] r => r
  | _ => t
  end.

End Symbols.

Module Lexer.

Local Open Scope nat_scope.

(** Modelled from the spec: token kinds of §3 and §4.1.  A newline token
    carries the indentation of the next non-blank line; a foreign span
    records whether its braces were balanced before the end of input. *)
Inductive TokKind :=
| TkKeyword (k : string)
| TkIdent (x : string)
| TkInt (n : nat)
| TkFloat (s : string)
| TkString (s : string)
| TkBool (b : bool)
| TkOp (o : string)
| TkDelim (c : ascii)
| TkNewline (indent : nat)
| TkForeign (raw : string) (closed : bool)
| TkError (c : ascii)
| TkEof.

Record Token := mkTok { kind : TokKind; trange : Range }.

Definition is_digit (c : ascii) : bool :=
  let n := nat_of_ascii c in (48 <=? n) && (n <=? 57).

Definition is_ident_start (c : ascii) : bool :=
  let n := nat_of_ascii c in
  ((65 <=? n) && (n <=? 90)) || ((97 <=? n) && (n <=? 122)) || (n =? 95).

Definition is_ident_char (c : ascii) : bool := is_ident_start c || is_digit c.

Definition is_blank (c : ascii) : bool :=
  (c =? " ")%char || (c =? "009")%char || (c =? "013")%char.

Definition is_newline (c : ascii) : bool := (c =? "010")%char.

Definition keywords : list string := ["let"; "in"; "if"; "then"; "else"].

Definition is_keyword (s : string) : bool := existsb (String.eqb s) keywords.

(** The longest prefix satisfying [p], and the rest. *)
Fixpoint span (p : ascii -> bool) (cs : list ascii) : list ascii * list ascii :=
  match cs with
  | c :: cs' => if p c then let '(a, b) := span p cs' in (c :: a, b) else ([], cs)
  | [] => ([], [])
  end.

Fixpoint digits_value (acc : nat) (ds : list ascii) : nat :=
  match ds with
  | [] => acc
  | d :: ds' => digits_value (acc * 10 + (nat_of_ascii d - 48)) ds'
  end.

(** After a newline: skip blank lines, and return the indentation of the
    next non-blank line, the number of characters skipped, and the rest. *)
Fixpoint skip_layout (indent skipped : nat) (cs : list ascii)
    : nat * nat * list ascii :=
  match cs with
  | c :: cs' =>
      if is_newline c then skip_layout 0 (S skipped) cs'
      else if is_blank c then skip_layout (S indent) (S skipped) cs'
      else (indent, skipped, cs)
  | [] => (0, skipped, [])
  end.

(** The body of a foreign span after its opening [{{]: balanced-brace
    counting from depth 2; returns the raw text including the closing
    braces, whether depth 0 was reached, and the rest. *)
Fixpoint scan_foreign (depth : nat) (cs : list ascii)
    : list ascii * bool * list ascii :=
  match cs with
  | [] => ([], false, [])
  | c :: cs' =>
      if (c =? "{")%char then
        let '(raw, ok, rest) := scan_foreign (S depth) cs' in (c :: raw, ok, rest)
      else if (c =? "}")%char then
        match depth with
        | 0 | 1 => ([c], true, cs')
        | S d => let '(raw, ok, rest) := scan_foreign d cs' in (c :: raw, ok, rest)
        end
      else let '(raw, ok, rest) := scan_foreign depth cs' in (c :: raw, ok, rest)
  end.

Definition two_char_ops : list string :=
  ["=="; "!="; "<="; ">="; "&&"; "||"; "->"; ".."].

Definition one_char_ops : list ascii :=
  ["+"; "-"; "*"; "/"; "<"; ">"; "="; "!"; "|"]%char.

Definition delims : list ascii := ["("; ")"; "["; "]"; "{"; "}"; ","; "."; ":"]%char.

Definition mem_ascii (c : ascii) (l : list ascii) : bool :=
  existsb (fun d => (c =? d)%char) l.

Definition tok (k : TokKind) (start len : nat) : Token :=
  mkTok k (start, start + len).

(** One lexer step at offset [pos]: [None] at the end of input, otherwise
    the token produced (none for blanks and [//] comments), the number of
    characters consumed and the rest.  [after_dot] makes the digits right
    after a [.] an integer (a tuple index), never a float. *)
Definition next_token (pos : nat) (after_dot : bool) (cs : list ascii)
    : option (option Token * nat * list ascii) :=
  match cs with
  | [] => None
  | c :: cs' =>
    if is_newline c then
      let '(ind, skipped, rest) := skip_layout 0 0 cs' in
      Some (Some (tok (TkNewline ind) pos 1), 1 + skipped, rest)
    else if is_blank c then Some (None, 1, cs')
    else if (c =? "/")%char && match cs' with "/"%char :: _ => true | _ => false end then
      let '(com, rest) := span (fun d => negb (is_newline d)) cs' in
      Some (None, 1 + length com, rest)
    else if (c =? "{")%char && match cs' with "{"%char :: _ => true | _ => false end then
      let '(raw, ok, rest) := scan_foreign 2 (tl cs') in
      Some (Some (tok (TkForeign (string_of_list_ascii ("{" :: "{" :: raw)%char) ok)
                      pos (2 + length raw)), 2 + length raw, rest)
    else if is_digit c then
      let '(ds, rest) := span is_digit cs' in
      let int_tok := (Some (tok (TkInt (digits_value 0 (c :: ds))) pos (S (length ds))),
                      S (length ds), rest) in
      match rest with
      | "."%char :: d :: rest' =>
          if negb after_dot && is_digit d then
            let '(fs, rest'') := span is_digit (d :: rest') in
            let txt := string_of_list_ascii (c :: ds ++ "."%char :: fs) in
            Some (Some (tok (TkFloat txt) pos (String.length txt)),
                  String.length txt, rest'')
          else Some int_tok
      | _ => Some int_tok
      end
    else if is_ident_start c then
      let '(xs, rest) := span is_ident_char cs' in
      let x := string_of_list_ascii (c :: xs) in
      let k := if is_keyword x then TkKeyword x
               else if String.eqb x "true" then TkBool true
               else if String.eqb x "false" then TkBool false
               else TkIdent x in
      Some (Some (tok k pos (S (length xs))), S (length xs), rest)
    else if (c =? "034")%char then
      let '(body, rest) :=
        span (fun d => negb ((d =? "034")%char || is_newline d)) cs' in
      match rest with
      | q :: rest' =>
          if (q =? "034")%char then
            Some (Some (tok (TkString (string_of_list_ascii body)) pos (2 + length body)),
                  2 + length body, rest')
          else Some (Some (tok (TkError c) pos (1 + length body)), 1 + length body, rest)
      | [] => Some (Some (tok (TkError c) pos (1 + length body)), 1 + length body, [])
      end
    else
      let two := match cs' with d :: _ => string_of_list_ascii [c; d] | [] => EmptyString end in
      if existsb (String.eqb two) two_char_ops then
        Some (Some (tok (TkOp two) pos 2), 2, tl cs')
      else if mem_ascii c one_char_ops then
        Some (Some (tok (TkOp (String c EmptyString)) pos 1), 1, cs')
      else if mem_ascii c delims then
        Some (Some (tok (TkDelim c) pos 1), 1, cs')
      else Some (Some (tok (TkError c) pos 1), 1, cs')
  end.

Definition is_dot_token (t : option Token) : bool :=
  match t with Some (mkTok (TkDelim c) _) => (c =? ".")%char | _ => false end.

(** Modelled from the spec: the lexer of §4.1.  It never fails: an
    unexpected character becomes an error token.  [fuel] is the input
    length; every step consumes at least one character. *)
Fixpoint lex (fuel pos : nat) (after_dot : bool) (cs : list ascii) : list Token :=
  match fuel with
  | 0 => []
  | S fuel' =>
      match next_token pos after_dot cs with
      | None => []
      | Some (ot, n, rest) =>
          let ts := lex fuel' (pos + n) (is_dot_token ot) rest in
          match ot with Some t => t :: ts | None => ts end
      end
  end.

(** Modelled from the spec: [tokenize] of the whole text. *)
Definition tokenize (s : string) : list Token :=
  let cs := list_ascii_of_string s in lex (S (length cs)) 0 false cs.

(** The tokens of the characters [cs] that start at offset [pos] of the
    text with no [.] before them; [tokenize s] is
    [lex_from 0 (list_ascii_of_string s)]. *)
Definition lex_from (pos : nat) (cs : list ascii) : list Token :=
  lex (S (length cs)) pos false cs.

(** A token that is not an unterminated foreign span. *)
Definition foreign_ok (t : Token) : bool :=
  match kind t with TkForeign _ closed => closed | _ => true end.

(** Every [{{] span of the text is closed before the text ends. *)
Definition foreign_closed (s : string) : bool := forallb foreign_ok (tokenize s).

End Lexer.

Import Lexer.

Module Ast.

(** Modelled from the spec: every node carries a [NodeId] and a source
    [Range] (§3). *)
Record Meta := mkMeta { nid : nat; rng : Range }.

Inductive Literal := LInt (n : nat) | LFloat (s : string) | LBool (b : bool)
                   | LString (s : string).

Inductive BinOp :=
| OpOr | OpAnd | OpEq | OpNeq | OpLt | OpGt | OpLe | OpGe
| OpAdd | OpSub | OpMul | OpDiv.

Inductive UnOp := OpNeg | OpNot.

(** Modelled from the spec: the expression variants of [ast.rs] (§3),
    with [EError] the placeholder synthesized by error recovery. *)
Inductive Expr :=
| ELit (m : Meta) (l : Literal)
| EIdent (m : Meta) (x : string)
| EBinary (m : Meta) (op : BinOp) (l r : Expr)
| EUnary (m : Meta) (op : UnOp) (e : Expr)
| ECall (m : Meta) (callee : Expr) (args : list Expr)
| ELambda (m : Meta) (params : list string) (body : Expr)
| ELet (m : Meta) (bindings : list (string * Expr)) (body : Expr)
| EIf (m : Meta) (c t e : Expr)
| EField (m : Meta) (base : Expr) (name : string)
| EIndex (m : Meta) (base idx : Expr)
| ETupleIndex (m : Meta) (base : Expr) (k : nat)
| EDynProj (m : Meta) (base path : Expr)
| ERange (m : Meta) (lo hi : Expr)
| EVecLit (m : Meta) (elems : list Expr)
| EStructLit (m : Meta) (name : string) (fields : list (string * Expr))
| EError (m : Meta).

(** Type annotations of struct definitions, as written. *)
Inductive TypeExpr :=
| TyName (n : string)
| TyGeneric (n : string) (args : list TypeExpr)
| TyTupleE (ts : list TypeExpr).

Inductive BlockItem :=
| BField (m : Meta) (name : string) (value : Expr)
| BStruct (m : Meta) (name : string) (fields : list (string * TypeExpr))
| BError (m : Meta).

Record Block := mkBlock {
  b_meta : Meta;
  b_name : string;
  b_header : Range;
  b_items : list BlockItem
}.

Inductive Item :=
| IBlock (b : Block)
| IForeign (m : Meta) (raw : string)
| IError (m : Meta).

Record File := mkFile { f_meta : Meta; f_items : list Item }.

Definition expr_meta (e : Expr) : Meta :=
  match e with
  | ELit m _ | EIdent m _ | EBinary m _ _ _ | EUnary m _ _ | ECall m _ _
  | ELambda m _ _ | ELet m _ _ | EIf m _ _ _ | EField m _ _ | EIndex m _ _
  | ETupleIndex m _ _ | EDynProj m _ _ | ERange m _ _ | EVecLit m _
  | EStructLit m _ _ | EError m => m
  end.

Definition expr_range (e : Expr) : Range := rng (expr_meta e).

Definition block_fields (b : Block) : list (Meta * string * Expr) :=
  flat_map (fun it => match it with BField m x e => [(m, x, e)] | _ => [] end)
    (b_items b).

Definition block_structs (b : Block) : list (string * list (string * TypeExpr)) :=
  flat_map (fun it => match it with BStruct _ x fs => [(x, fs)] | _ => [] end)
    (b_items b).

Definition file_blocks (f : File) : list Block :=
  flat_map (fun it => match it with IBlock b => [b] | _ => [] end) (f_items f).

End Ast.

Import Ast.

Module Parser.

Local Open Scope nat_scope.

(** Modelled from the spec: the outcome of a parsing function: a value,
    the end offset of the last token it consumed and the remaining
    tokens, or the diagnostic of a syntax error (§9: an explicit
    (diagnostic, placeholder) result instead of unwinding). *)
Inductive PRes (A : Type) :=
| POk (a : A) (last : nat) (rest : list Token)
| PErr (d : Diagnostic).
Arguments POk {A} a last rest.
Arguments PErr {A} d.

Definition pbind {A B} (r : PRes A) (k : A -> nat -> list Token -> PRes B) : PRes B :=
  match r with
  | POk a e ts => k a e ts
  | PErr d => PErr d
  end.

Notation "'let*' a e ts ':=' r 'in' k" := (pbind r (fun a e ts => k))
  (at level 200, a binder, e binder, ts binder, r at level 100, k at level 200).

Definition meta (r : Range) : Meta := mkMeta 0 r.

Definition first_range (ts : list Token) : Range :=
  match ts with t :: _ => trange t | [] => (0, 0) end.

Definition syntax_error {A} (ts : list Token) (msg : string) : PRes A :=
  PErr (mkDiag Error (first_range ts) msg SyntaxError).

(** Modelled from the spec: the dedicated diagnostic of §4.2. *)
Definition depth_error {A} (ts : list Token) : PRes A :=
  PErr (mkDiag Error (first_range ts) "Maximum expression nesting depth exceeded"
          DepthLimitExceeded).

(** Modelled from the spec: the recursion bound of §4.2; the spec does not
    fix its value. *)
Definition max_depth : nat := 64.

Definition is_delim (c : ascii) (t : Token) : bool :=
  match kind t with TkDelim d => (c =? d)%char | _ => false end.

Definition is_op (o : string) (t : Token) : bool :=
  match kind t with TkOp p => String.eqb o p | _ => false end.

Definition is_kw (k : string) (t : Token) : bool :=
  match kind t with TkKeyword p => String.eqb k p | _ => false end.

Definition expect (p : Token -> bool) (what : string) (ts : list Token) : PRes unit :=
  match ts with
  | t :: ts' => if p t then POk tt (snd (trange t)) ts' else syntax_error ts ("expected " ++ what)
  | [] => syntax_error ts ("expected " ++ what)
  end.

(** [item (, item)* close], after the opening delimiter; [fuel] is the
    token count. *)
Fixpoint comma_list {A} (fuel : nat) (item : list Token -> PRes A)
    (close : Token -> bool) (close_name : string) (ts : list Token) : PRes (list A) :=
  match fuel with
  | 0 => syntax_error ts "unexpected end of input"
  | S fuel' =>
      let* a _e ts1 := item ts in
      match ts1 with
      | t :: ts2 =>
          if is_delim "," t then
            let* rest_items e2 ts3 := comma_list fuel' item close close_name ts2 in
            POk (a :: rest_items) e2 ts3
          else if close t then POk [a] (snd (trange t)) ts2
          else syntax_error ts1 ("expected ',' or " ++ close_name)
      | [] => syntax_error ts1 "unexpected end of input"
      end
  end.

(** A possibly empty list closed by [close]. *)
Definition delimited {A} (item : list Token -> PRes A) (close : Token -> bool)
    (close_name : string) (ts : list Token) : PRes (list A) :=
  match ts with
  | t :: ts' => if close t then POk [] (snd (trange t)) ts'
                else comma_list (length ts) item close close_name ts
  | [] => syntax_error ts "unexpected end of input"
  end.

Definition ident_item (ts : list Token) : PRes string :=
  match ts with
  | mkTok (TkIdent x) r :: ts' => POk x (snd r) ts'
  | _ => syntax_error ts "expected an identifier"
  end.

(** [name = expr] inside a struct literal. *)
Definition field_init (sub : list Token -> PRes Expr) (ts : list Token)
    : PRes (string * Expr) :=
  match ts with
  | mkTok (TkIdent x) _ :: t :: ts' =>
      if is_op "=" t then let* e last ts2 := sub ts' in POk (x, e) last ts2
      else syntax_error (t :: ts') "expected '='"
  | _ => syntax_error ts "expected a field name"
  end.

(** Primary expressions; [sub] parses a nested full expression one level
    deeper. *)
Definition primary (sub : list Token -> PRes Expr) (ts : list Token) : PRes Expr :=
  match ts with
  | mkTok (TkInt n) r :: ts' => POk (ELit (meta r) (LInt n)) (snd r) ts'
  | mkTok (TkFloat s) r :: ts' => POk (ELit (meta r) (LFloat s)) (snd r) ts'
  | mkTok (TkString s) r :: ts' => POk (ELit (meta r) (LString s)) (snd r) ts'
  | mkTok (TkBool b) r :: ts' => POk (ELit (meta r) (LBool b)) (snd r) ts'
  | mkTok (TkIdent x) r :: ts' =>
      match ts' with
      | t :: ts'' =>
          if is_delim "{" t then
            let* fs last ts2 := delimited (field_init sub) (is_delim "}") "'}'" ts'' in
            POk (EStructLit (meta (fst r, last)) x fs) last ts2
          else POk (EIdent (meta r) x) (snd r) ts'
      | [] => POk (EIdent (meta r) x) (snd r) ts'
      end
  | (mkTok (TkDelim _) r as t) :: ts' =>
      if is_delim "(" t then
        let* e _l ts1 := sub ts' in
        let* _u last ts2 := expect (is_delim ")") "')'" ts1 in
        POk e last ts2
      else if is_delim "[" t then
        let* es last ts2 := delimited sub (is_delim "]") "']'" ts' in
        POk (EVecLit (meta (fst r, last)) es) last ts2
      else syntax_error ts "expected an expression"
  | (mkTok (TkKeyword _) r as t) :: ts' =>
      if is_kw "if" t then
        let* c _l1 ts1 := sub ts' in
        let* _u1 _l2 ts2 := expect (is_kw "then") "'then'" ts1 in
        let* th _l3 ts3 := sub ts2 in
        let* _u2 _l4 ts4 := expect (is_kw "else") "'else'" ts3 in
        let* el last ts5 := sub ts4 in
        POk (EIf (meta (fst r, last)) c th el) last ts5
      else if is_kw "let" t then
        let* x _l1 ts1 := ident_item ts' in
        let* _u1 _l2 ts2 := expect (is_op "=") "'='" ts1 in
        let* v _l3 ts3 := sub ts2 in
        let* _u2 _l4 ts4 := expect (is_kw "in") "'in'" ts3 in
        let* body last ts5 := sub ts4 in
        POk (ELet (meta (fst r, last)) [(x, v)] body) last ts5
      else syntax_error ts "expected an expression"
  | (mkTok (TkOp _) r as t) :: ts' =>
      if is_op "|" t then
        let* ps _l1 ts1 := delimited ident_item (is_op "|") "'|'" ts' in
        let* _u _l2 ts2 := expect (is_op "->") "'->'" ts1 in
        let* body last ts3 := sub ts2 in
        POk (ELambda (meta (fst r, last)) ps body) last ts3
      else if is_op "||" t then
        let* _u _l2 ts2 := expect (is_op "->") "'->'" ts' in
        let* body last ts3 := sub ts2 in
        POk (ELambda (meta (fst r, last)) [] body) last ts3
      else syntax_error ts "expected an expression"
  | _ => syntax_error ts "expected an expression"
  end.

(** The postfix chain of §4.2, left-associative; one token of lookahead
    after a [.] separates field access, tuple index and projection. *)
Fixpoint postfix (fuel : nat) (sub : list Token -> PRes Expr) (e : Expr) (last : nat)
    (ts : list Token) : PRes Expr :=
  match fuel with
  | 0 => POk e last ts
  | S fuel' =>
    let start := fst (expr_range e) in
    match ts with
    | t :: ts' =>
        if is_delim "." t then
          match ts' with
          | mkTok (TkIdent f) r :: ts2 =>
              postfix fuel' sub (EField (meta (start, snd r)) e f) (snd r) ts2
          | mkTok (TkInt k) r :: ts2 =>
              postfix fuel' sub (ETupleIndex (meta (start, snd r)) e k) (snd r) ts2
          | t2 :: ts2 =>
              if is_delim "(" t2 then
                let* p _l ts3 := sub ts2 in
                let* _u l ts4 := expect (is_delim ")") "')'" ts3 in
                postfix fuel' sub (EDynProj (meta (start, l)) e p) l ts4
              else syntax_error ts' "expected a field, a tuple index or '(' after '.'"
          | [] => syntax_error ts' "expected a field, a tuple index or '(' after '.'"
          end
        else if is_delim "[" t then
          let* i _l ts2 := sub ts' in
          let* _u l ts3 := expect (is_delim "]") "']'" ts2 in
          postfix fuel' sub (EIndex (meta (start, l)) e i) l ts3
        else if is_delim "(" t then
          let* args l ts2 := delimited sub (is_delim ")") "')'" ts' in
          postfix fuel' sub (ECall (meta (start, l)) e args) l ts2
        else POk e last ts
    | [] => POk e last ts
    end
  end.

Definition binop_of (level : nat) (t : Token) : option BinOp :=
  match kind t, level with
  | TkOp "||", 0 => Some OpOr
  | TkOp "&&", 1 => Some OpAnd
  | TkOp "==", 2 => Some OpEq | TkOp "!=", 2 => Some OpNeq
  | TkOp "<", 2 => Some OpLt | TkOp ">", 2 => Some OpGt
  | TkOp "<=", 2 => Some OpLe | TkOp ">=", 2 => Some OpGe
  | TkOp "+", 3 => Some OpAdd | TkOp "-", 3 => Some OpSub
  | TkOp "*", 4 => Some OpMul | TkOp "/", 4 => Some OpDiv
  | _, _ => None
  end.

(** One left-associative precedence tier: [next (op next)*]. *)
Fixpoint binary_loop (fuel level : nat) (next : list Token -> PRes Expr) (lhs : Expr)
    (last : nat) (ts : list Token) : PRes Expr :=
  match fuel with
  | 0 => POk lhs last ts
  | S fuel' =>
      match ts with
      | t :: ts' =>
          match binop_of level t with
          | Some op =>
              let* rhs l ts2 := next ts' in
              binary_loop fuel' level next
                (EBinary (meta (fst (expr_range lhs), l)) op lhs rhs) l ts2
          | None => POk lhs last ts
          end
      | [] => POk lhs last ts
      end
  end.

Definition binary_level (level : nat) (next : list Token -> PRes Expr) (ts : list Token)
    : PRes Expr :=
  let* lhs l ts1 := next ts in binary_loop (length ts1) level next lhs l ts1.

(** [a .. b] sits between comparison and addition. *)
Definition range_level (next : list Token -> PRes Expr) (ts : list Token) : PRes Expr :=
  let* lo l ts1 := next ts in
  match ts1 with
  | t :: ts2 =>
      if is_op ".." t then
        let* hi l2 ts3 := next ts2 in
        POk (ERange (meta (fst (expr_range lo), l2)) lo hi) l2 ts3
      else POk lo l ts1
  | [] => POk lo l ts1
  end.

(** Modelled from the spec: the precedence-climbing expression parser of
    §4.2 ([parser/expr.rs]).  [b] is the remaining recursion depth: every
    nested construct and every prefix operator costs one level, and at 0
    the dedicated [DepthLimitExceeded] diagnostic is returned. *)
Fixpoint parse_expr (b : nat) (ts : list Token) {struct b} : PRes Expr :=
  match b with
  | 0 => depth_error ts
  | S b' =>
      binary_level 0 (binary_level 1 (binary_level 2 (range_level
        (binary_level 3 (binary_level 4 (parse_unary b')))))) ts
  end
with parse_unary (b : nat) (ts : list Token) {struct b} : PRes Expr :=
  match b with
  | 0 => depth_error ts
  | S b' =>
      match ts with
      | t :: ts' =>
          if is_op "-" t then
            let* e l ts2 := parse_unary b' ts' in
            POk (EUnary (meta (fst (trange t), l)) OpNeg e) l ts2
          else if is_op "!" t then
            let* e l ts2 := parse_unary b' ts' in
            POk (EUnary (meta (fst (trange t), l)) OpNot e) l ts2
          else
            let* p l ts2 := primary (parse_expr b') ts in
            postfix (length ts2) (parse_expr b') p l ts2
      | [] => depth_error ts
      end
  end.

(** Type annotations [Name], [Name<T, ...>] and [(T, ...)], nested to any
    depth up to the bound. *)
Fixpoint parse_type (b : nat) (ts : list Token) : PRes TypeExpr :=
  match b with
  | 0 => depth_error ts
  | S b' =>
      match ts with
      | mkTok (TkIdent n) r :: ts' =>
          match ts' with
          | t :: ts2 =>
              if is_op "<" t then
                let* args l ts3 := comma_list (length ts2) (parse_type b') (is_op ">") "'>'" ts2 in
                POk (TyGeneric n args) l ts3
              else POk (TyName n) (snd r) ts'
          | [] => POk (TyName n) (snd r) ts'
          end
      | t :: ts' =>
          if is_delim "(" t then
            let* args l ts2 := comma_list (length ts') (parse_type b') (is_delim ")") "')'" ts' in
            POk (TyTupleE args) l ts2
          else syntax_error ts "expected a type"
      | [] => syntax_error ts "expected a type"
      end
  end.

(* -------------------------------------------------------------- *)
(** Block parser and error recovery (§4.3, [parser/core.rs]). *)

Definition is_newline_tok (t : Token) : bool :=
  match kind t with TkNewline _ => true | _ => false end.

(** A newline that returns to indentation [k] or less. *)
Definition newline_at_most (k : nat) (t : Token) : bool :=
  match kind t with TkNewline i => i <=? k | _ => false end.

(** Split at the separator tokens, dropping them. *)
Fixpoint split_at (p : Token -> bool) (ts : list Token) : list (list Token) :=
  match ts with
  | [] => [[]]
  | t :: ts' =>
      if p t then [] :: split_at p ts'
      else match split_at p ts' with
           | seg :: segs => (t :: seg) :: segs
           | [] => [[t]]
           end
  end.

Fixpoint drop_newlines (ts : list Token) : list Token :=
  match ts with
  | t :: ts' => if is_newline_tok t then drop_newlines ts' else ts
  | [] => []
  end.

Definition last_end (ts : list Token) : nat := snd (first_range (rev ts)).

Definition seg_range (ts : list Token) : Range := (fst (first_range ts), last_end ts).

(** The fragment of one field or struct definition, without its layout
    tokens, closed by an end-of-fragment marker. *)
Definition with_eof (ts : list Token) : list Token :=
  (ts ++ [mkTok TkEof (last_end ts, last_end ts)])%list.

Definition at_eof (ts : list Token) : bool :=
  match ts with
  | [] => true
  | t :: _ => match kind t with TkEof => true | _ => false end
  end.

Definition at_eof_tok (t : Token) : bool :=
  match kind t with TkEof => true | _ => false end.

Definition error_diag (r : Range) (msg : string) : Diagnostic :=
  mkDiag Error r msg SyntaxError.

(** A field value: one expression, or a comma-separated list of them
    ([routed_gates = CX, T] in the README), kept as a vector literal. *)
Definition field_value (ts : list Token) : PRes Expr :=
  let* es l ts1 := comma_list (length ts) (parse_expr max_depth) at_eof_tok "the end of the line" ts in
  match es with
  | [e] => POk e l ts1
  | _ => POk (EVecLit (meta (fst (first_range ts), l)) es) l ts1
  end.

(** [name = value]: on a syntax error the value becomes an [EError]
    placeholder and the diagnostic is recorded. *)
Definition parse_field (x : string) (r : Range) (value : list Token)
    : BlockItem * list Diagnostic :=
  match field_value value with
  | POk e _ _ => (BField (meta r) x e, [])
  | PErr d => (BField (meta r) x (EError (meta (seg_range value))), [d])
  end.

Definition struct_field (ts : list Token) : PRes (string * TypeExpr) :=
  let* x _l ts1 := ident_item ts in
  let* _u _l2 ts2 := expect (is_delim ":") "':'" ts1 in
  let* t l ts3 := parse_type max_depth ts2 in
  POk (x, t) l ts3.

(** [Name{field : Type, ...}]. *)
Definition parse_struct (x : string) (r : Range) (body : list Token)
    : BlockItem * list Diagnostic :=
  match delimited struct_field (is_delim "}") "'}'" body with
  | POk fs _ ts =>
      if at_eof ts then (BStruct (meta r) x fs, [])
      else (BStruct (meta r) x fs,
            [error_diag (first_range ts) "unexpected token after the struct definition"])
  | PErr d => (BError (meta r), [d])
  end.

(** One field or struct definition of a block; [None] for a blank one. *)
Definition parse_block_item (seg : list Token) : option (BlockItem * list Diagnostic) :=
  match filter (fun t => negb (is_newline_tok t)) seg with
  | [] => None
  | ts0 =>
      let r := seg_range ts0 in
      match with_eof ts0 with
      | mkTok (TkIdent x) _ :: t :: rest =>
          if is_op "=" t then Some (parse_field x r rest)
          else if is_delim "{" t then Some (parse_struct x r rest)
          else Some (BError (meta r),
                     [error_diag (trange t) "expected '=' or '{' after the name"])
      | ts =>
          Some (BError (meta r),
                [error_diag (first_range ts) "expected a field or a struct definition"])
      end
  end.

Definition parse_items {A} (p : list Token -> option (A * list Diagnostic))
    (segs : list (list Token)) : list A * list Diagnostic :=
  fold_right (fun seg acc =>
    match p seg with
    | Some (a, ds) => (a :: fst acc, (ds ++ snd acc)%list)
    | None => acc
    end) ([], []) segs.

(** Modelled from the spec: a block is its header line followed by the
    indented lines up to the next line at column 0; its items start on the
    lines indented no deeper than the first one, and deeper lines continue
    the current item.  Each item is parsed on its own, so a syntax error
    resynchronizes at the next field boundary. *)
Definition parse_block (x : string) (hdr : Range) (body : list Token)
    : Block * list Diagnostic :=
  let base := match find is_newline_tok body with
              | Some (mkTok (TkNewline k) _) => k
              | _ => 0
              end in
  let '(its, ds) := parse_items parse_block_item (split_at (newline_at_most base) body) in
  (mkBlock (meta (fst hdr, Nat.max (snd hdr) (last_end body))) x hdr its, ds).

(** One top-level segment: a block, a foreign span, or an unparsable
    fragment replaced by an [IError] placeholder. *)
Definition parse_top_item (seg : list Token) : option (Item * list Diagnostic) :=
  match drop_newlines seg with
  | [] => None
  | (mkTok (TkIdent x) r :: t :: body) as ts =>
      if is_delim ":" t then
        let '(b, ds) := parse_block x r body in Some (IBlock b, ds)
      else Some (IError (meta (seg_range ts)),
                 [error_diag (trange t) "expected ':' after the block name"])
  | mkTok (TkForeign raw closed) r :: rest =>
      Some (IForeign (meta r) raw,
            ((if closed then [] else [error_diag r "unterminated '{{' block"]) ++
             match filter (fun t => negb (is_newline_tok t)) rest with
             | [] => []
             | t :: _ => [error_diag (trange t) "unexpected token after the '{{' block"]
             end)%list)
  | ts => Some (IError (meta (seg_range ts)),
                [error_diag (first_range ts) "expected a block header"])
  end.

(** Modelled from the spec: the whole-file parse of §4.3 ([parse_file]):
    the file is cut at every line that starts at column 0, and each piece
    is parsed on its own, so parsing resynchronizes at the next block
    header.  Node ids are still 0 here; [NodeIds.number_file] assigns
    them. *)
Definition parse_tokens (ts : list Token) : File * list Diagnostic :=
  let '(its, ds) := parse_items parse_top_item (split_at (newline_at_most 0) ts) in
  (mkFile (meta (0, last_end ts)) its, ds).

Definition parse_raw (text : string) : File * list Diagnostic :=
  parse_tokens (tokenize text).

End Parser.

(** A parse under a lower depth bound against the same parse under a
    higher one: the same result, unless the lower one stopped at its bound
    with the [DepthLimitExceeded] diagnostic. *)
Definition refines {A} (r r' : Parser.PRes A) : Prop :=
  match r with
  | Parser.POk a l ts => r' = Parser.POk a l ts
  | Parser.PErr d => code d = DepthLimitExceeded \/ r' = Parser.PErr d
  end.

Module NodeIds.
Local Open Scope nat_scope.

(** Thread a state through a list. *)
Fixpoint map_st {S A B} (f : S -> A -> B * S) (s : S) (l : list A) : list B * S :=
  match l with
  | [] => ([], s)
  | a :: l' => let '(b, s1) := f s a in let '(bs, s2) := map_st f s1 l' in (b :: bs, s2)
  end.

(** [NodeId::new()]: the next id of the supply (the ids this parse draws
    from the counter, in allocation order). *)
Definition take (s : list nat) : nat * list nat :=
  match s with [] => (0, []) | n :: s' => (n, s') end.

Definition relabel (m : Meta) (s : list nat) : Meta * list nat :=
  let '(n, s') := take s in (mkMeta n (rng m), s').

(** Modelled from the spec: every node receives its [NodeId] from the
    counter (§3, §9), here in pre-order. *)
Fixpoint number_expr (s : list nat) (e : Expr) {struct e} : Expr * list nat :=
  match e with
  | ELit m l => let '(m', s1) := relabel m s in (ELit m' l, s1)
  | EIdent m x => let '(m', s1) := relabel m s in (EIdent m' x, s1)
  | EBinary m op l r =>
      let '(m', s1) := relabel m s in
      let '(l', s2) := number_expr s1 l in
      let '(r', s3) := number_expr s2 r in (EBinary m' op l' r', s3)
  | EUnary m op a =>
      let '(m', s1) := relabel m s in
      let '(a', s2) := number_expr s1 a in (EUnary m' op a', s2)
  | ECall m c args =>
      let '(m', s1) := relabel m s in
      let '(c', s2) := number_expr s1 c in
      let '(args', s3) := map_st number_expr s2 args in (ECall m' c' args', s3)
  | ELambda m ps b =>
      let '(m', s1) := relabel m s in
      let '(b', s2) := number_expr s1 b in (ELambda m' ps b', s2)
  | ELet m bs b =>
      let '(m', s1) := relabel m s in
      let '(bs', s2) :=
        map_st (fun s p => let '(v', s') := number_expr s (snd p) in ((fst p, v'), s'))
          s1 bs in
      let '(b', s3) := number_expr s2 b in (ELet m' bs' b', s3)
  | EIf m c t f =>
      let '(m', s1) := relabel m s in
      let '(c', s2) := number_expr s1 c in
      let '(t', s3) := number_expr s2 t in
      let '(f', s4) := number_expr s3 f in (EIf m' c' t' f', s4)
  | EField m b x =>
      let '(m', s1) := relabel m s in
      let '(b', s2) := number_expr s1 b in (EField m' b' x, s2)
  | EIndex m b i =>
      let '(m', s1) := relabel m s in
      let '(b', s2) := number_expr s1 b in
      let '(i', s3) := number_expr s2 i in (EIndex m' b' i', s3)
  | ETupleIndex m b k =>
      let '(m', s1) := relabel m s in
      let '(b', s2) := number_expr s1 b in (ETupleIndex m' b' k, s2)
  | EDynProj m b p =>
      let '(m', s1) := relabel m s in
      let '(b', s2) := number_expr s1 b in
      let '(p', s3) := number_expr s2 p in (EDynProj m' b' p', s3)
  | ERange m lo hi =>
      let '(m', s1) := relabel m s in
      let '(lo', s2) := number_expr s1 lo in
      let '(hi', s3) := number_expr s2 hi in (ERange m' lo' hi', s3)
  | EVecLit m es =>
      let '(m', s1) := relabel m s in
      let '(es', s2) := map_st number_expr s1 es in (EVecLit m' es', s2)
  | EStructLit m x fs =>
      let '(m', s1) := relabel m s in
      let '(fs', s2) :=
        map_st (fun s p => let '(v', s') := number_expr s (snd p) in ((fst p, v'), s'))
          s1 fs in
      (EStructLit m' x fs', s2)
  | EError m => let '(m', s1) := relabel m s in (EError m', s1)
  end.

Definition number_block_item (s : list nat) (it : BlockItem) : BlockItem * list nat :=
  match it with
  | BField m x e =>
      let '(m', s1) := relabel m s in
      let '(e', s2) := number_expr s1 e in (BField m' x e', s2)
  | BStruct m x fs => let '(m', s1) := relabel m s in (BStruct m' x fs, s1)
  | BError m => let '(m', s1) := relabel m s in (BError m', s1)
  end.

Definition number_item (s : list nat) (it : Item) : Item * list nat :=
  match it with
  | IBlock b =>
      let '(m', s1) := relabel (b_meta b) s in
      let '(its, s2) := map_st number_block_item s1 (b_items b) in
      (IBlock (mkBlock m' (b_name b) (b_header b) its), s2)
  | IForeign m raw => let '(m', s1) := relabel m s in (IForeign m' raw, s1)
  | IError m => let '(m', s1) := relabel m s in (IError m' , s1)
  end.

Definition number_file (s : list nat) (f : File) : File * list nat :=
  let '(m', s1) := relabel (f_meta f) s in
  let '(its, s2) := map_st number_item s1 (f_items f) in
  (mkFile m' its, s2).

(** The node ids of a tree, in pre-order. *)
Fixpoint expr_ids (e : Expr) : list nat :=
  match e with
  | ELit m _ | EIdent m _ | EError m => [nid m]
  | EBinary m _ l r | EIndex m l r | EDynProj m l r | ERange m l r =>
      nid m :: expr_ids l ++ expr_ids r
  | EUnary m _ a | ELambda m _ a | EField m a _ | ETupleIndex m a _ => nid m :: expr_ids a
  | ECall m c args => nid m :: expr_ids c ++ concat (map expr_ids args)
  | ELet m bs b => nid m :: concat (map (fun p => expr_ids (snd p)) bs) ++ expr_ids b
  | EIf m c t f => nid m :: expr_ids c ++ expr_ids t ++ expr_ids f
  | EVecLit m es => nid m :: concat (map expr_ids es)
  | EStructLit m _ fs => nid m :: concat (map (fun p => expr_ids (snd p)) fs)
  end.

Definition block_item_ids (it : BlockItem) : list nat :=
  match it with
  | BField m _ e => nid m :: expr_ids e
  | BStruct m _ _ | BError m => [nid m]
  end.

Definition item_ids (it : Item) : list nat :=
  match it with
  | IBlock b => nid (b_meta b) :: concat (map block_item_ids (b_items b))
  | IForeign m _ | IError m => [nid m]
  end.

Definition file_ids (f : File) : list nat :=
  nid (f_meta f) :: concat (map item_ids (f_items f)).

Definition file_size (f : File) : nat := length (file_ids f).

(** The tree with every id reset, for comparisons modulo node ids. *)
Definition erase_meta (m : Meta) : Meta := mkMeta 0 (rng m).

Fixpoint erase_expr (e : Expr) : Expr :=
  match e with
  | ELit m l => ELit (erase_meta m) l
  | EIdent m x => EIdent (erase_meta m) x
  | EBinary m op l r => EBinary (erase_meta m) op (erase_expr l) (erase_expr r)
  | EUnary m op a => EUnary (erase_meta m) op (erase_expr a)
  | ECall m c args => ECall (erase_meta m) (erase_expr c) (map erase_expr args)
  | ELambda m ps b => ELambda (erase_meta m) ps (erase_expr b)
  | ELet m bs b =>
      ELet (erase_meta m) (map (fun p => (fst p, erase_expr (snd p))) bs) (erase_expr b)
  | EIf m c t f => EIf (erase_meta m) (erase_expr c) (erase_expr t) (erase_expr f)
  | EField m b x => EField (erase_meta m) (erase_expr b) x
  | EIndex m b i => EIndex (erase_meta m) (erase_expr b) (erase_expr i)
  | ETupleIndex m b k => ETupleIndex (erase_meta m) (erase_expr b) k
  | EDynProj m b p => EDynProj (erase_meta m) (erase_expr b) (erase_expr p)
  | ERange m lo hi => ERange (erase_meta m) (erase_expr lo) (erase_expr hi)
  | EVecLit m es => EVecLit (erase_meta m) (map erase_expr es)
  | EStructLit m x fs =>
      EStructLit (erase_meta m) x (map (fun p => (fst p, erase_expr (snd p))) fs)
  | EError m => EError (erase_meta m)
  end.

Definition erase_block_item (it : BlockItem) : BlockItem :=
  match it with
  | BField m x e => BField (erase_meta m) x (erase_expr e)
  | BStruct m x fs => BStruct (erase_meta m) x fs
  | BError m => BError (erase_meta m)
  end.

Definition erase_item (it : Item) : Item :=
  match it with
  | IBlock b => IBlock (mkBlock (erase_meta (b_meta b)) (b_name b) (b_header b)
                          (map erase_block_item (b_items b)))
  | IForeign m raw => IForeign (erase_meta m) raw
  | IError m => IError (erase_meta m)
  end.

Definition erase_file (f : File) : File :=
  mkFile (erase_meta (f_meta f)) (map erase_item (f_items f)).

(** Modelled from the spec: the process-wide atomic counter of §5.  Each
    running parse is a thread with the list of ids it has drawn; one atomic
    [fetch_add] hands the current value to one thread and increments the
    counter.  A schedule lists which thread performs each [fetch_add], so
    every interleaving of concurrent parses is one schedule. *)
Record Counter := mkCounter { next_id : nat; drawn : list (list nat) }.

Definition init_counter (threads : nat) : Counter := mkCounter 0 (repeat [] threads).

Fixpoint update_nth {A} (i : nat) (f : A -> A) (l : list A) : list A :=
  match l, i with
  | [], _ => []
  | a :: l', 0 => f a :: l'
  | a :: l', S i' => a :: update_nth i' f l'
  end.

Definition fetch_add (thread : nat) (c : Counter) : Counter :=
  if thread <? length (drawn c) then
    mkCounter (S (next_id c))
      (update_nth thread (fun l => (l ++ [next_id c])%list) (drawn c))
  else c.

Definition run_schedule (sched : list nat) (c : Counter) : Counter :=
  fold_left (fun c i => fetch_add i c) sched c.

(** Modelled from the spec: a parse draws its ids from the counter; once a
    thread has drawn as many ids as its tree has nodes, its tree is
    numbered with them. *)
Definition parse_with_ids (text : string) (ids : list nat) : option File :=
  let f := fst (Parser.parse_raw text) in
  if file_size f <=? length ids then Some (fst (number_file ids f)) else None.

(** Modelled from the spec: the full parse of one document snapshot with
    the ids it draws ([parse_file] in [server.rs]). *)
Definition parse_file (ids : list nat) (text : string) : File * list Diagnostic :=
  let '(f, ds) := Parser.parse_raw text in (fst (number_file ids f), ds).

(** The node ids of the trees of the finished parses, thread by thread,
    after the counter has served a schedule ([texts] lists the document each
    thread parses). *)
Definition all_parsed_ids (texts : list string) (c : Counter) : list nat :=
  concat (map (fun p => match parse_with_ids (fst p) (snd p) with
                        | Some f => file_ids f
                        | None => []
                        end) (combine texts (drawn c))).

End NodeIds.

Module Semantics.

Import Symbols.

(** Modelled from the spec: the semantic analyzer of §4.5
    ([semantics.rs]). *)
Definition err (r : Range) (c : DiagCode) (msg : string) : Diagnostic :=
  mkDiag Error r msg c.

Definition mismatch (r : Range) (expected actual : Ty) : Diagnostic :=
  err r TypeMismatch
    ("Type mismatch: expected '" ++ show_ty expected ++ "' but got '" ++ show_ty actual ++ "'").

(** The index error names the declared index type and the probe type
    ([Expected 'Qubit' but got 'Int'] in the CHANGELOG). *)
Definition index_mismatch (r : Range) (declared probe : Ty) : Diagnostic :=
  err r IndexTypeMismatch
    ("Index type mismatch: Expected '" ++ show_ty declared ++ "' but got '"
     ++ show_ty probe ++ "'").

Definition unknown_ident (r : Range) (x : string) : Diagnostic :=
  err r UnknownIdentifier ("Unknown identifier '" ++ x ++ "'").

Definition is_unknown (t : Ty) : bool :=
  match t with TUnknown => true | _ => false end.

(** The struct definitions of a file, as written. *)
Definition StructDecls : Type := list (string * list (string * TypeExpr)).

Fixpoint struct_decl (decls : StructDecls) (n : string) : option (list (string * TypeExpr)) :=
  match decls with
  | [] => None
  | (m, fs) :: ds => if String.eqb n m then Some fs else struct_decl ds n
  end.

Definition base_type (n : string) : option Ty :=
  if String.eqb n "Int" then Some TInt
  else if String.eqb n "Float" then Some TFloat
  else if String.eqb n "Bool" then Some TBool
  else if String.eqb n "String" then Some TString
  else if String.eqb n "Location" then Some TLocation
  else if String.eqb n "Qubit" then Some TQubit
  else if String.eqb n "Gate" then Some TGate
  else if String.eqb n "Arch" then Some TArch
  else if String.eqb n "State" then Some TState
  else if String.eqb n "QubitMap" then Some TQubitMap
  else None.

(** Type annotations to types; a struct name unfolds to its fields, [fuel]
    bounds the unfolding of struct names. *)
Fixpoint resolve_type (decls : StructDecls) (fuel : nat) : TypeExpr -> Ty :=
  fix go (te : TypeExpr) : Ty :=
    match te with
    | TyName n =>
        match base_type n with
        | Some t => t
        | None =>
            match fuel, struct_decl decls n with
            | S fuel', Some fs =>
                TStruct n (map (fun p => (fst p, resolve_type decls fuel' (snd p))) fs)
            | _, _ => TUnknown
            end
        end
    | TyGeneric n args =>
        match args with
        | [a] => if String.eqb n "Vec" then TVec (go a)
                 else if String.eqb n "Option" then TOption (go a)
                 else TUnknown
        | _ => TUnknown
        end
    | TyTupleE ts => TTuple (map go ts)
    end.

Definition struct_ty (decls : StructDecls) (n : string) (fs : list (string * TypeExpr)) : Ty :=
  TStruct n (map (fun p => (fst p, resolve_type decls (length decls) (snd p))) fs).

(** Operand checks of the binary operators; an [Unknown] operand is
    accepted without checks (§7 leniency). *)
Definition binop_result (r : Range) (op : BinOp) (lt rt : Ty) : Ty * list Diagnostic :=
  if is_unknown lt || is_unknown rt then
    (match op with OpAdd | OpSub | OpMul | OpDiv => TUnknown | _ => TBool end, [])
  else
    match op with
    | OpAdd | OpSub | OpMul | OpDiv =>
        if is_numeric lt && compatible lt rt then (lt, []) else (TUnknown, [mismatch r lt rt])
    | OpOr | OpAnd =>
        if compatible lt TBool then
          if compatible rt TBool then (TBool, []) else (TBool, [mismatch r TBool rt])
        else (TBool, [mismatch r TBool lt])
    | OpEq | OpNeq =>
        if compatible lt rt then (TBool, []) else (TBool, [mismatch r lt rt])
    | OpLt | OpGt | OpLe | OpGe =>
        if is_numeric lt && compatible lt rt then (TBool, []) else (TBool, [mismatch r lt rt])
    end.

Definition unop_result (r : Range) (op : UnOp) (t : Ty) : Ty * list Diagnostic :=
  match op with
  | OpNeg =>
      if is_unknown t then (TUnknown, [])
      else if is_numeric t then (t, []) else (TUnknown, [mismatch r TInt t])
  | OpNot =>
      if is_unknown t || compatible t TBool then (TBool, []) else (TBool, [mismatch r TBool t])
  end.

Fixpoint check_args (params : list Ty) (args : list (Ty * Range)) : list Diagnostic :=
  match params, args with
  | p :: ps, (a, r) :: args' =>
      ((if compatible p a then [] else [mismatch r p a]) ++ check_args ps args')%list
  | _, _ => []
  end.

(** A call against the callee's type: an [Unknown] callee is not checked;
    a function checks its argument count and each argument; a value
    called with no argument is the value itself (§4.4 property/function
    unification). *)
Definition check_call (r : Range) (ft : Ty) (args : list (Ty * Range)) : Ty * list Diagnostic :=
  match ft with
  | TUnknown => (TUnknown, [])
  | TFunction ps ret =>
      if Nat.eqb (length ps) (length args) then (ret, check_args ps args)
      else (ret, [err r TypeMismatch
                    ("Wrong number of arguments for a function of type '" ++ show_ty ft ++ "'")])
  | t =>
      match args with
      | [] => (t, [])
      | _ => (TUnknown, [err r TypeMismatch ("Type '" ++ show_ty t ++ "' is not callable")])
      end
  end.

Definition no_member (r : Range) (t : Ty) (x : string) : Diagnostic :=
  err r TypeMismatch ("Type '" ++ show_ty t ++ "' has no field or method '" ++ x ++ "'").

(** The path of a dynamic projection resolves against the base type's
    schema: an integer literal selects a tuple component, a name or a
    zero-argument call of a name selects a field or method. *)
Definition projection_type (bt : Ty) (p : Expr) : option Ty :=
  match p, bt with
  | ELit _ (LInt k), TTuple ts => nth_error ts k
  | EIdent _ x, _ => option_map property_type (field_type bt x)
  | ECall _ (EIdent _ x) [], _ => option_map property_type (field_type bt x)
  | _, _ => None
  end.

Definition lit_type (l : Literal) : Ty :=
  match l with LInt _ => TInt | LFloat _ => TFloat | LBool _ => TBool | LString _ => TString end.

(** Bottom-up inference (§4.5 step 3): the type of an expression and the
    diagnostics of the expression and of its subexpressions, in order.
    [scopes] is the scope stack, innermost first. *)
Fixpoint infer (scopes : list Scope) (decls : StructDecls) (e : Expr) {struct e}
    : Ty * list Diagnostic :=
  match e with
  | ELit _ l => (lit_type l, [])
  | EIdent m x =>
      match lookup scopes x with
      | Some t => (property_type t, [])
      | None => (TUnknown, [unknown_ident (rng m) x])
      end
  | EBinary m op l r =>
      let '(lt, ld) := infer scopes decls l in
      let '(rt, rd) := infer scopes decls r in
      let '(t, d) := binop_result (rng m) op lt rt in
      (t, ld ++ rd ++ d)%list
  | EUnary m op a =>
      let '(at_, ad) := infer scopes decls a in
      let '(t, d) := unop_result (rng m) op at_ in
      (t, ad ++ d)%list
  | ECall m c args =>
      let ais := map (infer scopes decls) args in
      let ad := concat (map snd ais) in
      let targs := combine (map fst ais) (map expr_range args) in
      match c with
      | EIdent _ x =>
          match lookup scopes x with
          | Some ft => let '(t, d) := check_call (rng m) ft targs in (t, ad ++ d)%list
          | None => (TUnknown, unknown_ident (rng m) x :: ad)
          end
      | EField mb b x =>
          let '(bt, bd) := infer scopes decls b in
          if is_unknown bt then (TUnknown, bd ++ ad)%list
          else match field_type bt x with
               | Some ft => let '(t, d) := check_call (rng m) ft targs in (t, bd ++ ad ++ d)%list
               | None => (TUnknown, bd ++ [no_member (rng mb) bt x] ++ ad)%list
               end
      | _ =>
          let '(ct, cd) := infer scopes decls c in
          let '(t, d) := check_call (rng m) ct targs in (t, cd ++ ad ++ d)%list
      end
  | ELambda _ ps body =>
      let '(bt, bd) := infer (map (fun x => (x, TUnknown)) ps :: scopes) decls body in
      (TFunction (map (fun _ => TUnknown) ps) bt, bd)
  | ELet _ bs body =>
      let '(sc, bds) :=
        (fix go (sc : Scope) (bs : list (string * Expr)) : Scope * list Diagnostic :=
           match bs with
           | [] => (sc, [])
           | (x, v) :: bs' =>
               let '(vt, vd) := infer (sc :: scopes) decls v in
               let '(sc', ds) := go ((x, vt) :: sc) bs' in (sc', vd ++ ds)%list
           end) [] bs in
      let '(t, d) := infer (sc :: scopes) decls body in (t, bds ++ d)%list
  | EIf m c th el =>
      let '(ct, cd) := infer scopes decls c in
      let '(tht, td) := infer scopes decls th in
      let '(elt, ed) := infer scopes decls el in
      let cond := if compatible ct TBool then [] else [mismatch (expr_range c) TBool ct] in
      if compatible tht elt then (unify tht elt, cd ++ td ++ ed ++ cond)%list
      else (tht, cd ++ td ++ ed ++ cond ++
                [err (rng m) TypeMismatch
                   ("If branches have incompatible types '" ++ show_ty tht ++ "' and '"
                    ++ show_ty elt ++ "'")])%list
  | EField m b x =>
      let '(bt, bd) := infer scopes decls b in
      if is_unknown bt then (TUnknown, bd)
      else match field_type bt x with
           | Some t => (property_type t, bd)
           | None => (TUnknown, bd ++ [no_member (rng m) bt x])%list
           end
  | EIndex m b i =>
      let '(bt, bd) := infer scopes decls b in
      let '(it, id) := infer scopes decls i in
      if is_unknown bt then (TUnknown, bd ++ id)%list
      else match index_type bt with
           | Some (declared, elem) =>
               if index_compatible declared it then (elem, bd ++ id)%list
               else (elem, bd ++ id ++ [index_mismatch (rng m) declared it])%list
           | None =>
               (TUnknown, bd ++ id ++
                  [err (rng m) TypeMismatch ("Type '" ++ show_ty bt ++ "' is not indexable")])%list
           end
  | ETupleIndex m b k =>
      let '(bt, bd) := infer scopes decls b in
      match bt with
      | TUnknown => (TUnknown, bd)
      | TTuple ts =>
          match nth_error ts k with
          | Some t => (t, bd)
          | None => (TUnknown, bd ++ [err (rng m) TypeMismatch "Tuple index out of range"])%list
          end
      | _ => (TUnknown, bd ++ [err (rng m) TypeMismatch
                                 ("Type '" ++ show_ty bt ++ "' is not a tuple")])%list
      end
  | EDynProj m b p =>
      let '(bt, bd) := infer scopes decls b in
      if is_unknown bt then (TUnknown, bd)
      else match projection_type bt p with
           | Some t => (t, bd)
           | None => (TUnknown, bd ++ [err (rng m) TypeMismatch
                        ("Cannot resolve the projection on type '" ++ show_ty bt ++ "'")])%list
           end
  | ERange m lo hi =>
      let '(lt, ld) := infer scopes decls lo in
      let '(ht, hd) := infer scopes decls hi in
      (TVec TInt, ld ++ hd ++
                  (if compatible lt TInt then [] else [mismatch (expr_range lo) TInt lt]) ++
                  (if compatible ht TInt then [] else [mismatch (expr_range hi) TInt ht]))%list
  | EVecLit _ es =>
      let eis := map (infer scopes decls) es in
      let t := fold_left unify (map fst eis) TUnknown in
      (TVec t, concat (map snd eis) ++
               flat_map (fun p => if compatible t (fst p) then [] else [mismatch (snd p) t (fst p)])
                 (combine (map fst eis) (map expr_range es)))%list
  | EStructLit m n fs =>
      let fis := map (fun p => (fst p, infer scopes decls (snd p))) fs in
      let fd := concat (map (fun p => snd (snd p)) fis) in
      match base_type n with
      | Some t => (t, fd)
      | None =>
          match struct_decl decls n with
          | Some dfs =>
              let st := struct_ty decls n dfs in
              let ftys := match st with TStruct _ ftys => ftys | _ => [] end in
              (st, fd ++
                   flat_map (fun p =>
                     match scope_lookup ftys (fst p) with
                     | Some dt => if compatible dt (fst (snd p)) then []
                                  else [mismatch (rng m) dt (fst (snd p))]
                     | None => [no_member (rng m) st (fst p)]
                     end) fis)%list
          | None => (TUnknown, unknown_ident (rng m) n :: fd)
          end
      end
  | EError _ => (TUnknown, [])
  end.

(** Structure validation (§4.5 step 1), with the blocks and keys of the
    README. *)
Definition required_blocks : list string := ["RouteInfo"; "TransitionInfo"].

Definition required_keys (n : string) : list string :=
  if String.eqb n "RouteInfo" then ["routed_gates"; "realize_gate"]
  else if String.eqb n "TransitionInfo" then ["get_transitions"; "apply"; "cost"]
  else [].

Definition has_block (f : File) (n : string) : bool :=
  existsb (fun b => String.eqb (b_name b) n) (file_blocks f).

Definition has_field (b : Block) (k : string) : bool :=
  existsb (fun fld => let '(_, x, _) := fld in String.eqb x k) (block_fields b).

Definition missing_block_diag (n : string) : Diagnostic :=
  err (0, 0) MissingBlock ("Missing required block '" ++ n ++ "'").

Definition missing_field_diag (b : Block) (k : string) : Diagnostic :=
  err (b_header b) MissingField
    ("Missing required field '" ++ k ++ "' in block '" ++ b_name b ++ "'").

Definition structure_diags (f : File) : list Diagnostic :=
  (flat_map (fun n => if has_block f n then [] else [missing_block_diag n]) required_blocks ++
   flat_map (fun b => flat_map (fun k => if has_field b k then [] else [missing_field_diag b k])
                        (required_keys (b_name b)))
     (file_blocks f))%list.

(** Style check (§4.5 step 2). *)
Definition is_upper (c : ascii) : bool :=
  Nat.leb 65 (nat_of_ascii c) && Nat.leb (nat_of_ascii c) 90.

Definition style_diags (f : File) : list Diagnostic :=
  flat_map (fun b =>
    match b_name b with
    | String c _ =>
        if is_upper c then []
        else [mkDiag Warning (b_header b)
                ("Block name '" ++ b_name b ++ "' should be capitalized") StyleCapitalization]
    | EmptyString => []
    end) (file_blocks f).

(** Type inference over every field (§4.5 step 3): a block's scope binds
    the names of its struct definitions, above the global scope. *)
Definition file_decls (f : File) : StructDecls := flat_map block_structs (file_blocks f).

Definition block_scope (decls : StructDecls) (b : Block) : Scope :=
  map (fun p => (fst p, struct_ty decls (fst p) (snd p))) (block_structs b).

Definition field_diags (decls : StructDecls) (b : Block) : list Diagnostic :=
  flat_map (fun fld => let '(_, _, e) := fld in
                       snd (infer [block_scope decls b; global_scope] decls e))
    (block_fields b).

Definition inference_diags (f : File) : list Diagnostic :=
  flat_map (field_diags (file_decls f)) (file_blocks f).

(** §4.5 step 4: the passes' diagnostics, aggregated in order. *)
Definition analyze (f : File) : list Diagnostic :=
  (structure_diags f ++ style_diags f ++ inference_diags f)%list.

(** The diagnostics of one document: the parser's, then the analyzer's. *)
Definition check_document (text : string) : list Diagnostic :=
  let '(f, ds) := Parser.parse_raw text in (ds ++ analyze f)%list.

End Semantics.

(** Induction over [Expr] that sees through the nested lists of arguments,
    bindings, elements and struct fields. *)
Section Expr_nested_ind.
Variable P : Expr -> Prop.
Hypotheses
  (HLit : forall m l, P (ELit m l))
  (HIdent : forall m x, P (EIdent m x))
  (HBinary : forall m op l r, P l -> P r -> P (EBinary m op l r))
  (HUnary : forall m op a, P a -> P (EUnary m op a))
  (HCall : forall m c args, P c -> Forall P args -> P (ECall m c args))
  (HLambda : forall m ps b, P b -> P (ELambda m ps b))
  (HLet : forall m bs b, Forall (fun p => P (snd p)) bs -> P b -> P (ELet m bs b))
  (HIf : forall m c t f, P c -> P t -> P f -> P (EIf m c t f))
  (HField : forall m b x, P b -> P (EField m b x))
  (HIndex : forall m b i, P b -> P i -> P (EIndex m b i))
  (HTupleIndex : forall m b k, P b -> P (ETupleIndex m b k))
  (HDynProj : forall m b p, P b -> P p -> P (EDynProj m b p))
  (HRange : forall m lo hi, P lo -> P hi -> P (ERange m lo hi))
  (HVecLit : forall m es, Forall P es -> P (EVecLit m es))
  (HStructLit : forall m n fs, Forall (fun p => P (snd p)) fs -> P (EStructLit m n fs))
  (HError : forall m, P (EError m)).

Fixpoint Expr_nested_ind (e : Expr) : P e :=
  let fix go (es : list Expr) : Forall P es :=
    match es with
    | [] => Forall_nil P
    | x :: xs => Forall_cons x (Expr_nested_ind x) (go xs)
    end in
  let fix go2 (ps : list (string * Expr)) : Forall (fun p => P (snd p)) ps :=
    match ps with
    | [] => Forall_nil _
    | (x, v) :: xs => Forall_cons (x, v) (Expr_nested_ind v) (go2 xs)
    end in
  match e with
  | ELit m l => HLit m l
  | EIdent m x => HIdent m x
  | EBinary m op l r => HBinary m op l r (Expr_nested_ind l) (Expr_nested_ind r)
  | EUnary m op a => HUnary m op a (Expr_nested_ind a)
  | ECall m c args => HCall m c args (Expr_nested_ind c) (go args)
  | ELambda m ps b => HLambda m ps b (Expr_nested_ind b)
  | ELet m bs b => HLet m bs b (go2 bs) (Expr_nested_ind b)
  | EIf m c t f => HIf m c t f (Expr_nested_ind c) (Expr_nested_ind t) (Expr_nested_ind f)
  | EField m b x => HField m b x (Expr_nested_ind b)
  | EIndex m b i => HIndex m b i (Expr_nested_ind b) (Expr_nested_ind i)
  | ETupleIndex m b k => HTupleIndex m b k (Expr_nested_ind b)
  | EDynProj m b p => HDynProj m b p (Expr_nested_ind b) (Expr_nested_ind p)
  | ERange m lo hi => HRange m lo hi (Expr_nested_ind lo) (Expr_nested_ind hi)
  | EVecLit m es => HVecLit m es (go es)
  | EStructLit m n fs => HStructLit m n fs (go2 fs)
  | EError m => HError m
  end.
End Expr_nested_ind.

(** One stage of id drawing: from supply [s] to supply [s'], a tree whose
    node ids were [ids_in] gets [ids_out]; a supply long enough for the tree
    is consumed exactly by the ids it hands out. *)
Definition stage_ok (ids_in ids_out s s' : list nat) : Prop :=
  length ids_out = length ids_in /\
  (length ids_in <= length s -> (ids_out ++ s')%list = s).

(** The codes of the structure pass. *)
Definition structural_code (c : DiagCode) : bool :=
  match c with MissingBlock | MissingField => true | _ => false end.

(** The binding loop of the [ELet] case of [Semantics.infer], named: from
    scope [sc], each binding is inferred in the scope built so far and then
    added to it; the result is the final scope and the bindings'
    diagnostics, in order. *)
Fixpoint let_bindings (scopes : list Symbols.Scope) (decls : Semantics.StructDecls)
    (sc : Symbols.Scope) (bs : list (string * Expr)) : Symbols.Scope * list Diagnostic :=
  match bs with
  | [] => (sc, [])
  | (x, v) :: bs' =>
      let '(vt, vd) := Semantics.infer (sc :: scopes) decls v in
      let '(sc', ds) := let_bindings scopes decls ((x, vt) :: sc) bs' in (sc', vd ++ ds)%list
  end.

(** The subexpressions that [Semantics.infer] infers when it infers an
    expression, each with the scope stack it is inferred in: a call infers
    its arguments, and its callee unless the callee is a name (looked up)
    or a method [b.x] (whose base [b] it infers); a dynamic projection
    infers its base, its path is resolved against the base's type. *)
Inductive infer_child (decls : Semantics.StructDecls) :
    list Symbols.Scope -> Expr -> list Symbols.Scope -> Expr -> Prop :=
| ch_binary_l scopes m op l r : infer_child decls scopes (EBinary m op l r) scopes l
| ch_binary_r scopes m op l r : infer_child decls scopes (EBinary m op l r) scopes r
| ch_unary scopes m op a : infer_child decls scopes (EUnary m op a) scopes a
| ch_call_arg scopes m c args a :
    In a args -> infer_child decls scopes (ECall m c args) scopes a
| ch_call_method scopes m mb b x args :
    infer_child decls scopes (ECall m (EField mb b x) args) scopes b
| ch_call_callee scopes m c args :
    (forall mi x, c <> EIdent mi x) -> (forall mb b x, c <> EField mb b x) ->
    infer_child decls scopes (ECall m c args) scopes c
| ch_lambda scopes m ps b :
    infer_child decls scopes (ELambda m ps b) (map (fun x => (x, TUnknown)) ps :: scopes) b
| ch_let_binding scopes m bs b j x v :
    nth_error bs j = Some (x, v) ->
    infer_child decls scopes (ELet m bs b)
      (fst (let_bindings scopes decls [] (firstn j bs)) :: scopes) v
| ch_let_body scopes m bs b :
    infer_child decls scopes (ELet m bs b) (fst (let_bindings scopes decls [] bs) :: scopes) b
| ch_if_c scopes m c t e : infer_child decls scopes (EIf m c t e) scopes c
| ch_if_t scopes m c t e : infer_child decls scopes (EIf m c t e) scopes t
| ch_if_e scopes m c t e : infer_child decls scopes (EIf m c t e) scopes e
| ch_field scopes m b x : infer_child decls scopes (EField m b x) scopes b
| ch_index_base scopes m b i : infer_child decls scopes (EIndex m b i) scopes b
| ch_index_idx scopes m b i : infer_child decls scopes (EIndex m b i) scopes i
| ch_tuple_index scopes m b k : infer_child decls scopes (ETupleIndex m b k) scopes b
| ch_dynproj scopes m b p : infer_child decls scopes (EDynProj m b p) scopes b
| ch_range_lo scopes m lo hi : infer_child decls scopes (ERange m lo hi) scopes lo
| ch_range_hi scopes m lo hi : infer_child decls scopes (ERange m lo hi) scopes hi
| ch_vec scopes m es e : In e es -> infer_child decls scopes (EVecLit m es) scopes e
| ch_struct scopes m n fs x v :
    In (x, v) fs -> infer_child decls scopes (EStructLit m n fs) scopes v.

(** [infer_child] on (scope stack, expression) pairs, parent to child. *)
Definition infer_step (decls : Semantics.StructDecls)
    (p q : list Symbols.Scope * Expr) : Prop :=
  infer_child decls (fst p) (snd p) (fst q) (snd q).

(** Every stored client was constructed, and every [client.stop()] in the
    event log stops a client constructed before it. *)
Definition stops_created (w : world) : Prop :=
  (forall c, client w = Some c -> In (NewLanguageClient c) (events w)) /\
  (forall pre c post, events w = (pre ++ ClientStop c :: post)%list ->
                      In (NewLanguageClient c) pre).

(* ================================================================== *)
(** * Theorems *)

(** ** The extension client *)

Lemma existsSync_emit e w p : existsSync p (emit e w) = existsSync p w.
Proof. reflexivity. Qed.

(** C8: on every platform other than ['win32'], ['darwin'] and ['linux'],
    [activate] logs its start, shows the unsupported-OS error message and
    returns: no client is constructed or started, the module-level [client]
    keeps its value (so it stays [undefined] from the initial module state),
    and no file is touched. *)
Theorem activate_unsupported_os :
  forall platform ctx w0,
    platform <> "win32" -> platform <> "darwin" -> platform <> "linux" ->
    let w := Extension.activate platform ctx w0 in
    client w = client w0 /\ files w = files w0 /\
    events w = (events w0 ++
      [ConsoleLog "Activating Amaro Extension...";
       ShowErrorMessage ("Amaro is not supported on this OS: " ++ platform)])%list /\
    (client w0 = None -> client w = None).
Proof.
  intros platform ctx w0 Hw Hd Hl w.
  assert (Hb : Extension.binaryName platform = None).
  { unfold Extension.binaryName.
    apply String.eqb_neq in Hw, Hd, Hl. now rewrite Hw, Hd, Hl. }
  subst w; unfold Extension.activate; rewrite Hb; cbn.
  rewrite <- app_assoc; cbn. repeat split; auto.
Qed.

Lemma activate_unsupported_os_witness :
  let w := Extension.activate "freebsd" (mkContext "/ext") (init_world []) in
  client w = None /\ In (ShowErrorMessage "Amaro is not supported on this OS: freebsd") (events w).
Proof.
  destruct (activate_unsupported_os "freebsd" (mkContext "/ext") (init_world []))
    as (Hc & _ & He & _); try discriminate.
  split; [exact Hc | rewrite He; cbn; right; left; reflexivity].
Defined.

(** C9: when the language-server binary is missing at the computed path,
    [activate] shows the error message and returns before any [chmodSync]
    and before any [LanguageClient] is constructed or started: the files and
    the [client] variable are unchanged, and the only new events are the two
    logs, the [existsSync] probe, the error message and the console error.
    The same holds for the older client of [part_001]. *)
Theorem activate_missing_binary :
  (forall platform ctx w0 bin,
    Extension.binaryName platform = Some bin ->
    existsSync (Extension.serverPath platform ctx bin) w0 = false ->
    let sp := Extension.serverPath platform ctx bin in
    let w := Extension.activate platform ctx w0 in
    client w = client w0 /\ files w = files w0 /\
    events w = (events w0 ++
      [ConsoleLog "Activating Amaro Extension...";
       ConsoleLog ("Looking for LSP binary at: " ++ sp);
       ExistsSync sp;
       ShowErrorMessage ("Amaro LSP binary not found! Expected at: " ++ sp
                         ++ ". Did you run 'cargo build'?");
       ConsoleError ("Binary missing at " ++ sp)])%list) /\
  (forall platform ctx w0,
    existsSync (MarolExtension.serverPath platform ctx) w0 = false ->
    let sp := MarolExtension.serverPath platform ctx in
    let '(w, r) := MarolExtension.activate platform ctx w0 in
    r = MarolExtension.Normal /\
    client w = client w0 /\ files w = files w0 /\
    events w = (events w0 ++
      [ConsoleLog "Activating Marol Extension...";
       ConsoleLog ("Looking for LSP binary at: " ++ sp);
       ExistsSync sp;
       ShowErrorMessage ("Marol LSP binary not found! Expected at: " ++ sp
                         ++ ". Did you run 'cargo build'?");
       ConsoleError ("Binary missing at " ++ sp)])%list).
Proof.
  split.
  - intros platform ctx w0 bin Hb He sp w.
    subst w sp; unfold Extension.activate; rewrite Hb.
    cbv zeta. unfold existsSync in *; cbn [files emit] in *.
    rewrite He; cbn. repeat rewrite <- app_assoc. repeat split; reflexivity.
  - intros platform ctx w0 He sp.
    unfold MarolExtension.activate. cbv zeta.
    unfold existsSync in *; cbn [files emit] in *. fold sp in He |- *.
    rewrite He; cbn. repeat rewrite <- app_assoc. repeat split; reflexivity.
Qed.

Lemma activate_missing_binary_witness :
  client (Extension.activate "linux" (mkContext "/ext") (init_world [])) = None /\
  files (fst (MarolExtension.activate "darwin" (mkContext "/ext") (init_world [("/x", "644")])))
    = [("/x", "644")].
Proof.
  destruct activate_missing_binary as [H1 H2]. split.
  - destruct (H1 "linux" (mkContext "/ext") (init_world []) "amaro-lsp-linux")
      as (Hc & _); [reflexivity | reflexivity | exact Hc].
  - pose proof (H2 "darwin" (mkContext "/ext") (init_world [("/x", "644")]) eq_refl) as H.
    destruct (MarolExtension.activate "darwin" (mkContext "/ext") (init_world [("/x", "644")]))
      as [w r] eqn:E.
    destruct H as (_ & _ & Hf & _). exact Hf.
Defined.

Section ClientVariable.

Lemma tracks_emit w e :
  (forall c, e <> NewLanguageClient c) -> tracks_client w (emit e w).
Proof.
  intros He. exists [e]; split; [reflexivity|left; split; [reflexivity|]].
  intros c [Hc|[]]. exact (He c Hc).
Qed.

Lemma tracks_trans w0 w1 w2 :
  tracks_client w0 w1 -> tracks_client w1 w2 -> tracks_client w0 w2.
Proof.
  intros (n1 & E1 & H1) (n2 & E2 & H2).
  exists (n1 ++ n2)%list; split; [rewrite E2, E1, app_assoc; reflexivity|].
  destruct H2 as [(C2 & N2)|(c & C2 & I2)].
  - destruct H1 as [(C1 & N1)|(c & C1 & I1)].
    + left; split; [congruence|]. intros c Hc; apply in_app_or in Hc.
      destruct Hc; [eapply N1|eapply N2]; eauto.
    + right; exists c; split; [congruence|apply in_or_app; auto].
  - right; exists c; split; [assumption|apply in_or_app; auto].
Qed.

Lemma tracks_refl w : tracks_client w w.
Proof.
  exists []; split; [rewrite app_nil_r; reflexivity|left; split; auto].
Qed.

Lemma tracks_chmod p m w w' :
  chmodSync p m w = inl w' -> tracks_client w w'.
Proof.
  unfold chmodSync; destruct (negb (existsSync p w)); [discriminate|].
  destruct (chmod_error p w); intros H; inversion H; subst.
  exists [ChmodSync p m]; split; [reflexivity|left; split; [reflexivity|]].
  intros c [Hc|[]]; discriminate.
Qed.

Lemma tracks_set_client c w : tracks_client w (set_client c w).
Proof.
  exists [NewLanguageClient c]; split; [reflexivity|right].
  exists c; split; [reflexivity|left; reflexivity].
Qed.

Ltac tracks_chain :=
  repeat match goal with
  | |- tracks_client ?w ?w => apply tracks_refl
  | |- tracks_client _ (emit _ _) =>
      eapply tracks_trans; [|apply tracks_emit; intros ? ?; discriminate]
  | |- tracks_client _ (set_client _ _) =>
      eapply tracks_trans; [|apply tracks_set_client]
  end.

Lemma tracks_activate p ctx w : tracks_client w (Extension.activate p ctx w).
Proof.
  unfold Extension.activate. cbv zeta.
  destruct (Extension.binaryName p); [|tracks_chain].
  destruct (negb (existsSync _ _)); [tracks_chain|].
  tracks_chain.
  destruct (negb (String.eqb p "win32")); [|tracks_chain].
  destruct (chmodSync _ _ _) eqn:E; [|tracks_chain].
  eapply tracks_trans; [|eapply tracks_chmod; exact E]. tracks_chain.
Qed.

Lemma tracks_marol_activate p ctx w :
  tracks_client w (fst (MarolExtension.activate p ctx w)).
Proof.
  unfold MarolExtension.activate. cbv zeta.
  destruct (negb (existsSync _ _)); [cbn [fst]; tracks_chain|].
  destruct (negb (String.eqb p "win32")).
  - destruct (chmodSync _ _ _) eqn:E; cbn [fst]; [|tracks_chain].
    eapply tracks_trans; [|apply tracks_emit; intros ? ?; discriminate].
    eapply tracks_trans; [|apply tracks_set_client].
    eapply tracks_trans; [|eapply tracks_chmod; exact E]. tracks_chain.
  - cbn [fst]. tracks_chain.
Qed.

Lemma tracks_deactivate w :
  tracks_client w (snd (Extension.deactivate w)) /\
  tracks_client w (snd (MarolExtension.deactivate w)).
Proof.
  unfold Extension.deactivate, MarolExtension.deactivate.
  destruct (client w); cbn [snd]; split; tracks_chain.
Qed.

Lemma tracks_set_files w fs errs :
  tracks_client w (mkWorld (client w) fs errs (events w)).
Proof.
  exists []; split; [rewrite app_nil_r; reflexivity|left; split; auto].
Qed.

Lemma client_inv_tracks w0 w :
  client_inv w0 -> tracks_client w0 w -> client_inv w.
Proof.
  unfold client_inv, Session.client_created.
  intros Hi (n & E & [(C & N)|(c & C & I)]); rewrite C, E.
  - rewrite Hi. split; intros H (c & Hc); apply H.
    + apply in_app_or in Hc; destruct Hc as [Hc|Hc];
        [exists c; assumption|destruct (N c Hc)].
    + exists c; apply in_or_app; left; assumption.
  - split; [discriminate|]. intros H; exfalso; apply H.
    exists c; apply in_or_app; right; assumption.
Qed.

Lemma client_inv_init fs : client_inv (init_world fs).
Proof. split; [intros _ (c & [])|reflexivity]. Qed.

Lemma client_inv_run fs cs : client_inv (Session.run (init_world fs) cs).
Proof.
  unfold Session.run. generalize (client_inv_init fs).
  generalize (init_world fs). induction cs as [|c cs IH]; intros w Hw; [exact Hw|].
  cbn. apply IH. eapply client_inv_tracks; [exact Hw|].
  destruct c; cbn [Session.step];
    [apply tracks_activate|apply tracks_deactivate|apply tracks_set_files].
Qed.

Lemma client_inv_marol_run fs cs : client_inv (Session.marol_run (init_world fs) cs).
Proof.
  unfold Session.marol_run. generalize (client_inv_init fs).
  generalize (init_world fs). induction cs as [|c cs IH]; intros w Hw; [exact Hw|].
  cbn. apply IH. eapply client_inv_tracks; [exact Hw|].
  destruct c; cbn [Session.marol_step];
    [apply tracks_marol_activate|apply tracks_deactivate|apply tracks_set_files].
Qed.

End ClientVariable.

(** C10: after any session of host calls starting from the freshly loaded
    module, [deactivate] returns [undefined] exactly when no [activate]
    constructed a [LanguageClient], and otherwise returns the promise of
    [client.stop()] on the stored client; likewise for the older client. *)
Theorem deactivate_undefined_iff_no_client :
  forall fs cs,
    (let w := Session.run (init_world fs) cs in
     (fst (Extension.deactivate w) = None <-> ~ Session.client_created w) /\
     (forall c, client w = Some c -> fst (Extension.deactivate w) = Some (StopPromise c))) /\
    (let w := Session.marol_run (init_world fs) cs in
     (fst (MarolExtension.deactivate w) = None <-> ~ Session.client_created w) /\
     (forall c, client w = Some c ->
        fst (MarolExtension.deactivate w) = Some (StopPromise c))).
Proof.
  intros fs cs. split; cbv zeta.
  - pose proof (client_inv_run fs cs) as Hi. unfold client_inv in Hi.
    unfold Extension.deactivate.
    destruct (client (Session.run (init_world fs) cs)) as [c|]; cbn [fst];
      split; try (intros c' Hc'; inversion Hc'; reflexivity); try discriminate.
    + rewrite <- Hi. split; discriminate.
    + rewrite <- Hi. split; reflexivity.
  - pose proof (client_inv_marol_run fs cs) as Hi. unfold client_inv in Hi.
    unfold MarolExtension.deactivate.
    destruct (client (Session.marol_run (init_world fs) cs)) as [c|]; cbn [fst];
      split; try (intros c' Hc'; inversion Hc'; reflexivity); try discriminate.
    + rewrite <- Hi. split; discriminate.
    + rewrite <- Hi. split; reflexivity.
Qed.

Lemma deactivate_undefined_iff_no_client_witness :
  let w := Session.run (init_world [("/ext/bin/amaro-lsp-linux", "644")])
             [Session.CallActivate "linux" (mkContext "/ext")] in
  fst (Extension.deactivate w)
    = Some (StopPromise (Extension.mkLanguageClient "/ext/bin/amaro-lsp-linux")).
Proof.
  intro w.
  destruct (deactivate_undefined_iff_no_client [("/ext/bin/amaro-lsp-linux", "644")]
              [Session.CallActivate "linux" (mkContext "/ext")]) as [[_ H] _].
  apply H. vm_compute. reflexivity.
Defined.

(** ** The type-compatibility relation *)

Lemma compatible_list_refl ts :
  Forall (fun t => compatible t t = true) ts ->
  (fix all2 (xs ys : list Ty) : bool :=
     match xs, ys with
     | [], [] => true
     | x :: xs', y :: ys' => compatible x y && all2 xs' ys'
     | _, _ => false
     end) ts ts = true.
Proof. induction 1 as [|x xs Hx _ IH]; [reflexivity|cbn; rewrite Hx, IH; reflexivity]. Qed.

Lemma compatible_struct_refl n fs :
  Forall (fun f => compatible (snd f) (snd f) = true) fs ->
  compatible (TStruct n fs) (TStruct n fs) = true.
Proof.
  intros Hfs. cbn. rewrite String.eqb_refl. cbn.
  apply andb_true_intro; split.
  - assert (Hgen : forall gs, incl fs gs ->
      (fix left_in (fs : list (string * Ty)) : bool :=
         match fs with
         | [] => true
         | (f, t) :: fs' =>
             existsb (fun g => String.eqb f (fst g) && compatible t (snd g)) gs
             && left_in fs'
         end) fs = true).
    { induction Hfs as [|[f t] xs Hx _ IH]; intros gs Hin; [reflexivity|].
      apply andb_true_intro; split.
      - apply existsb_exists. exists (f, t); split; [apply Hin; left; reflexivity|].
        cbn in *. rewrite String.eqb_refl, Hx. reflexivity.
      - apply IH. intros g Hg; apply Hin; right; exact Hg. }
    apply Hgen, incl_refl.
  - apply forallb_forall. intros [g tg] Hg.
    induction Hfs as [|[f t] xs Hx _ IH]; [destruct Hg|].
    destruct Hg as [Hg|Hg].
    + inversion Hg; subst. cbn in *. rewrite String.eqb_refl, Hx. reflexivity.
    + cbn. apply orb_true_iff; right. exact (IH Hg).
Qed.

(** C2: [compatible] is reflexive, [Unknown] is compatible with every type in
    both directions, and [Vec(A)] is compatible with [Vec(B)] exactly when
    [A] is compatible with [B]. *)
Theorem compatible_refl_unknown_vec :
  (forall t, compatible t t = true) /\
  (forall t, compatible TUnknown t = true /\ compatible t TUnknown = true) /\
  (forall a b, compatible (TVec a) (TVec b) = true <-> compatible a b = true).
Proof.
  split; [|split].
  - apply Ty_nested_ind; try reflexivity.
    + intros t IH; exact IH.
    + intros t IH; exact IH.
    + intros ts Hts. apply (compatible_list_refl ts Hts).
    + intros ps r Hps Hr. cbn. rewrite (compatible_list_refl ps Hps), Hr. reflexivity.
    + intros n fs Hfs. apply compatible_struct_refl, Hfs.
  - intros t; split; [reflexivity|destruct t; reflexivity].
  - intros a b; reflexivity.
Qed.

(** ** The parser *)

Lemma split_at_nonempty p ts : Parser.split_at p ts <> [].
Proof.
  induction ts as [|t ts IH]; cbn; [discriminate|].
  destruct (p t); [discriminate|]. destruct (Parser.split_at p ts); discriminate.
Qed.

Lemma split_at_app p ts1 t ts2 :
  p t = true ->
  Parser.split_at p (ts1 ++ t :: ts2) = (Parser.split_at p ts1 ++ Parser.split_at p ts2)%list.
Proof.
  intros Ht. induction ts1 as [|x ts1 IH]; cbn.
  - rewrite Ht. reflexivity.
  - rewrite IH. destruct (p x); [reflexivity|].
    destruct (Parser.split_at p ts1) as [|seg segs] eqn:E;
      [exfalso; exact (split_at_nonempty p ts1 E)|].
    reflexivity.
Qed.

Lemma parse_items_app {A} (p : list Token -> option (A * list Diagnostic)) segs1 segs2 :
  Parser.parse_items p (segs1 ++ segs2) =
  ((fst (Parser.parse_items p segs1) ++ fst (Parser.parse_items p segs2))%list,
   (snd (Parser.parse_items p segs1) ++ snd (Parser.parse_items p segs2))%list).
Proof.
  unfold Parser.parse_items. induction segs1 as [|s segs1 IH]; cbn.
  - destruct (fold_right _ _ segs2); reflexivity.
  - rewrite IH. destruct (p s) as [[a ds]|]; cbn; [rewrite app_assoc|]; reflexivity.
Qed.

Lemma parse_top_item_none seg :
  Parser.parse_top_item seg = None <-> Parser.drop_newlines seg = [].
Proof.
  unfold Parser.parse_top_item.
  destruct (Parser.drop_newlines seg) as [|[k r] ts]; [split; reflexivity|].
  split; [|discriminate].
  destruct k; try (destruct ts as [|t ts]); try discriminate;
    try (destruct (Parser.is_delim ":" t)); try discriminate;
    destruct (Parser.parse_block _ _ _); discriminate.
Qed.

Lemma parse_items_top_length segs :
  length (fst (Parser.parse_items Parser.parse_top_item segs)) =
  length (filter (fun seg => match Parser.drop_newlines seg with [] => false | _ => true end)
            segs).
Proof.
  unfold Parser.parse_items. induction segs as [|s segs IH]; cbn; [reflexivity|].
  destruct (Parser.parse_top_item s) as [[it ds]|] eqn:E.
  - assert (Hn : Parser.drop_newlines s <> []).
    { intros Hd. apply parse_top_item_none in Hd. congruence. }
    destruct (Parser.drop_newlines s); [congruence|]. cbn. rewrite IH. reflexivity.
  - apply parse_top_item_none in E. rewrite E. exact IH.
Qed.

Lemma binary_level_err lvl next ts d :
  next ts = Parser.PErr d -> Parser.binary_level lvl next ts = Parser.PErr d.
Proof. intros H. unfold Parser.binary_level, Parser.pbind. rewrite H. reflexivity. Qed.

Lemma range_level_err next ts d :
  next ts = Parser.PErr d -> Parser.range_level next ts = Parser.PErr d.
Proof. intros H. unfold Parser.range_level, Parser.pbind. rewrite H. reflexivity. Qed.

Lemma parse_expr_err_of_unary b ts d :
  Parser.parse_unary b ts = Parser.PErr d -> Parser.parse_expr (S b) ts = Parser.PErr d.
Proof.
  intros H. cbn [Parser.parse_expr].
  repeat first [apply binary_level_err | apply range_level_err]. exact H.
Qed.

Lemma parse_unary_paren b r rest d :
  Parser.parse_expr b rest = Parser.PErr d ->
  Parser.parse_unary (S b) (mkTok (TkDelim "(") r :: rest) = Parser.PErr d.
Proof. intros H. cbn [Parser.parse_unary]. simpl. rewrite H. reflexivity. Qed.

Lemma parse_unary_parens :
  forall n b k r ts, b <= n -> b <= 2 * k ->
  exists d, Parser.parse_unary b (repeat (mkTok (TkDelim "(") r) k ++ ts) = Parser.PErr d
            /\ code d = DepthLimitExceeded.
Proof.
  induction n as [|n IH]; intros b k r ts Hb Hk.
  - assert (b = 0) by lia. subst b. eexists. split; reflexivity.
  - destruct b as [|b]; [eexists; split; reflexivity|].
    destruct k as [|k]; [lia|]. cbn [repeat app].
    destruct b as [|b].
    + eexists. split; [apply parse_unary_paren; reflexivity|reflexivity].
    + destruct (IH b k r ts) as (d & Hd & Hc); [lia|lia|].
      exists d. split; [|exact Hc].
      apply parse_unary_paren, parse_expr_err_of_unary, Hd.
Qed.

(** *** The lexer cuts the text at a newline *)

Lemma span_app p cs l a b :
  span p cs = (a, b) -> (forall x l', l = x :: l' -> p x = false) ->
  span p (cs ++ l) = (a, b ++ l)%list.
Proof.
  revert a b; induction cs as [|c cs IH]; cbn; intros a b H Hl.
  - inversion H; subst. destruct l as [|x l']; [reflexivity|].
    cbn; rewrite (Hl x l' eq_refl). reflexivity.
  - destruct (p c).
    + pose proof (IH _ _ (surjective_pairing _) Hl) as IH'.
      destruct (span p cs) as [a' b'] eqn:E. inversion H; subst.
      rewrite IH'. reflexivity.
    + inversion H; subst. reflexivity.
Qed.

Lemma span_split p cs a b : span p cs = (a, b) -> cs = (a ++ b)%list.
Proof.
  revert a b; induction cs as [|c cs IH]; cbn; intros a b H.
  - inversion H; reflexivity.
  - destruct (p c).
    + pose proof (IH _ _ (surjective_pairing _)) as IH'.
      destruct (span p cs) as [a' b'] eqn:E. inversion H; subst.
      cbn; f_equal; exact IH'.
    + inversion H; reflexivity.
Qed.

Lemma skip_layout_len i k cs i' k' r :
  skip_layout i k cs = (i', k', r) -> k + length cs = k' + length r.
Proof.
  revert i k; induction cs as [|c cs IH]; cbn; intros i k H.
  - inversion H; subst; reflexivity.
  - destruct (is_newline c); [apply IH in H; lia|].
    destruct (is_blank c); [apply IH in H; lia|].
    inversion H; subst; reflexivity.
Qed.

Lemma skip_layout_shift i k cs x y z a :
  skip_layout i k cs = (x, y, z) -> skip_layout i (a + k) cs = (x, a + y, z).
Proof.
  revert i k; induction cs as [|c cs IH]; cbn; intros i k H.
  - inversion H; subst; reflexivity.
  - destruct (is_newline c); [replace (S (a + k)) with (a + S k) by lia; auto|].
    destruct (is_blank c); [replace (S (a + k)) with (a + S k) by lia; auto|].
    inversion H; subst; reflexivity.
Qed.

Lemma skip_layout_app i k cs i' k' r l :
  skip_layout i k cs = (i', k', r) -> r <> [] ->
  skip_layout i k (cs ++ l) = (i', k', r ++ l)%list.
Proof.
  revert i k; induction cs as [|c cs IH]; cbn; intros i k H Hr.
  - inversion H; subst; congruence.
  - destruct (is_newline c); [auto|].
    destruct (is_blank c); [auto|].
    inversion H; subst; reflexivity.
Qed.

Lemma skip_layout_app_nil i k cs i' k' l :
  skip_layout i k cs = (i', k', []) ->
  i' = 0 /\ exists j, skip_layout i k (cs ++ l) = skip_layout j k' l.
Proof.
  revert i k; induction cs as [|c cs IH]; cbn; intros i k H.
  - inversion H; subst. split; [reflexivity|]. exists i; reflexivity.
  - destruct (is_newline c); [auto|].
    destruct (is_blank c); [auto|].
    inversion H.
Qed.

Lemma scan_foreign_app d cs raw r l :
  scan_foreign d cs = (raw, true, r) -> scan_foreign d (cs ++ l) = (raw, true, r ++ l)%list.
Proof.
  revert d raw r; induction cs as [|c cs IH]; cbn; intros d raw r H.
  - inversion H.
  - destruct (c =? "{")%char.
    + destruct (scan_foreign (S d) cs) as [[raw' ok'] r'] eqn:E.
      inversion H; subst. rewrite (IH _ _ _ E). reflexivity.
    + destruct (c =? "}")%char.
      * destruct d as [|[|d]].
        -- inversion H; subst; reflexivity.
        -- inversion H; subst; reflexivity.
        -- destruct (scan_foreign (S d) cs) as [[raw' ok'] r'] eqn:E.
           inversion H; subst. rewrite (IH _ _ _ E). reflexivity.
      * destruct (scan_foreign d cs) as [[raw' ok'] r'] eqn:E.
        inversion H; subst. rewrite (IH _ _ _ E). reflexivity.
Qed.

Lemma scan_foreign_split d cs raw ok r :
  scan_foreign d cs = (raw, ok, r) -> cs = (raw ++ r)%list.
Proof.
  revert d raw ok r; induction cs as [|c cs IH]; cbn; intros d raw ok r H.
  - inversion H; reflexivity.
  - destruct (c =? "{")%char.
    + destruct (scan_foreign (S d) cs) as [[raw' ok'] r'] eqn:E.
      inversion H; subst. cbn; f_equal; eapply IH; exact E.
    + destruct (c =? "}")%char.
      * destruct d as [|[|d]].
        -- inversion H; subst; reflexivity.
        -- inversion H; subst; reflexivity.
        -- destruct (scan_foreign (S d) cs) as [[raw' ok'] r'] eqn:E.
           inversion H; subst. cbn; f_equal; eapply IH; exact E.
      * destruct (scan_foreign d cs) as [[raw' ok'] r'] eqn:E.
        inversion H; subst. cbn; f_equal; eapply IH; exact E.
Qed.

Lemma length_string_of_list l : String.length (string_of_list_ascii l) = length l.
Proof. induction l; cbn; auto. Qed.

Ltac split_if H := match type of H with context [if ?b then _ else _] => destruct b eqn:? end.

Lemma starts_slash_app (cs' cs2 : list ascii) :
  match (cs' ++ "010"%char :: cs2)%list with "/"%char :: _ => true | _ => false end =
  match cs' with "/"%char :: _ => true | _ => false end.
Proof. destruct cs'; reflexivity. Qed.

Lemma starts_brace_app (cs' cs2 : list ascii) :
  match (cs' ++ "010"%char :: cs2)%list with "{"%char :: _ => true | _ => false end =
  match cs' with "{"%char :: _ => true | _ => false end.
Proof. destruct cs'; reflexivity. Qed.

Lemma two_char_app (c : ascii) (cs' cs2 : list ascii) :
  existsb (String.eqb match (cs' ++ "010"%char :: cs2)%list with
                      | d :: _ => string_of_list_ascii [c; d] | [] => EmptyString end) two_char_ops =
  existsb (String.eqb match cs' with
                      | d :: _ => string_of_list_ascii [c; d] | [] => EmptyString end) two_char_ops.
Proof.
  destruct cs' as [|d cs']; [|reflexivity]. cbn.
  repeat match goal with |- context [if ?b then _ else _] => destruct b end; reflexivity.
Qed.

(** One lexer step is unchanged by a newline appended to its input,
    except for a trailing blank-line layout, which now extends to the
    next non-blank line. *)
Lemma next_token_app pos ad cs ot n r cs2 :
  next_token pos ad cs = Some (ot, n, r) ->
  (forall t, ot = Some t -> foreign_ok t = true) ->
  next_token pos ad (cs ++ "010"%char :: cs2) = Some (ot, n, r ++ "010"%char :: cs2)%list \/
  (r = [] /\ ot = Some (tok (TkNewline 0) pos 1) /\
   let '(k, m, rest2) := skip_layout 0 0 cs2 in
   next_token pos ad (cs ++ "010"%char :: cs2) = Some (Some (tok (TkNewline k) pos 1), n + 1 + m, rest2)).
Proof.
  destruct cs as [|c cs']; [discriminate|]. intros H Hf. rewrite <- app_comm_cons.
  unfold next_token in H |- *. cbv beta iota zeta in H |- *.
  assert (Hsp : forall p, p "010"%char = false ->
                forall x l', ("010"%char :: cs2)%list = x :: l' -> p x = false)
    by (intros p Hp x l' Hx; injection Hx as <- _; exact Hp).
  destruct (is_newline c) eqn:Enl.
  { destruct (skip_layout 0 0 cs') as [[ind sk] rest] eqn:E. injection H as <- <- <-.
    destruct rest as [|x rest'].
    - right. destruct (skip_layout_app_nil _ _ _ _ _ ("010"%char :: cs2) E) as [-> [j Hj]].
      split; [reflexivity|]. split; [reflexivity|].
      destruct (skip_layout 0 0 cs2) as [[k m] rest2] eqn:E2. rewrite Hj. cbn [skip_layout].
      replace (is_newline "010") with true by reflexivity.
      apply (skip_layout_shift _ _ _ _ _ _ (S sk)) in E2. rewrite Nat.add_0_r in E2.
      rewrite E2. f_equal. f_equal. f_equal. lia.
    - left. rewrite (skip_layout_app _ _ _ _ _ _ _ E) by discriminate. reflexivity. }
  left.
  destruct (is_blank c) eqn:Eb. { injection H as <- <- <-. reflexivity. }
  rewrite starts_slash_app. split_if H.
  { destruct (span _ cs') as [com rest] eqn:E.
    rewrite (span_app _ _ _ _ _ E) by (apply Hsp; reflexivity).
    injection H as <- <- <-. reflexivity. }
  rewrite starts_brace_app. split_if H.
  { destruct (scan_foreign 2 (tl cs')) as [[raw ok] rest] eqn:E. injection H as <- <- <-.
    specialize (Hf _ eq_refl). cbn in Hf. subst ok.
    destruct cs' as [|d cs'']; [cbn in *; rewrite andb_false_r in *; discriminate|].
    cbn [tl app] in E |- *. rewrite (scan_foreign_app _ _ _ _ _ E). reflexivity. }
  split_if H.
  { destruct (span is_digit cs') as [ds rest] eqn:E.
    rewrite (span_app _ _ _ _ _ E) by (apply Hsp; reflexivity).
    assert (Hd : is_digit "010" = false) by reflexivity.
    destruct rest as [|x [|d rest']]; cbn [app] in H |- *.
    - injection H as <- <- <-. reflexivity.
    - destruct x as [[] [] [] [] [] [] [] []]; cbv beta iota in H |- *;
        try (rewrite Hd, andb_false_r);
        injection H as <- <- <-; reflexivity.
    - destruct x as [[] [] [] [] [] [] [] []]; cbv beta iota in H |- *;
        try (injection H as <- <- <-; reflexivity).
      destruct (negb ad && is_digit d); [|injection H as <- <- <-; reflexivity].
      destruct (span is_digit (d :: rest')) as [fs rest''] eqn:E2.
      rewrite app_comm_cons, (span_app _ _ _ _ _ E2) by (apply Hsp; reflexivity).
      injection H as <- <- <-. reflexivity. }
  split_if H.
  { destruct (span is_ident_char cs') as [xs rest] eqn:E.
    rewrite (span_app _ _ _ _ _ E) by (apply Hsp; reflexivity).
    injection H as <- <- <-. reflexivity. }
  split_if H.
  { destruct (span _ cs') as [body rest] eqn:E.
    rewrite (span_app _ _ _ _ _ E) by (apply Hsp; reflexivity).
    destruct rest as [|q rest']; cbn [app] in H |- *.
    - injection H as <- <- <-. reflexivity.
    - destruct (q =? "034")%char; injection H as <- <- <-; reflexivity. }
  rewrite two_char_app. split_if H.
  { destruct cs' as [|d cs'']; [cbn in *; discriminate|].
    injection H as <- <- <-. reflexivity. }
  split_if H; [injection H as <- <- <-; reflexivity|].
  split_if H; injection H as <- <- <-; reflexivity.
Qed.

Lemma next_token_none pos ad cs : next_token pos ad cs = None -> cs = [].
Proof.
  destruct cs as [|c cs]; [reflexivity|]. unfold next_token. cbv beta iota zeta.
  intros H. exfalso.
  repeat (discriminate H || (split_if H; cbv beta iota in H) ||
          match type of H with
          | context [match ?e with (_, _) => _ end] => destruct e; cbv beta iota in H
          | context [match ?e with [] => _ | _ :: _ => _ end] => destruct e; cbv beta iota in H
          | context [match ?e with Ascii _ _ _ _ _ _ _ _ => _ end] =>
              destruct e as [[] [] [] [] [] [] [] []]; cbv beta iota in H
          end).
Qed.

Lemma next_token_len pos ad cs ot n r :
  next_token pos ad cs = Some (ot, n, r) -> length cs = n + length r /\ 1 <= n.
Proof.
  destruct cs as [|c cs']; [discriminate|]. intros H.
  unfold next_token in H. cbv beta iota zeta in H.
  destruct (is_newline c).
  { destruct (skip_layout 0 0 cs') as [[ind sk] rest] eqn:E. injection H as <- <- <-.
    apply skip_layout_len in E. cbn. lia. }
  destruct (is_blank c). { injection H as <- <- <-. cbn. lia. }
  split_if H.
  { destruct (span _ cs') as [com rest] eqn:E. injection H as <- <- <-.
    apply span_split in E; subst; cbn; rewrite length_app; lia. }
  split_if H.
  { destruct (scan_foreign 2 (tl cs')) as [[raw ok] rest] eqn:E. injection H as <- <- <-.
    apply scan_foreign_split in E.
    destruct cs' as [|d cs'']; [cbn in *; rewrite andb_false_r in *; discriminate|].
    cbn in E |- *; subst; rewrite length_app; lia. }
  split_if H.
  { destruct (span is_digit cs') as [ds rest] eqn:E. apply span_split in E; subst.
    destruct rest as [|x [|d rest']].
    - injection H as <- <- <-. cbn; rewrite length_app; cbn; lia.
    - destruct x as [[] [] [] [] [] [] [] []]; cbv beta iota in H;
        injection H as <- <- <-; cbn; rewrite length_app; cbn; lia.
    - destruct x as [[] [] [] [] [] [] [] []]; cbv beta iota in H;
        try (injection H as <- <- <-; cbn; rewrite length_app; cbn; lia).
      destruct (negb ad && is_digit d);
        [|injection H as <- <- <-; cbn; rewrite length_app; cbn; lia].
      destruct (span is_digit (d :: rest')) as [fs rest''] eqn:E2. injection H as <- <- <-.
      apply span_split in E2. apply (f_equal (@length ascii)) in E2.
      rewrite length_app in E2. cbn in E2. rewrite length_string_of_list. cbn.
      rewrite !length_app. cbn. lia. }
  split_if H.
  { destruct (span is_ident_char cs') as [xs rest] eqn:E. injection H as <- <- <-.
    apply span_split in E; subst; cbn; rewrite length_app; lia. }
  split_if H.
  { destruct (span _ cs') as [body rest] eqn:E. apply span_split in E; subst.
    destruct rest as [|q rest'].
    - injection H as <- <- <-. cbn; rewrite length_app; cbn; lia.
    - destruct (q =? "034")%char; injection H as <- <- <-; cbn; rewrite length_app; cbn; lia. }
  split_if H.
  { destruct cs' as [|d cs'']; [cbn in *; discriminate|].
    injection H as <- <- <-. cbn. lia. }
  split_if H; [injection H as <- <- <-; cbn; lia|].
  split_if H; injection H as <- <- <-; cbn; lia.
Qed.

Lemma lex_fuel f1 : forall f2 pos ad cs,
  length cs < f1 -> length cs < f2 -> lex f1 pos ad cs = lex f2 pos ad cs.
Proof.
  induction f1 as [|f1 IH]; intros f2 pos ad cs H1 H2; [lia|].
  destruct f2 as [|f2]; [lia|]. cbn [lex].
  destruct (next_token pos ad cs) as [[[ot n] rest]|] eqn:E; [|reflexivity].
  apply next_token_len in E. rewrite (IH f2) by lia. reflexivity.
Qed.

Lemma lex_step f pos ad cs :
  lex (S f) pos ad cs =
  match next_token pos ad cs with
  | None => []
  | Some (ot, n, rest) =>
      match ot with
      | Some t => t :: lex f (pos + n) (is_dot_token ot) rest
      | None => lex f (pos + n) (is_dot_token ot) rest
      end
  end.
Proof. reflexivity. Qed.

(** Lexing [cs1 ++ newline :: cs2] gives the tokens of [cs1] (but for a
    final layout newline), the newline token, then the tokens of the rest
    of [cs2] lexed on their own. *)
Lemma lex_app_newline :
  forall N cs1 pos ad cs2 k m rest2,
  length cs1 < N ->
  forallb foreign_ok (lex (S (length cs1)) pos ad cs1) = true ->
  skip_layout 0 0 cs2 = (k, m, rest2) ->
  exists ts1 r,
    lex (S (length (cs1 ++ "010"%char :: cs2))) pos ad (cs1 ++ "010"%char :: cs2) =
      (ts1 ++ mkTok (TkNewline k) r :: lex_from (pos + length cs1 + 1 + m) rest2)%list /\
    (lex (S (length cs1)) pos ad cs1 = ts1 \/
     exists t, lex (S (length cs1)) pos ad cs1 = (ts1 ++ [t])%list /\ kind t = TkNewline 0).
Proof.
  induction N as [|N IH]; intros cs1 pos ad cs2 k m rest2 HN Hf Hsk; [lia|].
  pose proof (skip_layout_len _ _ _ _ _ _ Hsk) as Hlen. cbn in Hlen.
  destruct cs1 as [|c cs1'].
  - exists [], (pos, pos + 1). split; [|left; reflexivity].
    cbn [app]. rewrite lex_step.
    assert (Hn : next_token pos ad ("010"%char :: cs2) =
                 Some (Some (tok (TkNewline k) pos 1), 1 + m, rest2)).
    { unfold next_token. change (is_newline "010") with true. cbv beta iota zeta.
      rewrite Hsk. reflexivity. }
    rewrite Hn. cbn [app is_dot_token tok kind]. unfold lex_from. rewrite Nat.add_0_r.
    replace (pos + (1 + m)) with (pos + 1 + m) by lia.
    f_equal. apply lex_fuel; cbn [length]; lia.
  - remember (c :: cs1') as cs1 eqn:Hcs1.
    destruct (next_token pos ad cs1) as [[[ot n] r1]|] eqn:E;
      [|apply next_token_none in E; congruence].
    pose proof (next_token_len _ _ _ _ _ _ E) as [Hl1 Hn1].
    assert (Hf' : (forall t, ot = Some t -> foreign_ok t = true) /\
                  forallb foreign_ok (lex (S (length r1)) (pos + n) (is_dot_token ot) r1) = true).
    { rewrite lex_step, E in Hf.
      rewrite (lex_fuel (length cs1) (S (length r1))) in Hf by lia.
      destruct ot as [t|]; cbn in Hf.
      - apply andb_true_iff in Hf as [Ht Hr]. split; [intros t' Ht'; injection Ht' as <-; exact Ht|exact Hr].
      - split; [discriminate|exact Hf]. }
    destruct Hf' as [Hot Hrest].
    assert (Halone : lex (S (length cs1)) pos ad cs1 =
                     match ot with Some t => t :: lex (S (length r1)) (pos + n) (is_dot_token ot) r1
                                 | None => lex (S (length r1)) (pos + n) (is_dot_token ot) r1 end).
    { rewrite lex_step, E. rewrite (lex_fuel (length cs1) (S (length r1))) by lia.
      reflexivity. }
    destruct (next_token_app _ _ _ _ _ _ cs2 E Hot) as [HA | (-> & -> & HB)].
    + destruct (IH r1 (pos + n) (is_dot_token ot) cs2 k m rest2) as (ts1 & r & Hctx & Hal);
        [lia|exact Hrest|exact Hsk|].
      exists (match ot with Some t => t :: ts1 | None => ts1 end), r. split.
      * rewrite lex_step, HA.
        rewrite (lex_fuel (length (cs1 ++ "010"%char :: cs2)) (S (length (r1 ++ "010"%char :: cs2))))
          by (rewrite !length_app; cbn; lia).
        rewrite Hctx. replace (pos + n + length r1) with (pos + length cs1) by lia.
        destruct ot; reflexivity.
      * rewrite Halone. destruct Hal as [Hal | (t & Hal & Ht)].
        -- left. rewrite Hal. reflexivity.
        -- right. exists t. rewrite Hal. split; [|exact Ht]. destruct ot; reflexivity.
    + rewrite Hsk in HB.
      exists [], (pos, pos + 1). split.
      * rewrite lex_step, HB. cbn [app is_dot_token tok]. unfold lex_from.
        replace (pos + length cs1 + 1 + m) with (pos + (n + 1 + m)) by (cbn in Hl1; lia).
        f_equal. apply lex_fuel; rewrite ?length_app; cbn; lia.
      * right. exists (tok (TkNewline 0) pos 1). split; [|reflexivity].
        rewrite Halone. cbn. reflexivity.
Qed.

Lemma list_ascii_of_string_app s1 s2 :
  list_ascii_of_string (s1 ++ s2) = (list_ascii_of_string s1 ++ list_ascii_of_string s2)%list.
Proof. induction s1 as [|c s1 IH]; cbn; [reflexivity|]. rewrite IH. reflexivity. Qed.

Lemma length_list_ascii_of_string s : length (list_ascii_of_string s) = String.length s.
Proof. induction s as [|c s IH]; cbn; auto. Qed.

Lemma tokenize_newline s1 s2 :
  foreign_closed s1 = true ->
  let '(k, m, rest) := skip_layout 0 0 (list_ascii_of_string s2) in
  exists ts1 r,
    tokenize (s1 ++ String "010" s2) =
      (ts1 ++ mkTok (TkNewline k) r :: lex_from (String.length s1 + 1 + m) rest)%list /\
    (tokenize s1 = ts1 \/
     exists t, tokenize s1 = (ts1 ++ [t])%list /\ kind t = TkNewline 0).
Proof.
  intros Hf. destruct (skip_layout 0 0 (list_ascii_of_string s2)) as [[k m] rest] eqn:Hsk.
  unfold tokenize. rewrite list_ascii_of_string_app. cbn [list_ascii_of_string].
  rewrite <- length_list_ascii_of_string.
  apply (lex_app_newline (S (length (list_ascii_of_string s1)))); [lia|exact Hf|exact Hsk].
Qed.

Lemma parse_tokens_split ts1 t ts2 :
  Parser.newline_at_most 0 t = true ->
  f_items (fst (Parser.parse_tokens (ts1 ++ t :: ts2))) =
    (f_items (fst (Parser.parse_tokens ts1)) ++ f_items (fst (Parser.parse_tokens ts2)))%list /\
  snd (Parser.parse_tokens (ts1 ++ t :: ts2)) =
    (snd (Parser.parse_tokens ts1) ++ snd (Parser.parse_tokens ts2))%list.
Proof.
  intros Ht. unfold Parser.parse_tokens.
  rewrite (split_at_app _ ts1 t ts2 Ht), parse_items_app.
  destruct (Parser.parse_items _ (Parser.split_at _ ts1));
    destruct (Parser.parse_items _ (Parser.split_at _ ts2)). split; reflexivity.
Qed.

Lemma parse_raw_resync s1 c s2 :
  foreign_closed s1 = true -> is_blank c = false -> is_newline c = false ->
  let rest := lex_from (String.length s1 + 1) (list_ascii_of_string (String c s2)) in
  f_items (fst (Parser.parse_raw (s1 ++ String "010" (String c s2)))) =
    (f_items (fst (Parser.parse_raw s1)) ++ f_items (fst (Parser.parse_tokens rest)))%list /\
  snd (Parser.parse_raw (s1 ++ String "010" (String c s2))) =
    (snd (Parser.parse_raw s1) ++ snd (Parser.parse_tokens rest))%list.
Proof.
  intros Hf Hb Hn rest.
  pose proof (tokenize_newline s1 (String c s2) Hf) as H.
  assert (Hsk : skip_layout 0 0 (list_ascii_of_string (String c s2)) =
                (0, 0, list_ascii_of_string (String c s2)))
    by (cbn; rewrite Hn, Hb; reflexivity).
  rewrite Hsk in H. destruct H as (ts1 & r & Htok & Hs1).
  rewrite Nat.add_0_r in Htok. fold rest in Htok.
  unfold Parser.parse_raw. rewrite Htok.
  destruct (parse_tokens_split ts1 (mkTok (TkNewline 0) r) rest eq_refl) as [H1 H2].
  rewrite H1, H2.
  destruct Hs1 as [-> | (t & -> & Ht)]; [split; reflexivity|].
  destruct t as [kt rt]; cbn in Ht; subst kt.
  destruct (parse_tokens_split ts1 (mkTok (TkNewline 0) rt) [] eq_refl) as [H3 H4].
  rewrite H3, H4. cbn. rewrite !app_nil_r. split; reflexivity.
Qed.

Lemma parse_block_split x hdr body1 t body2 :
  let body := (body1 ++ t :: body2)%list in
  let base := match find Parser.is_newline_tok body with
              | Some (mkTok (TkNewline k) _) => k | _ => 0 end in
  Parser.newline_at_most base t = true ->
  b_items (fst (Parser.parse_block x hdr body)) =
    (fst (Parser.parse_items Parser.parse_block_item
            (Parser.split_at (Parser.newline_at_most base) body1)) ++
     fst (Parser.parse_items Parser.parse_block_item
            (Parser.split_at (Parser.newline_at_most base) body2)))%list /\
  snd (Parser.parse_block x hdr body) =
    (snd (Parser.parse_items Parser.parse_block_item
            (Parser.split_at (Parser.newline_at_most base) body1)) ++
     snd (Parser.parse_items Parser.parse_block_item
            (Parser.split_at (Parser.newline_at_most base) body2)))%list.
Proof.
  intros body base Ht. unfold Parser.parse_block. fold base.
  assert (Hs := split_at_app _ body1 t body2 Ht). fold body in Hs.
  rewrite Hs, parse_items_app.
  destruct (Parser.parse_items _ (Parser.split_at _ body1));
    destruct (Parser.parse_items _ (Parser.split_at _ body2)). split; reflexivity.
Qed.

(** *** Depth bounds only add [DepthLimitExceeded] stops *)

Lemma refines_refl {A} (r : Parser.PRes A) : refines r r.
Proof. destruct r; cbn; auto. Qed.

Lemma refines_bind {A B} (r r' : Parser.PRes A) (k k' : A -> nat -> list Token -> Parser.PRes B) :
  refines r r' -> (forall a l ts, refines (k a l ts) (k' a l ts)) ->
  refines (Parser.pbind r k) (Parser.pbind r' k').
Proof.
  intros H Hk. destruct r as [a l ts|d]; cbn in H |- *.
  - subst r'. apply Hk.
  - destruct H as [H|H]; [left; exact H|subst r'; right; reflexivity].
Qed.

Lemma refines_depth {A} ts (r' : Parser.PRes A) : refines (Parser.depth_error ts) r'.
Proof. left; reflexivity. Qed.

Lemma comma_list_refines {A} fuel (item item' : list Token -> Parser.PRes A) close nm :
  (forall ts, refines (item ts) (item' ts)) ->
  forall ts, refines (Parser.comma_list fuel item close nm ts) (Parser.comma_list fuel item' close nm ts).
Proof.
  intros Hs. induction fuel as [|fuel IH]; intros ts; cbn [Parser.comma_list];
    [apply refines_refl|].
  apply refines_bind; [apply Hs|intros ? ? ts1].
  destruct ts1 as [|t ts2]; [apply refines_refl|].
  destruct (Parser.is_delim "," t); [|apply refines_refl].
  apply refines_bind; [apply IH|intros; apply refines_refl].
Qed.

Lemma delimited_refines {A} (item item' : list Token -> Parser.PRes A) close nm :
  (forall ts, refines (item ts) (item' ts)) ->
  forall ts, refines (Parser.delimited item close nm ts) (Parser.delimited item' close nm ts).
Proof.
  intros Hs ts. unfold Parser.delimited. destruct ts as [|t ts']; [apply refines_refl|].
  destruct (close t); [apply refines_refl|]. apply comma_list_refines, Hs.
Qed.

Lemma field_init_refines sub sub' :
  (forall ts, refines (sub ts) (sub' ts)) ->
  forall ts, refines (Parser.field_init sub ts) (Parser.field_init sub' ts).
Proof.
  intros Hs ts. unfold Parser.field_init.
  destruct ts as [|[k r] [|t ts']]; try apply refines_refl.
  destruct k; try apply refines_refl.
  destruct (Parser.is_op "=" t); [|apply refines_refl].
  apply refines_bind; [apply Hs|intros; apply refines_refl].
Qed.

Ltac refines_tac Hs :=
  repeat first
    [ apply refines_refl
    | apply refines_depth
    | apply Hs
    | match goal with H : _ |- refines _ _ => apply H end
    | apply refines_bind; [|intros ? ? ?]
    | apply delimited_refines; intros ?
    | apply field_init_refines; intros ?
    | match goal with |- refines (if ?b then _ else _) _ => destruct b; cbv beta iota end
    | match goal with |- refines (match ?x with _ => _ end) _ => destruct x; cbv beta iota end ].

Lemma primary_refines sub sub' :
  (forall ts, refines (sub ts) (sub' ts)) ->
  forall ts, refines (Parser.primary sub ts) (Parser.primary sub' ts).
Proof.
  intros Hs ts. unfold Parser.primary.
  destruct ts as [|[k r] ts']; [apply refines_refl|].
  destruct k; cbv beta iota; refines_tac Hs.
Qed.

Lemma postfix_refines sub sub' :
  (forall ts, refines (sub ts) (sub' ts)) ->
  forall fuel e l ts, refines (Parser.postfix fuel sub e l ts) (Parser.postfix fuel sub' e l ts).
Proof.
  intros Hs fuel. induction fuel as [|fuel IH]; intros e l ts; cbn [Parser.postfix];
    [apply refines_refl|]. cbv zeta.
  destruct ts as [|t ts']; [apply refines_refl|].
  destruct (Parser.is_delim "." t).
  - destruct ts' as [|[k r] ts2]; [apply refines_refl|].
    destruct k; cbv beta iota; try apply IH.
    all: destruct (Parser.is_delim "(" _); [|apply refines_refl].
    all: apply refines_bind; [apply Hs|intros ? ? ?].
    all: apply refines_bind; [apply refines_refl|intros ? ? ?]; apply IH.
  - destruct (Parser.is_delim "[" t).
    + apply refines_bind; [apply Hs|intros ? ? ?].
      apply refines_bind; [apply refines_refl|intros ? ? ?]; apply IH.
    + destruct (Parser.is_delim "(" t); [|apply refines_refl].
      apply refines_bind; [apply delimited_refines, Hs|intros ? ? ?]; apply IH.
Qed.

Lemma binary_loop_refines next next' :
  (forall ts, refines (next ts) (next' ts)) ->
  forall fuel lvl lhs l ts,
  refines (Parser.binary_loop fuel lvl next lhs l ts) (Parser.binary_loop fuel lvl next' lhs l ts).
Proof.
  intros Hn fuel. induction fuel as [|fuel IH]; intros lvl lhs l ts; cbn [Parser.binary_loop];
    [apply refines_refl|].
  destruct ts as [|t ts']; [apply refines_refl|].
  destruct (Parser.binop_of lvl t); [|apply refines_refl].
  apply refines_bind; [apply Hn|intros ? ? ?]. apply IH.
Qed.

Lemma binary_level_refines lvl next next' :
  (forall ts, refines (next ts) (next' ts)) ->
  forall ts, refines (Parser.binary_level lvl next ts) (Parser.binary_level lvl next' ts).
Proof.
  intros Hn ts. unfold Parser.binary_level.
  apply refines_bind; [apply Hn|intros ? ? ?]. apply binary_loop_refines, Hn.
Qed.

Lemma range_level_refines next next' :
  (forall ts, refines (next ts) (next' ts)) ->
  forall ts, refines (Parser.range_level next ts) (Parser.range_level next' ts).
Proof.
  intros Hn ts. unfold Parser.range_level.
  apply refines_bind; [apply Hn|intros ? ? ts1].
  destruct ts1 as [|t ts2]; [apply refines_refl|].
  destruct (Parser.is_op ".." t); [|apply refines_refl].
  apply refines_bind; [apply Hn|intros; apply refines_refl].
Qed.

Lemma parse_expr_refines b :
  forall b', b <= b' -> forall ts,
  refines (Parser.parse_expr b ts) (Parser.parse_expr b' ts) /\
  refines (Parser.parse_unary b ts) (Parser.parse_unary b' ts).
Proof.
  induction b as [|b IH]; intros b' Hb ts.
  - split; apply refines_depth.
  - destruct b' as [|b']; [lia|].
    assert (HE : forall ts, refines (Parser.parse_expr b ts) (Parser.parse_expr b' ts))
      by (intros; apply IH; lia).
    assert (HU : forall ts, refines (Parser.parse_unary b ts) (Parser.parse_unary b' ts))
      by (intros; apply IH; lia).
    split.
    + cbn [Parser.parse_expr].
      repeat first [apply binary_level_refines; intros ? | apply range_level_refines; intros ?].
      apply HU.
    + cbn [Parser.parse_unary]. destruct ts as [|t ts']; [apply refines_depth|].
      destruct (Parser.is_op "-" t); [apply refines_bind; [apply HU|intros; apply refines_refl]|].
      destruct (Parser.is_op "!" t); [apply refines_bind; [apply HU|intros; apply refines_refl]|].
      apply refines_bind; [apply primary_refines, HE|intros ? ? ?].
      apply postfix_refines, HE.
Qed.

Lemma parse_expr_depth_only b b' ts :
  b <= b' -> Parser.parse_expr b ts <> Parser.parse_expr b' ts ->
  exists d, Parser.parse_expr b ts = Parser.PErr d /\ code d = DepthLimitExceeded.
Proof.
  intros Hb Hne. destruct (parse_expr_refines b b' Hb ts) as [H _].
  destruct (Parser.parse_expr b ts) as [a l ts'|d]; cbn in H.
  - exfalso. apply Hne. symmetry. exact H.
  - destruct H as [H|H]; [exists d; split; [reflexivity|exact H]|].
    exfalso. apply Hne. symmetry. exact H.
Qed.




(** ** Node ids *)

Lemma stage_nil s : stage_ok [] [] s s.
Proof. split; [reflexivity|intros _; reflexivity]. Qed.

Lemma stage_app a a' b b' s s1 s2 :
  stage_ok a a' s s1 -> stage_ok b b' s1 s2 -> stage_ok (a ++ b) (a' ++ b') s s2.
Proof.
  intros [La Ha] [Lb Hb]. split; [rewrite !length_app; lia|].
  intros Hl. rewrite length_app in Hl.
  assert (E1 : (a' ++ s1)%list = s) by (apply Ha; lia).
  assert (Hl1 : length b <= length s1).
  { rewrite <- E1, length_app in Hl. lia. }
  rewrite <- app_assoc, (Hb Hl1). exact E1.
Qed.

Lemma stage_cons n n' b b' s s1 s2 :
  stage_ok [n] [n'] s s1 -> stage_ok b b' s1 s2 -> stage_ok (n :: b) (n' :: b') s s2.
Proof. exact (stage_app [n] [n'] b b' s s1 s2). Qed.

Lemma relabel_ok m s m' s' :
  NodeIds.relabel m s = (m', s') -> rng m' = rng m /\ stage_ok [nid m] [nid m'] s s'.
Proof.
  unfold NodeIds.relabel, NodeIds.take. intros H.
  destruct s as [|n s]; inversion H; subst; clear H; cbn.
  - split; [reflexivity|split; [reflexivity|cbn; lia]].
  - split; [reflexivity|split; [reflexivity|intros _; reflexivity]].
Qed.

Lemma map_st_ok {A B} (f : list nat -> A -> B * list nat) (ia : A -> list nat)
    (ib : B -> list nat) (R : A -> B -> Prop) l :
  Forall (fun a => forall s b s', f s a = (b, s') -> R a b /\ stage_ok (ia a) (ib b) s s') l ->
  forall s l' s', NodeIds.map_st f s l = (l', s') ->
  Forall2 R l l' /\ stage_ok (concat (map ia l)) (concat (map ib l')) s s'.
Proof.
  induction l as [|a l IH]; intros HF s l' s' H; cbn in H.
  - inversion H; subst. split; [constructor|apply stage_nil].
  - inversion HF as [|? ? Ha HF']; subst.
    destruct (f s a) as [b s1] eqn:E1. destruct (NodeIds.map_st f s1 l) as [bs s2] eqn:E2.
    inversion H; subst; clear H.
    destruct (Ha _ _ _ E1) as [R1 S1]. destruct (IH HF' _ _ _ E2) as [R2 S2].
    split; [constructor; assumption|cbn; eapply stage_app; eassumption].
Qed.

Lemma Forall2_map_eq {A B C} (f : B -> C) (g : A -> C) l l' :
  Forall2 (fun a b => f b = g a) l l' -> map f l' = map g l.
Proof. induction 1; cbn; f_equal; assumption. Qed.

(** The claim about one expression that the numbering lemma proves. *)
Lemma pair_forall (bs : list (string * Expr)) :
  Forall (fun p => forall s e' s', NodeIds.number_expr s (snd p) = (e', s') ->
            NodeIds.erase_expr e' = NodeIds.erase_expr (snd p) /\
            stage_ok (NodeIds.expr_ids (snd p)) (NodeIds.expr_ids e') s s') bs ->
  Forall (fun p => forall s q s',
            (let '(v', s'') := NodeIds.number_expr s (snd p) in ((fst p, v'), s'')) = (q, s') ->
            (fst q, NodeIds.erase_expr (snd q)) = (fst p, NodeIds.erase_expr (snd p)) /\
            stage_ok (NodeIds.expr_ids (snd p)) (NodeIds.expr_ids (snd q)) s s') bs.
Proof.
  apply Forall_impl. intros p Hp s q s' H.
  destruct (NodeIds.number_expr s (snd p)) as [v s''] eqn:E. inversion H; subst; clear H.
  destruct (Hp _ _ _ E) as [A B]. cbn. rewrite A. split; [reflexivity|exact B].
Qed.

Ltac destr_pairs H :=
  repeat match type of H with
  | context [match ?x with (_, _) => _ end] => let E := fresh "E" in destruct x eqn:E
  end.

Ltac use_ih :=
  repeat match goal with
  | E : NodeIds.relabel _ _ = (_, _) |- _ =>
      let Hr := fresh "Hr" in let Hs := fresh "Hs" in
      apply relabel_ok in E; destruct E as [Hr Hs]
  | E : NodeIds.number_expr _ _ = (_, _), IH : forall _ _ _, NodeIds.number_expr _ _ = _ -> _
    |- _ =>
      let A := fresh "A" in let B := fresh "B" in
      apply IH in E; destruct E as [A B]; clear IH
  | E : NodeIds.map_st NodeIds.number_expr _ _ = (_, _), HF : Forall _ _ |- _ =>
      let A := fresh "A" in let B := fresh "B" in
      apply (map_st_ok _ _ _ _ _ HF) in E; destruct E as [A B]; clear HF
  | E : NodeIds.map_st _ _ _ = (_, _), HF : Forall _ _ |- _ =>
      let A := fresh "A" in let B := fresh "B" in
      apply (map_st_ok _ _ _ _ _ (pair_forall _ HF)) in E; destruct E as [A B]; clear HF
  end.

Ltac stage_chain :=
  repeat first
    [ apply stage_nil
    | eassumption
    | eapply stage_cons; [eassumption|]
    | eapply stage_app; [eassumption|] ].

Lemma number_expr_ok :
  forall e s e' s', NodeIds.number_expr s e = (e', s') ->
  NodeIds.erase_expr e' = NodeIds.erase_expr e /\
  stage_ok (NodeIds.expr_ids e) (NodeIds.expr_ids e') s s'.
Proof.
  induction e using Expr_nested_ind; intros s e' s' Hn; cbn [NodeIds.number_expr] in Hn;
    destr_pairs Hn; inversion Hn; subst; clear Hn; use_ih;
    cbn [NodeIds.erase_expr NodeIds.expr_ids]; split;
    try stage_chain;
    f_equal; try (unfold NodeIds.erase_meta; congruence);
    try (apply Forall2_map_eq; assumption); assumption.
Qed.

Lemma number_block_item_ok it s it' s' :
  NodeIds.number_block_item s it = (it', s') ->
  NodeIds.erase_block_item it' = NodeIds.erase_block_item it /\
  stage_ok (NodeIds.block_item_ids it) (NodeIds.block_item_ids it') s s'.
Proof.
  intros Hn. destruct it as [m x e|m x fs|m]; cbn [NodeIds.number_block_item] in Hn;
    destr_pairs Hn; inversion Hn; subst; clear Hn;
    repeat match goal with
    | E : NodeIds.relabel _ _ = (_, _) |- _ =>
        let Hr := fresh "Hr" in let Hs := fresh "Hs" in
        apply relabel_ok in E; destruct E as [Hr Hs]
    | E : NodeIds.number_expr _ _ = (_, _) |- _ =>
        let A := fresh "A" in let B := fresh "B" in
        apply number_expr_ok in E; destruct E as [A B]
    end;
    cbn [NodeIds.erase_block_item NodeIds.block_item_ids]; split; try stage_chain;
    f_equal; try (unfold NodeIds.erase_meta; congruence); assumption.
Qed.

Lemma number_item_ok it s it' s' :
  NodeIds.number_item s it = (it', s') ->
  NodeIds.erase_item it' = NodeIds.erase_item it /\
  stage_ok (NodeIds.item_ids it) (NodeIds.item_ids it') s s'.
Proof.
  intros Hn. destruct it as [[bm bn bh bits]|m raw|m]; cbn in Hn;
    destr_pairs Hn; inversion Hn; subst; clear Hn;
    repeat match goal with
    | E : NodeIds.relabel _ _ = (_, _) |- _ =>
        let Hr := fresh "Hr" in let Hs := fresh "Hs" in
        apply relabel_ok in E; destruct E as [Hr Hs]
    | E : NodeIds.map_st NodeIds.number_block_item _ _ = (_, _) |- _ =>
        let A := fresh "A" in let B := fresh "B" in
        apply (map_st_ok _ NodeIds.block_item_ids NodeIds.block_item_ids
                 (fun a b => NodeIds.erase_block_item b = NodeIds.erase_block_item a))
          in E; [destruct E as [A B]|apply Forall_forall; intros ? _; apply number_block_item_ok]
    end;
    cbn; split; try stage_chain;
    f_equal; try (unfold NodeIds.erase_meta; congruence);
    f_equal; [unfold NodeIds.erase_meta; congruence|apply Forall2_map_eq; assumption].
Qed.

Lemma number_file_ok f s f' s' :
  NodeIds.number_file s f = (f', s') ->
  NodeIds.erase_file f' = NodeIds.erase_file f /\
  stage_ok (NodeIds.file_ids f) (NodeIds.file_ids f') s s'.
Proof.
  intros Hn. destruct f as [fm fits]. unfold NodeIds.number_file in Hn. cbn in Hn.
  destr_pairs Hn. inversion Hn; subst; clear Hn.
  apply relabel_ok in E. destruct E as [Hr Hs].
  apply (map_st_ok _ NodeIds.item_ids NodeIds.item_ids
           (fun a b => NodeIds.erase_item b = NodeIds.erase_item a)) in E0;
    [|apply Forall_forall; intros ? _; apply number_item_ok].
  destruct E0 as [A B].
  unfold NodeIds.erase_file, NodeIds.file_ids; cbn. split.
  - f_equal; [unfold NodeIds.erase_meta; congruence|apply Forall2_map_eq; exact A].
  - eapply stage_cons; eassumption.
Qed.

Lemma parse_with_ids_prefix text log f :
  NodeIds.parse_with_ids text log = Some f -> exists r, log = (NodeIds.file_ids f ++ r)%list.
Proof.
  unfold NodeIds.parse_with_ids.
  destruct (Nat.leb (NodeIds.file_size (fst (Parser.parse_raw text))) (length log)) eqn:Hle;
    [|discriminate].
  destruct (NodeIds.number_file log (fst (Parser.parse_raw text))) as [f' s'] eqn:E.
  cbn. intros Hf. inversion Hf; subst; clear Hf.
  apply number_file_ok in E. destruct E as [_ [_ H]].
  exists s'. symmetry. apply H. apply Nat.leb_le in Hle. exact Hle.
Qed.

Lemma NoDup_app_disj (l1 l2 : list nat) a : NoDup (l1 ++ l2) -> In a l1 -> In a l2 -> False.
Proof.
  induction l1 as [|x l1 IH]; cbn; intros H H1 H2; [contradiction|].
  inversion H as [|? ? Hx Hd]; subst.
  destruct H1 as [<-|H1]; [apply Hx, in_or_app; right; exact H2|exact (IH Hd H1 H2)].
Qed.

Lemma in_concat_prefixes (ps : list (list nat * list nat)) x :
  Forall (fun p => exists r, snd p = (fst p ++ r)%list) ps ->
  In x (concat (map fst ps)) -> In x (concat (map snd ps)).
Proof.
  induction ps as [|[a l] ps IH]; cbn; intros HF Hx; [contradiction|].
  inversion HF as [|? ? [r Hr] HF']; subst. cbn in Hr. subst l.
  apply in_app_or in Hx. apply in_or_app. destruct Hx as [Hx|Hx].
  - left. apply in_or_app. left. exact Hx.
  - right. exact (IH HF' Hx).
Qed.

Lemma NoDup_concat_prefixes (ps : list (list nat * list nat)) :
  Forall (fun p => exists r, snd p = (fst p ++ r)%list) ps ->
  NoDup (concat (map snd ps)) -> NoDup (concat (map fst ps)).
Proof.
  induction ps as [|[a l] ps IH]; cbn; intros HF Hn; [constructor|].
  inversion HF as [|? ? [r Hr] HF']; subst. cbn in Hr. subst l.
  apply NoDup_app.
  - exact (NoDup_app_remove_r _ _ (NoDup_app_remove_r _ _ Hn)).
  - exact (IH HF' (NoDup_app_remove_l _ _ Hn)).
  - intros x Ha Hb. apply (NoDup_app_disj _ _ x Hn).
    + apply in_or_app. left. exact Ha.
    + exact (in_concat_prefixes ps x HF' Hb).
Qed.

Lemma update_nth_perm i (x : nat) (ls : list (list nat)) :
  i < length ls ->
  Permutation (concat (NodeIds.update_nth i (fun l => (l ++ [x])%list) ls)) (x :: concat ls).
Proof.
  revert i. induction ls as [|l ls IH]; intros [|i] Hi; cbn in *; try lia.
  - rewrite <- app_assoc. cbn. apply Permutation_sym, Permutation_middle.
  - eapply perm_trans; [apply Permutation_app_head, IH; lia|].
    apply Permutation_sym, Permutation_middle.
Qed.

Lemma Forall_update_nth {A} (P Q : A -> Prop) f i ls :
  Forall P ls -> (forall a, P a -> Q (f a)) -> (forall a, P a -> Q a) ->
  Forall Q (NodeIds.update_nth i f ls).
Proof.
  revert i. induction ls as [|a ls IH]; intros [|i] HF Hf Hw; cbn; auto;
    inversion HF; subst; constructor; auto.
  apply Forall_impl with (P := P); assumption.
Qed.

Lemma length_update_nth {A} i (f : A -> A) ls :
  length (NodeIds.update_nth i f ls) = length ls.
Proof. revert i. induction ls as [|a ls IH]; intros [|i]; cbn; auto. Qed.

Lemma StronglySorted_snoc l x :
  StronglySorted lt l -> Forall (fun y => y < x) l -> StronglySorted lt (l ++ [x]).
Proof.
  induction l as [|a l IH]; cbn; intros Hs Hf.
  - repeat constructor.
  - inversion Hs; inversion Hf; subst. constructor; [auto|].
    apply Forall_app. split; [assumption|constructor; [assumption|constructor]].
Qed.

Lemma fetch_add_inv i c :
  NoDup (concat (NodeIds.drawn c)) ->
  Forall (fun l => StronglySorted lt l /\ Forall (fun j => j < NodeIds.next_id c) l)
    (NodeIds.drawn c) ->
  let c' := NodeIds.fetch_add i c in
  NoDup (concat (NodeIds.drawn c')) /\
  Forall (fun l => StronglySorted lt l /\ Forall (fun j => j < NodeIds.next_id c') l)
    (NodeIds.drawn c').
Proof.
  intros Hn Hf c'. subst c'. unfold NodeIds.fetch_add.
  destruct (Nat.ltb i (length (NodeIds.drawn c))) eqn:Hi; [|split; assumption].
  apply Nat.ltb_lt in Hi. cbn. split.
  - eapply Permutation_NoDup; [apply Permutation_sym, update_nth_perm, Hi|].
    constructor; [|exact Hn].
    intros Hin. apply in_concat in Hin. destruct Hin as (l & Hl & Hx).
    rewrite Forall_forall in Hf. destruct (Hf l Hl) as [_ Hb].
    rewrite Forall_forall in Hb. specialize (Hb _ Hx). lia.
  - apply (Forall_update_nth _ _ _ _ _ Hf).
    + intros l [Hs Hb]. split.
      * apply StronglySorted_snoc; [exact Hs|]. exact Hb.
      * apply Forall_app. split; [|constructor; [cbn; lia|constructor]].
        eapply Forall_impl; [|exact Hb]. intros j Hj. cbn in *. lia.
    + intros l [Hs Hb]. split; [exact Hs|].
      eapply Forall_impl; [|exact Hb]. intros j Hj. cbn in *. lia.
Qed.

Lemma run_schedule_inv sched c :
  NoDup (concat (NodeIds.drawn c)) ->
  Forall (fun l => StronglySorted lt l /\ Forall (fun j => j < NodeIds.next_id c) l)
    (NodeIds.drawn c) ->
  let c' := NodeIds.run_schedule sched c in
  NoDup (concat (NodeIds.drawn c')) /\
  Forall (fun l => StronglySorted lt l /\ Forall (fun j => j < NodeIds.next_id c') l)
    (NodeIds.drawn c') /\
  length (NodeIds.drawn c') = length (NodeIds.drawn c).
Proof.
  unfold NodeIds.run_schedule. revert c.
  induction sched as [|i sched IH]; intros c Hn Hf; cbn.
  - repeat split; assumption.
  - destruct (fetch_add_inv i c Hn Hf) as [Hn' Hf'].
    destruct (IH _ Hn' Hf') as (H1 & H2 & H3). repeat split; try assumption.
    rewrite H3. unfold NodeIds.fetch_add.
    destruct (Nat.ltb i (length (NodeIds.drawn c))); cbn; [apply length_update_nth|reflexivity].
Qed.

Lemma map_snd_combine {A B} (l1 : list A) (l2 : list B) :
  length l1 = length l2 -> map snd (combine l1 l2) = l2.
Proof.
  revert l2. induction l1 as [|a l1 IH]; intros [|b l2] H; cbn in *; try discriminate;
    [reflexivity|]. f_equal. apply IH. lia.
Qed.

(** C6: the counter hands out ids by atomic [fetch_add]; under every
    interleaving of the [fetch_add]s of any number of concurrent parses
    (any schedule), the ids of all the nodes of all the finished parses are
    pairwise distinct, and each parse receives increasing ids, all below the
    counter's current value. *)
Theorem node_ids_unique_concurrent :
  forall texts sched,
  let c := NodeIds.run_schedule sched (NodeIds.init_counter (length texts)) in
  NoDup (NodeIds.all_parsed_ids texts c) /\
  Forall (fun l => StronglySorted lt l /\ Forall (fun j => j < NodeIds.next_id c) l)
    (NodeIds.drawn c).
Proof.
  intros texts sched c.
  destruct (run_schedule_inv sched (NodeIds.init_counter (length texts))) as (Hn & Hf & Hl).
  - cbn. induction (length texts); cbn; [constructor|exact IHn].
  - apply Forall_forall. intros l Hl. cbn in Hl. apply repeat_spec in Hl. subst l.
    split; constructor.
  - fold c in Hn, Hf, Hl. split; [|exact Hf].
    cbn in Hl. rewrite repeat_length in Hl.
    unfold NodeIds.all_parsed_ids.
    set (g := fun p : string * list nat =>
                match NodeIds.parse_with_ids (fst p) (snd p) with
                | Some f => NodeIds.file_ids f
                | None => []
                end).
    set (ps := map (fun p => (g p, snd p)) (combine texts (NodeIds.drawn c))).
    assert (E1 : map g (combine texts (NodeIds.drawn c)) = map fst ps).
    { subst ps. rewrite map_map. reflexivity. }
    assert (E2 : NodeIds.drawn c = map snd ps).
    { subst ps. rewrite map_map. cbn. symmetry. apply map_snd_combine. congruence. }
    rewrite E1. apply NoDup_concat_prefixes; [|rewrite <- E2; exact Hn].
    subst ps. apply Forall_forall. intros [a l] Hin. apply in_map_iff in Hin.
    destruct Hin as ([t d] & Heq & _). rewrite <- Heq. cbn.
    subst g. cbn. destruct (NodeIds.parse_with_ids t d) as [f|] eqn:E.
    + apply parse_with_ids_prefix in E. exact E.
    + exists d. reflexivity.
Qed.

(** C7: parsing the same text for two revisions, which draw different ids
    from the counter, gives the same tree once the node ids are erased
    (every constructor, name, literal and range agrees) and the same
    diagnostics. *)
Theorem parse_deterministic_up_to_ids :
  forall text ids1 ids2,
  NodeIds.erase_file (fst (NodeIds.parse_file ids1 text)) =
    NodeIds.erase_file (fst (NodeIds.parse_file ids2 text)) /\
  snd (NodeIds.parse_file ids1 text) = snd (NodeIds.parse_file ids2 text).
Proof.
  intros text ids1 ids2. unfold NodeIds.parse_file.
  destruct (Parser.parse_raw text) as [f ds].
  destruct (NodeIds.number_file ids1 f) as [f1 r1] eqn:E1.
  destruct (NodeIds.number_file ids2 f) as [f2 r2] eqn:E2. cbn.
  apply number_file_ok in E1. apply number_file_ok in E2.
  split; [destruct E1 as [-> _]; destruct E2 as [-> _]; reflexivity|reflexivity].
Qed.

(** ** The semantic analyzer *)

Lemma infer_let scopes decls m bs b :
  Semantics.infer scopes decls (ELet m bs b) =
  let '(sc, bds) := let_bindings scopes decls [] bs in
  let '(t, d) := Semantics.infer (sc :: scopes) decls b in (t, bds ++ d)%list.
Proof.
  simpl.
  match goal with
  | |- context [?F [] bs] =>
      assert (Hgo : forall sc, F sc bs = let_bindings scopes decls sc bs)
  end.
  { induction bs as [|[x v] bs IH]; intros sc; [reflexivity|].
    simpl. destruct (Semantics.infer (sc :: scopes) decls v) as [vt vd].
    rewrite IH. reflexivity. }
  rewrite Hgo. reflexivity.
Qed.

Lemma incl_app_l {A} (l m n : list A) : incl l m -> incl l (m ++ n).
Proof. intros H x Hx. apply in_or_app. left. auto. Qed.

Lemma incl_app_r {A} (l m n : list A) : incl l n -> incl l (m ++ n).
Proof. intros H x Hx. apply in_or_app. right. auto. Qed.

Lemma incl_concat_map {A B} (f : A -> list B) (xs : list A) a :
  In a xs -> incl (f a) (concat (map f xs)).
Proof.
  intros Ha y Hy. apply in_concat. exists (f a). split; [apply in_map; exact Ha|exact Hy].
Qed.

Lemma let_bindings_incl scopes decls bs : forall j x v sc,
  nth_error bs j = Some (x, v) ->
  incl (snd (Semantics.infer (fst (let_bindings scopes decls sc (firstn j bs)) :: scopes) decls v))
       (snd (let_bindings scopes decls sc bs)).
Proof.
  induction bs as [|[y w] bs IH]; intros [|j] x v sc Hj; cbn in Hj; try discriminate.
  - inversion Hj; subst. cbn.
    destruct (Semantics.infer (sc :: scopes) decls v) as [vt vd].
    destruct (let_bindings scopes decls ((x, vt) :: sc) bs) as [sc' ds].
    cbn. apply incl_app_l, incl_refl.
  - cbn. destruct (Semantics.infer (sc :: scopes) decls w) as [wt wd] eqn:Ew.
    specialize (IH j x v ((y, wt) :: sc) Hj).
    destruct (let_bindings scopes decls ((y, wt) :: sc) (firstn j bs)) as [scj dj] eqn:Ej.
    destruct (let_bindings scopes decls ((y, wt) :: sc) bs) as [sc' ds] eqn:Eb.
    cbn in *. apply incl_app_r. exact IH.
Qed.

Ltac split_infer :=
  repeat match goal with
  | |- context [Semantics.infer ?s ?d ?x] =>
      let t := fresh "t" in let l := fresh "l" in
      destruct (Semantics.infer s d x) as [t l]
  end.

Lemma incl_infer_list scopes decls es a :
  In a es ->
  incl (snd (Semantics.infer scopes decls a))
       (concat (map snd (map (Semantics.infer scopes decls) es))).
Proof.
  intros Ha. rewrite map_map. exact (incl_concat_map (fun x => snd (Semantics.infer scopes decls x)) es a Ha).
Qed.

Lemma incl_infer_fields scopes decls (fs : list (string * Expr)) x v :
  In (x, v) fs ->
  incl (snd (Semantics.infer scopes decls v))
       (concat (map (fun p => snd (snd p))
                  (map (fun p => (fst p, Semantics.infer scopes decls (snd p))) fs))).
Proof.
  intros Ha. rewrite map_map.
  exact (incl_concat_map (fun p => snd (Semantics.infer scopes decls (snd p))) fs (x, v) Ha).
Qed.

Ltac incl_leaf :=
  first [ apply incl_refl
        | apply incl_nil_l
        | eapply incl_infer_list; eassumption
        | eapply incl_infer_fields; eassumption ].

Ltac incl_solve :=
  first
    [ incl_leaf
    | apply incl_app_l; incl_solve
    | apply incl_app_r; incl_solve
    | apply incl_tl; incl_solve ].

Ltac split_matches :=
  repeat (cbn; match goal with
               | |- context [match ?X with _ => _ end] => destruct X eqn:?
               end).

(** Every diagnostic of a subexpression is a diagnostic of its parent. *)
Lemma infer_child_incl decls scopes e scopes' e' :
  infer_child decls scopes e scopes' e' ->
  incl (snd (Semantics.infer scopes' decls e')) (snd (Semantics.infer scopes decls e)).
Proof.
  intros Hc. destruct Hc.
  all: try (rewrite infer_let; destruct (let_bindings scopes decls [] bs) as [sc bds] eqn:E;
            cbn; destruct (Semantics.infer (sc :: scopes) decls b) as [t d]; cbn;
            first [ apply incl_app_r, incl_refl
                  | apply incl_app_l;
                    pose proof (let_bindings_incl scopes decls bs j x v [] H) as Hi;
                    rewrite E in Hi; exact Hi ]; fail).
  all: try (match goal with |- context [ECall _ ?c _] => is_var c; destruct c end;
            try (exfalso; eapply H; reflexivity); try (exfalso; eapply H0; reflexivity)).
  all: split_matches; cbn [fst snd]; incl_solve.
Qed.

Lemma Forall_flat_map_intro {A B} (P : B -> Prop) (f : A -> list B) l :
  (forall x, Forall P (f x)) -> Forall P (flat_map f l).
Proof.
  intros H. induction l as [|a l IH]; cbn; [constructor|]. apply Forall_app. split; auto.
Qed.

Lemma check_args_not_structural ps args :
  Forall (fun d => structural_code (code d) = false) (Semantics.check_args ps args).
Proof.
  revert args. induction ps as [|p ps IH]; intros [|[a r] args]; cbn; try constructor.
  apply Forall_app. split; [|apply IH]. destruct (compatible p a); repeat constructor.
Qed.

Lemma check_call_not_structural r ft args :
  Forall (fun d => structural_code (code d) = false) (snd (Semantics.check_call r ft args)).
Proof.
  unfold Semantics.check_call. destruct ft; try (destruct args; repeat constructor; fail).
  destruct (Nat.eqb _ _); [apply check_args_not_structural|repeat constructor].
Qed.

Lemma binop_not_structural r op lt rt :
  Forall (fun d => structural_code (code d) = false) (snd (Semantics.binop_result r op lt rt)).
Proof.
  unfold Semantics.binop_result.
  destruct (Semantics.is_unknown lt || Semantics.is_unknown rt); [constructor|].
  destruct op; repeat (cbn; match goal with |- context [if ?b then _ else _] => destruct b end);
    repeat constructor.
Qed.

Lemma unop_not_structural r op t :
  Forall (fun d => structural_code (code d) = false) (snd (Semantics.unop_result r op t)).
Proof.
  unfold Semantics.unop_result.
  destruct op; repeat (cbn; match goal with |- context [if ?b then _ else _] => destruct b end);
    repeat constructor.
Qed.

Lemma concat_infer_not_structural scopes decls es :
  Forall (fun a => forall sc,
            Forall (fun d => structural_code (code d) = false) (snd (Semantics.infer sc decls a))) es ->
  Forall (fun d => structural_code (code d) = false)
    (concat (map snd (map (Semantics.infer scopes decls) es))).
Proof.
  induction 1; cbn; [constructor|]. apply Forall_app. split; auto.
Qed.

Lemma concat_fields_not_structural scopes decls (fs : list (string * Expr)) :
  Forall (fun p => forall sc,
            Forall (fun d => structural_code (code d) = false)
              (snd (Semantics.infer sc decls (snd p)))) fs ->
  Forall (fun d => structural_code (code d) = false)
    (concat (map (fun p => snd (snd p))
               (map (fun p => (fst p, Semantics.infer scopes decls (snd p))) fs))).
Proof.
  induction 1; cbn; [constructor|]. apply Forall_app. split; auto.
Qed.

Lemma let_bindings_not_structural scopes decls bs :
  Forall (fun p => forall sc,
            Forall (fun d => structural_code (code d) = false)
              (snd (Semantics.infer sc decls (snd p)))) bs ->
  forall sc, Forall (fun d => structural_code (code d) = false)
               (snd (let_bindings scopes decls sc bs)).
Proof.
  induction 1 as [|[x v] bs Hv HF IH]; intros sc; cbn; [constructor|].
  specialize (Hv (sc :: scopes)). cbn in Hv.
  destruct (Semantics.infer (sc :: scopes) decls v) as [vt vd]. cbn in Hv.
  specialize (IH ((x, vt) :: sc)).
  destruct (let_bindings scopes decls ((x, vt) :: sc) bs) as [sc' ds]. cbn in *.
  apply Forall_app. split; assumption.
Qed.

Ltac ns_facts E :=
  lazymatch type of E with
  | Semantics.infer ?s ?d ?x = _ =>
      match goal with
      | IH : forall sc, Forall _ (snd (Semantics.infer sc d x)) |- _ =>
          let HH := fresh "Hns" in pose proof (IH s) as HH; rewrite E in HH; cbn in HH
      | _ => idtac
      end
  | Semantics.check_call ?r ?f ?a = _ =>
      let HH := fresh "Hns" in pose proof (check_call_not_structural r f a) as HH;
      rewrite E in HH; cbn in HH
  | Semantics.binop_result ?r ?o ?a ?b = _ =>
      let HH := fresh "Hns" in pose proof (binop_not_structural r o a b) as HH;
      rewrite E in HH; cbn in HH
  | Semantics.unop_result ?r ?o ?a = _ =>
      let HH := fresh "Hns" in pose proof (unop_not_structural r o a) as HH;
      rewrite E in HH; cbn in HH
  | _ => idtac
  end.

Ltac ns_split :=
  repeat (cbn in *;
          match goal with
          | |- context [match ?X with _ => _ end] =>
              let E := fresh "E" in destruct X eqn:E; try rewrite E in *; ns_facts E
          end).

Ltac ns_close :=
  cbn [fst snd] in *;
  repeat match goal with H : Forall _ (_ ++ _) |- _ => apply Forall_app in H; destruct H end;
  repeat first
    [ assumption
    | apply Forall_app; split
    | apply Forall_flat_map_intro; intros [? ?];
      repeat (cbn; match goal with |- context [match ?X with _ => _ end] => destruct X end)
    | constructor ].

Lemma callee_cases c :
  (exists mi x, c = EIdent mi x) \/ (exists mb b x, c = EField mb b x) \/
  ((forall mi x, c <> EIdent mi x) /\ (forall mb b x, c <> EField mb b x)).
Proof. destruct c; eauto 6; right; right; split; congruence. Qed.

Lemma infer_call_other scopes decls m c args :
  (forall mi x, c <> EIdent mi x) -> (forall mb b x, c <> EField mb b x) ->
  Semantics.infer scopes decls (ECall m c args) =
  let ais := map (Semantics.infer scopes decls) args in
  let ad := concat (map snd ais) in
  let targs := combine (map fst ais) (map expr_range args) in
  let '(ct, cd) := Semantics.infer scopes decls c in
  let '(t, d) := Semantics.check_call (rng m) ct targs in (t, cd ++ ad ++ d)%list.
Proof.
  intros H1 H2. destruct c; try (exfalso; eapply H1; reflexivity);
    try (exfalso; eapply H2; reflexivity); reflexivity.
Qed.

Lemma infer_not_structural decls e : forall scopes,
  Forall (fun d => structural_code (code d) = false) (snd (Semantics.infer scopes decls e)).
Proof.
  induction e using Expr_nested_ind; intros scopes.
  - cbn. constructor.
  - ns_split; ns_close.
  - ns_split; ns_close.
  - ns_split; ns_close.
  - match goal with
    | H : Forall _ ?args, IHc : forall sc, Forall _ (snd (Semantics.infer sc decls ?c))
      |- context [ECall _ ?c ?args] =>
        pose proof (concat_infer_not_structural scopes decls args H) as Ha;
        pose proof (IHc scopes) as Hc0;
        destruct (callee_cases c) as [(mi & x & ->)|[(mb & b & x & ->)|[Hn1 Hn2]]];
        [|clear IHc|rewrite (infer_call_other scopes decls _ c args Hn1 Hn2)]
    end; ns_split; ns_close.
  - ns_split; ns_close.
  - rewrite infer_let.
    match goal with
    | H : Forall _ ?bs |- context [let_bindings _ _ _ ?bs] =>
        pose proof (let_bindings_not_structural scopes decls bs H []) as Hb;
        destruct (let_bindings scopes decls [] bs) as [sc bds] eqn:Eb
    end. cbn in Hb.
    ns_split; ns_close.
  - ns_split; ns_close.
  - ns_split; ns_close.
  - ns_split; ns_close.
  - ns_split; ns_close.
  - ns_split; ns_close.
  - ns_split; ns_close.
  - match goal with
    | H : Forall _ ?es |- context [EVecLit _ ?es] =>
        pose proof (concat_infer_not_structural scopes decls es H) as Ha
    end; ns_split; ns_close.
  - match goal with
    | H : Forall _ ?fs |- context [EStructLit _ _ ?fs] =>
        pose proof (concat_fields_not_structural scopes decls fs H) as Ha
    end; ns_split; ns_close.
  - cbn. constructor.
Qed.

Lemma filter_code_nil c l :
  Forall (fun d => DiagCode_eqb (code d) c = false) l ->
  filter (fun d => DiagCode_eqb (code d) c) l = [].
Proof. induction 1; cbn; [reflexivity|]. rewrite H. exact IHForall. Qed.

Lemma filter_flat_map {A B} (p : B -> bool) (g : A -> list B) l :
  filter p (flat_map g l) = flat_map (fun x => filter p (g x)) l.
Proof. induction l as [|a l IH]; cbn; [reflexivity|]. rewrite filter_app, IH. reflexivity. Qed.

Lemma not_structural_code d c :
  structural_code (code d) = false -> structural_code c = true ->
  DiagCode_eqb (code d) c = false.
Proof. destruct (code d), c; cbn; congruence. Qed.

Lemma inference_diags_not_structural f :
  Forall (fun d => structural_code (code d) = false) (Semantics.inference_diags f).
Proof.
  apply Forall_flat_map_intro. intros b. apply Forall_flat_map_intro. intros [[m x] e].
  apply infer_not_structural.
Qed.

Lemma style_diags_code f :
  Forall (fun d => code d = StyleCapitalization) (Semantics.style_diags f).
Proof.
  apply Forall_flat_map_intro. intros b.
  destruct (b_name b) as [|c s]; [constructor|].
  destruct (Semantics.is_upper c); repeat constructor.
Qed.

Lemma field_diags_code f :
  Forall (fun d => code d = MissingField)
    (flat_map (fun b => flat_map (fun k => if Semantics.has_field b k then []
                                           else [Semantics.missing_field_diag b k])
                          (Semantics.required_keys (b_name b)))
       (file_blocks f)).
Proof.
  apply Forall_flat_map_intro. intros b. apply Forall_flat_map_intro. intros k.
  destruct (Semantics.has_field b k); repeat constructor.
Qed.

Lemma filter_missing_fields b keys :
  filter (fun d => DiagCode_eqb (code d) MissingField)
    (flat_map (fun k => if Semantics.has_field b k then [] else [Semantics.missing_field_diag b k])
       keys) =
  map (Semantics.missing_field_diag b) (filter (fun k => negb (Semantics.has_field b k)) keys).
Proof.
  induction keys as [|k keys IH]; cbn; [reflexivity|].
  destruct (Semantics.has_field b k); cbn; [exact IH|f_equal; exact IH].
Qed.

(** C4: the structure pass reports exactly one [MissingBlock] error for
    each required block ([RouteInfo], the routing-rule block, and
    [TransitionInfo], the transition-rule block) that the file lacks, and
    one [MissingField] error at the header of each present block for each
    of its required fields that it lacks; no other pass reports these
    codes.  For the file [RouteInfo:] with only [routed_gates = CX], the
    document's diagnostics include one [MissingField] for [realize_gate]
    at the [RouteInfo] header and one [MissingBlock] for [TransitionInfo]. *)
Theorem structure_validation_diags :
  (forall f,
     filter (fun d => DiagCode_eqb (code d) MissingBlock) (Semantics.analyze f) =
       map Semantics.missing_block_diag
         (filter (fun n => negb (Semantics.has_block f n)) Semantics.required_blocks) /\
     filter (fun d => DiagCode_eqb (code d) MissingField) (Semantics.analyze f) =
       flat_map (fun b => map (Semantics.missing_field_diag b)
                            (filter (fun k => negb (Semantics.has_field b k))
                               (Semantics.required_keys (b_name b))))
         (file_blocks f)) /\
  Semantics.required_blocks = ["RouteInfo"; "TransitionInfo"] /\
  (forall b k, drange (Semantics.missing_field_diag b k) = b_header b /\
               code (Semantics.missing_field_diag b k) = MissingField) /\
  (let text := "RouteInfo:
    routed_gates = CX
" in
   map b_header (file_blocks (fst (Parser.parse_raw text))) = [(0, 9)] /\
   filter (fun d => DiagCode_eqb (code d) MissingBlock) (Semantics.check_document text) =
     [Semantics.missing_block_diag "TransitionInfo"] /\
   filter (fun d => DiagCode_eqb (code d) MissingField) (Semantics.check_document text) =
     [Semantics.err (0, 9) MissingField
        "Missing required field 'realize_gate' in block 'RouteInfo'"]).
Proof.
  split; [|split; [reflexivity|split; [intros b k; split; reflexivity|vm_compute; auto]]].
  intros f. unfold Semantics.analyze, Semantics.structure_diags.
  pose proof (inference_diags_not_structural f) as Hi.
  pose proof (style_diags_code f) as Hs.
  pose proof (field_diags_code f) as Hf.
  rewrite !filter_app. split.
  - rewrite (filter_code_nil MissingBlock
               (flat_map (fun b => flat_map (fun k => if Semantics.has_field b k then []
                                                       else [Semantics.missing_field_diag b k])
                                     (Semantics.required_keys (b_name b))) (file_blocks f))).
    2: { eapply Forall_impl; [|exact Hf]. intros d Hd. rewrite Hd. reflexivity. }
    rewrite (filter_code_nil MissingBlock (Semantics.style_diags f)).
    2: { eapply Forall_impl; [|exact Hs]. intros d Hd. rewrite Hd. reflexivity. }
    rewrite (filter_code_nil MissingBlock (Semantics.inference_diags f)).
    2: { eapply Forall_impl; [|exact Hi]. intros d Hd. apply not_structural_code; auto. }
    unfold Semantics.required_blocks. cbn.
    destruct (Semantics.has_block f "RouteInfo"), (Semantics.has_block f "TransitionInfo");
      cbn; rewrite ?app_nil_r; reflexivity.
  - rewrite (filter_code_nil MissingField (Semantics.style_diags f)).
    2: { eapply Forall_impl; [|exact Hs]. intros d Hd. rewrite Hd. reflexivity. }
    rewrite (filter_code_nil MissingField (Semantics.inference_diags f)).
    2: { eapply Forall_impl; [|exact Hi]. intros d Hd. apply not_structural_code; auto. }
    unfold Semantics.required_blocks. cbn [flat_map].
    destruct (Semantics.has_block f "RouteInfo"), (Semantics.has_block f "TransitionInfo");
      cbn; rewrite !app_nil_r, filter_flat_map;
      apply flat_map_ext; intros b; apply filter_missing_fields.
Qed.

(** C3 (counterexample): [Gate.qubits[State.implemented_gates]] indexes a
    [Vec<Qubit>], whose declared index type is [Int], with a probe of type
    [Unknown] ([State.implemented_gates] is [Unknown]).  The pair
    ([Int], [Unknown]) is neither equal nor the [Qubit]/[Int] pair, and no
    [IndexTypeMismatch] is reported: the expression has no diagnostic at
    all. *)
Lemma index_unknown_probe_accepted :
  let m := mkMeta 0 (0, 0) in
  let probe := EField m (EIdent m "State") "implemented_gates" in
  let e := EIndex m (EField m (EIdent m "Gate") "qubits") probe in
  index_type (TVec TQubit) = Some (TInt, TQubit) /\
  Semantics.infer [Symbols.global_scope] [] (EField m (EIdent m "Gate") "qubits") = (TVec TQubit, []) /\
  Semantics.infer [Symbols.global_scope] [] probe = (TUnknown, []) /\
  Semantics.infer [Symbols.global_scope] [] e = (TQubit, []).
Proof. vm_compute. repeat split. Qed.

(** C3 (amended): for an indexing expression [b[i]] whose base type is
    known and indexable, with declared index type [D] ([Int] for a [Vec],
    [Qubit] for a [QubitMap]) and probe type [P], the index is accepted
    exactly when [P = D], when [P] is [Unknown], or when one of them is
    [Qubit] and the other [Int]; otherwise one [IndexTypeMismatch] error is
    reported, after the diagnostics of [b] and [i], whose message names
    [D] and [P]. *)
Theorem index_mismatch_unless_compatible scopes decls m b i bt bd it id declared elem :
  Semantics.infer scopes decls b = (bt, bd) ->
  Semantics.infer scopes decls i = (it, id) ->
  Semantics.is_unknown bt = false ->
  index_type bt = Some (declared, elem) ->
  (declared = TInt \/ declared = TQubit) /\
  (index_compatible declared it = true <->
     it = declared \/ it = TUnknown \/
     (declared = TInt /\ it = TQubit) \/ (declared = TQubit /\ it = TInt)) /\
  Semantics.infer scopes decls (EIndex m b i) =
    (elem, bd ++ id ++ (if index_compatible declared it then []
                        else [Semantics.index_mismatch (rng m) declared it]))%list /\
  code (Semantics.index_mismatch (rng m) declared it) = IndexTypeMismatch /\
  message (Semantics.index_mismatch (rng m) declared it) =
    ("Index type mismatch: Expected '" ++ show_ty declared ++ "' but got '"
     ++ show_ty it ++ "'").
Proof.
  intros Hb Hi Hu Hx.
  assert (Hd : declared = TInt \/ declared = TQubit).
  { destruct bt; inversion Hx; subst; auto. }
  split; [exact Hd|split; [|split; [|split; reflexivity]]].
  - destruct Hd as [-> | ->]; destruct it; cbn; split; intros H;
      try discriminate; try reflexivity; intuition congruence.
  - cbn [Semantics.infer]. rewrite Hb, Hi, Hu, Hx.
    destruct (index_compatible declared it); [rewrite app_nil_r|]; reflexivity.
Qed.

Lemma index_mismatch_unless_compatible_witness :
  let m := mkMeta 0 (0, 16) in
  let b := EField (mkMeta 1 (0, 11)) (EIdent (mkMeta 2 (0, 4)) "Gate") "qubits" in
  let i := ELit (mkMeta 3 (12, 15)) (LFloat "1.0") in
  index_compatible TInt TFloat = false /\
  Semantics.infer [Symbols.global_scope] [] (EIndex m b i) =
    (TQubit, [Semantics.index_mismatch (0, 16) TInt TFloat]).
Proof.
  destruct (index_mismatch_unless_compatible [Symbols.global_scope] [] (mkMeta 0 (0, 16))
              (EField (mkMeta 1 (0, 11)) (EIdent (mkMeta 2 (0, 4)) "Gate") "qubits")
              (ELit (mkMeta 3 (12, 15)) (LFloat "1.0"))
              (TVec TQubit) [] TFloat [] TInt TQubit
              eq_refl eq_refl eq_refl eq_refl) as (_ & _ & H & _).
  split; [reflexivity|]. cbn zeta. rewrite H. reflexivity.
Defined.

Lemma infer_descendant_incl decls p q :
  clos_refl_trans _ (infer_step decls) p q ->
  incl (snd (Semantics.infer (fst q) decls (snd q))) (snd (Semantics.infer (fst p) decls (snd p))).
Proof.
  induction 1 as [p q Hs| p | p q r _ IH1 _ IH2].
  - apply infer_child_incl. exact Hs.
  - apply incl_refl.
  - eapply incl_tran; [exact IH2|exact IH1].
Qed.

Lemma incl_flat_map {A B} (g : A -> list B) l a :
  In a l -> incl (g a) (flat_map g l).
Proof. intros Ha y Hy. apply in_flat_map. exists a. split; assumption. Qed.




(** ** The extension client, beyond the claims *)

Lemma chmodSync_some p m w w' :
  chmodSync p m w = inl w' ->
  w' = mkWorld (client w)
         (map (fun f => if String.eqb (fst f) p then (p, m) else f) (files w))
         (chmod_errors w) (events w ++ [ChmodSync p m]).
Proof.
  unfold chmodSync. destruct (negb (existsSync p w)); [discriminate|].
  destruct (chmod_error p w); intros H; inversion H; reflexivity.
Qed.

Lemma chmod_error_emit e w p : chmod_error p (emit e w) = chmod_error p w.
Proof. reflexivity. Qed.

(** On an existing file, [fs.chmodSync] throws exactly the file's error. *)
Lemma chmodSync_existing p m w :
  existsSync p w = true ->
  chmodSync p m w =
    match chmod_error p w with
    | Some code => inr (code ++ ": chmod '" ++ p ++ "'")
    | None =>
        inl (mkWorld (client w)
               (map (fun f => if String.eqb (fst f) p then (p, m) else f) (files w))
               (chmod_errors w) (events w ++ [ChmodSync p m]))
    end.
Proof. intros H. unfold chmodSync. rewrite H. reflexivity. Qed.

(** Every run of [activate] of [extension.ts] has one of four shapes:
    unsupported platform, missing binary, or a constructed and started
    client, with the [chmodSync] on non-Windows platforms either done or
    caught. *)
Lemma activate_shape platform ctx w0 :
  let w := Extension.activate platform ctx w0 in
  (Extension.binaryName platform = None /\ client w = client w0 /\ files w = files w0 /\
   events w = (events w0 ++
     [ConsoleLog "Activating Amaro Extension...";
      ShowErrorMessage ("Amaro is not supported on this OS: " ++ platform)])%list) \/
  (exists bin, Extension.binaryName platform = Some bin /\
   let sp := Extension.serverPath platform ctx bin in
   let pre := [ConsoleLog "Activating Amaro Extension...";
               ConsoleLog ("Looking for LSP binary at: " ++ sp); ExistsSync sp] in
   ((existsSync sp w0 = false /\ client w = client w0 /\ files w = files w0 /\
     events w = (events w0 ++ pre ++
       [ShowErrorMessage ("Amaro LSP binary not found! Expected at: " ++ sp
                          ++ ". Did you run 'cargo build'?");
        ConsoleError ("Binary missing at " ++ sp)])%list) \/
    (existsSync sp w0 = true /\ client w = Some (Extension.mkLanguageClient sp) /\
     exists mid,
       events w = (events w0 ++ pre ++ mid ++
         [NewLanguageClient (Extension.mkLanguageClient sp);
          ClientStart (Extension.mkLanguageClient sp)])%list /\
       ((platform = "win32" /\ mid = [] /\ files w = files w0) \/
        (platform <> "win32" /\ mid = [ChmodSync sp "755"] /\
         files w = map (fun f => if String.eqb (fst f) sp then (sp, "755") else f) (files w0)) \/
        (platform <> "win32" /\
         mid = [ConsoleError ("Failed to set permissions for " ++ sp ++ ":")] /\
         files w = files w0))))).
Proof.
  unfold Extension.activate. destruct (Extension.binaryName platform) as [bin|] eqn:Hb.
  - right. exists bin. split; [reflexivity|]. cbv zeta.
    set (sp := Extension.serverPath platform ctx bin).
    rewrite !existsSync_emit.
    destruct (existsSync sp w0) eqn:He; cbn [negb].
    + right. split; [reflexivity|].
      destruct (String.eqb platform "win32") eqn:Ew; cbn [negb].
      * apply String.eqb_eq in Ew. split; [reflexivity|]. exists [].
        split; [cbn; rewrite <- !app_assoc; reflexivity|left; auto].
      * apply String.eqb_neq in Ew.
        destruct (chmodSync sp "755" _) as [w'|err] eqn:Ec.
        -- apply chmodSync_some in Ec. subst w'. split; [reflexivity|].
           exists [ChmodSync sp "755"]. split; [cbn; rewrite <- !app_assoc; reflexivity|].
           right; left. repeat split; auto.
        -- split; [reflexivity|].
           exists [ConsoleError ("Failed to set permissions for " ++ sp ++ ":")].
           split; [cbn; rewrite <- !app_assoc; reflexivity|]. right; right. repeat split; auto.
    + left. cbn. rewrite <- !app_assoc. repeat split; reflexivity.
  - left. cbn. rewrite <- !app_assoc. repeat split; reflexivity.
Qed.

(** The same for the older client of [part_001], which has no
    unsupported-platform branch and no [try] around [chmodSync]: an error of
    [chmodSync] escapes [activate] before any client is constructed. *)
Lemma marol_activate_shape platform ctx w0 :
  let '(w, r) := MarolExtension.activate platform ctx w0 in
  let sp := MarolExtension.serverPath platform ctx in
  let pre := [ConsoleLog "Activating Marol Extension...";
              ConsoleLog ("Looking for LSP binary at: " ++ sp); ExistsSync sp] in
  (existsSync sp w0 = false /\ r = MarolExtension.Normal /\
   client w = client w0 /\ files w = files w0 /\
   events w = (events w0 ++ pre ++
     [ShowErrorMessage ("Marol LSP binary not found! Expected at: " ++ sp
                        ++ ". Did you run 'cargo build'?");
      ConsoleError ("Binary missing at " ++ sp)])%list) \/
  (existsSync sp w0 = true /\ r = MarolExtension.Normal /\
   client w = Some (MarolExtension.mkLanguageClient sp) /\
   exists mid,
     events w = (events w0 ++ pre ++ mid ++
       [NewLanguageClient (MarolExtension.mkLanguageClient sp);
        ClientStart (MarolExtension.mkLanguageClient sp)])%list /\
     ((platform = "win32" /\ mid = [] /\ files w = files w0) \/
      (platform <> "win32" /\ chmod_error sp w0 = None /\ mid = [ChmodSync sp "755"] /\
       files w = map (fun f => if String.eqb (fst f) sp then (sp, "755") else f) (files w0)))) \/
  (existsSync sp w0 = true /\ platform <> "win32" /\
   exists code, chmod_error sp w0 = Some code /\
   r = MarolExtension.Throws (code ++ ": chmod '" ++ sp ++ "'") /\
   client w = client w0 /\ files w = files w0 /\ events w = (events w0 ++ pre)%list).
Proof.
  unfold MarolExtension.activate. cbv zeta.
  set (sp := MarolExtension.serverPath platform ctx).
  rewrite !existsSync_emit.
  destruct (existsSync sp w0) eqn:He; cbn [negb].
  - destruct (String.eqb platform "win32") eqn:Ew; cbn [negb].
    + apply String.eqb_eq in Ew. cbn zeta. right; left.
      split; [reflexivity|split; [reflexivity|split; [reflexivity|]]]. exists [].
      split; [cbn; rewrite <- !app_assoc; reflexivity|left; auto].
    + apply String.eqb_neq in Ew.
      rewrite chmodSync_existing by (rewrite !existsSync_emit; exact He).
      rewrite !chmod_error_emit.
      destruct (chmod_error sp w0) as [code|] eqn:Ec.
      * right; right. split; [reflexivity|split; [exact Ew|]]. exists code.
        split; [reflexivity|split; [reflexivity|]]. cbn. rewrite <- !app_assoc.
        repeat split; reflexivity.
      * cbn [client files events emit]. cbn zeta. right; left.
        split; [reflexivity|split; [reflexivity|split; [reflexivity|]]].
        exists [ChmodSync sp "755"].
        split; [cbn; rewrite <- !app_assoc; reflexivity|right; auto].
  - left. cbn. rewrite <- !app_assoc. repeat split; reflexivity.
Qed.

Lemma str_app_assoc (a b c : string) : ((a ++ b) ++ c) = (a ++ (b ++ c)).
Proof. induction a as [|x a IH]; cbn; [reflexivity|rewrite IH; reflexivity]. Qed.

Lemma map_fst_chmod (p m : string) (l : list (string * string)) :
  map fst (map (fun f => if String.eqb (fst f) p then (p, m) else f) l) = map fst l.
Proof.
  induction l as [|[q v] l IH]; cbn; [reflexivity|].
  destruct (String.eqb q p) eqn:E; cbn; rewrite IH; [apply String.eqb_eq in E; subst|]; reflexivity.
Qed.

Lemma in_chmod (p m : string) (l : list (string * string)) f :
  In f (map (fun f => if String.eqb (fst f) p then (p, m) else f) l) -> In f l \/ f = (p, m).
Proof.
  intros H. apply in_map_iff in H. destruct H as ([q v] & Hq & Hin). cbn in Hq.
  destruct (String.eqb q p); [right; congruence|left; subst; exact Hin].
Qed.

(** The events a run of [activate] adds hold no [client.stop()], and a
    client it stores is one it constructed. *)
Lemma activate_appends platform ctx w0 :
  let w := Extension.activate platform ctx w0 in
  exists new, events w = (events w0 ++ new)%list /\ (forall c, ~ In (ClientStop c) new) /\
    (client w = client w0 \/ exists c, client w = Some c /\ In (NewLanguageClient c) new).
Proof.
  destruct (activate_shape platform ctx w0)
    as [(_ & Hc & _ & He)|(bin & _ & [(_ & Hc & _ & He)|(_ & Hc & mid & He & Hm)])];
    cbv zeta in *; rewrite He; eexists; (split; [reflexivity|]).
  - split; [intros c H; cbn in H; intuition discriminate|left; exact Hc].
  - split; [intros c H; cbn in H; intuition discriminate|left; exact Hc].
  - split.
    + intros c H. rewrite !in_app_iff in H.
      destruct Hm as [(_ & -> & _)|[(_ & -> & _)|(_ & -> & _)]];
        cbn in H; intuition discriminate.
    + right. eexists; split; [exact Hc|].
      rewrite !in_app_iff. right; right. left; reflexivity.
Qed.

Lemma marol_activate_appends platform ctx w0 :
  let w := fst (MarolExtension.activate platform ctx w0) in
  exists new, events w = (events w0 ++ new)%list /\ (forall c, ~ In (ClientStop c) new) /\
    (client w = client w0 \/ exists c, client w = Some c /\ In (NewLanguageClient c) new).
Proof.
  pose proof (marol_activate_shape platform ctx w0) as Hs.
  destruct (MarolExtension.activate platform ctx w0) as [w r]. cbn [fst]. cbv zeta in Hs.
  destruct Hs as [(_ & _ & Hc & _ & He)|[(_ & _ & Hc & mid & He & Hm)|
                                         (_ & _ & code & _ & _ & Hc & _ & He)]];
    rewrite He; eexists; (split; [reflexivity|]).
  - split; [intros c H; cbn in H; intuition discriminate|left; exact Hc].
  - split.
    + intros c H. rewrite !in_app_iff in H.
      destruct Hm as [(_ & -> & _)|(_ & _ & -> & _)]; cbn in H; intuition discriminate.
    + right. eexists; split; [exact Hc|].
      rewrite !in_app_iff. right; right. left; reflexivity.
  - split; [intros c H; cbn in H; intuition discriminate|left; exact Hc].
Qed.

(** X1: on a supported platform, when the binary exists at
    [<extensionPath>/bin/<binaryName>], [activate] stores and starts a new
    [LanguageClient] whose run and debug commands are both that path, over
    stdio, for [file]-scheme [amaro] documents; the only call between the
    [existsSync] probe and the construction is [chmodSync(path, '755')] or
    its caught failure, and none on Windows. *)
Theorem activate_starts_client platform ctx w0 bin :
  Extension.binaryName platform = Some bin ->
  existsSync (Extension.serverPath platform ctx bin) w0 = true ->
  let sp := Extension.serverPath platform ctx bin in
  let c := Extension.mkLanguageClient sp in
  let w := Extension.activate platform ctx w0 in
  sp = (extensionPath ctx ++ path_sep platform ++ "bin" ++ path_sep platform ++ bin) /\
  client w = Some c /\ lc_run_command c = sp /\ lc_debug_command c = sp /\
  lc_transport c = stdio /\ lc_scheme c = "file" /\ lc_language c = "amaro" /\
  exists mid,
    events w = (events w0 ++
      [ConsoleLog "Activating Amaro Extension...";
       ConsoleLog ("Looking for LSP binary at: " ++ sp); ExistsSync sp] ++
      mid ++ [NewLanguageClient c; ClientStart c])%list /\
    (platform = "win32" -> mid = []) /\
    (platform <> "win32" ->
       mid = [ChmodSync sp "755"] \/
       mid = [ConsoleError ("Failed to set permissions for " ++ sp ++ ":")]).
Proof.
  intros Hb He sp c w.
  destruct (activate_shape platform ctx w0)
    as [(Hn & _)|(bin' & Hb' & [(He' & _)|(_ & Hc & mid & Hev & Hm)])];
    cbv zeta in *; rewrite Hb in *; try discriminate.
  - inversion Hb'; subst bin'. congruence.
  - inversion Hb'; subst bin'.
    split; [reflexivity|]. split; [exact Hc|].
    do 5 (split; [reflexivity|]). exists mid. split; [exact Hev|]. split.
    + intros Hw. destruct Hm as [(_ & Hm & _)|[(Hw' & _)|(Hw' & _)]]; [exact Hm|contradiction..].
    + intros Hw. destruct Hm as [(Hw' & _)|[(_ & Hm & _)|(_ & Hm & _)]]; [contradiction|auto..].
Qed.

Lemma activate_starts_client_witness :
  client (Extension.activate "linux" (mkContext "/ext")
            (init_world [("/ext/bin/amaro-lsp-linux", "644")]))
  = Some (Extension.mkLanguageClient "/ext/bin/amaro-lsp-linux").
Proof.
  destruct (activate_starts_client "linux" (mkContext "/ext")
              (init_world [("/ext/bin/amaro-lsp-linux", "644")]) "amaro-lsp-linux"
              eq_refl eq_refl) as (_ & Hc & _).
  exact Hc.
Defined.

(** Splits a membership [In (NewLanguageClient c) l] in a concrete event
    list [l] and closes every case but the construction of the client. *)
Ltac new_client_in H He :=
  decompose [or] H;
  match goal with
  | Hf : False |- _ => destruct Hf
  | Heq : NewLanguageClient _ = NewLanguageClient _ |- _ =>
      inversion Heq; subst; split; [exact He|reflexivity]
  | Heq : _ = NewLanguageClient _ |- _ => discriminate Heq
  end.

(** X2: [activate] (of either client) constructs a [LanguageClient] only
    for a server binary that [existsSync] found on disk when it was
    called, and gives it the same command to run and to debug. *)
Theorem activate_client_binary_exists :
  (forall platform ctx w0 c,
     In (NewLanguageClient c) (events (Extension.activate platform ctx w0)) ->
     In (NewLanguageClient c) (events w0) \/
     (existsSync (lc_run_command c) w0 = true /\ lc_debug_command c = lc_run_command c)) /\
  (forall platform ctx w0 c,
     In (NewLanguageClient c) (events (fst (MarolExtension.activate platform ctx w0))) ->
     In (NewLanguageClient c) (events w0) \/
     (existsSync (lc_run_command c) w0 = true /\ lc_debug_command c = lc_run_command c)).
Proof.
  split.
  - intros platform ctx w0 c H.
    destruct (activate_shape platform ctx w0)
      as [(_ & _ & _ & Hev)|(bin & _ & [(_ & _ & _ & Hev)|(He & _ & mid & Hev & Hm)])];
      cbv zeta in *; rewrite Hev in H; rewrite !in_app_iff in H.
    + cbn in H. intuition discriminate.
    + cbn in H. intuition discriminate.
    + destruct Hm as [(_ & -> & _)|[(_ & -> & _)|(_ & -> & _)]];
        (destruct H as [H|H]; [left; exact H|right]); cbn in H; new_client_in H He.
  - intros platform ctx w0 c H.
    pose proof (marol_activate_shape platform ctx w0) as Hs.
    destruct (MarolExtension.activate platform ctx w0) as [w r]. cbn [fst] in H. cbv zeta in Hs.
    destruct Hs as [(_ & _ & _ & _ & Hev)|[(He & _ & _ & mid & Hev & Hm)|
                                           (_ & _ & code & _ & _ & _ & _ & Hev)]];
      rewrite Hev in H; rewrite !in_app_iff in H.
    + cbn in H. intuition discriminate.
    + destruct Hm as [(_ & -> & _)|(_ & _ & -> & _)];
        (destruct H as [H|H]; [left; exact H|right]); cbn in H; new_client_in H He.
    + cbn in H. intuition discriminate.
Qed.

Lemma activate_client_binary_exists_witness :
  existsSync "/ext/bin/amaro-lsp-linux" (init_world [("/ext/bin/amaro-lsp-linux", "644")]) = true.
Proof.
  destruct activate_client_binary_exists as [H _].
  destruct (H "linux" (mkContext "/ext") (init_world [("/ext/bin/amaro-lsp-linux", "644")])
              (Extension.mkLanguageClient "/ext/bin/amaro-lsp-linux")) as [Hn|[He _]].
  - vm_compute. repeat (first [left; reflexivity | right]).
  - destruct Hn.
  - exact He.
Defined.

(** X3: [activate] (of either client) never creates or deletes a file; the
    only change it can make on disk is the mode of its server binary, set
    to ['755'], and never on Windows. *)
Theorem activate_files_frame :
  (forall platform ctx w0,
     let w := Extension.activate platform ctx w0 in
     map fst (files w) = map fst (files w0) /\
     forall f, In f (files w) ->
       In f (files w0) \/
       (platform <> "win32" /\ exists bin, Extension.binaryName platform = Some bin /\
          f = (Extension.serverPath platform ctx bin, "755"))) /\
  (forall platform ctx w0,
     let w := fst (MarolExtension.activate platform ctx w0) in
     map fst (files w) = map fst (files w0) /\
     forall f, In f (files w) ->
       In f (files w0) \/
       (platform <> "win32" /\ f = (MarolExtension.serverPath platform ctx, "755"))).
Proof.
  split.
  - intros platform ctx w0 w. subst w.
    destruct (activate_shape platform ctx w0)
      as [(_ & _ & Hf & _)|(bin & Hb & [(_ & _ & Hf & _)|(_ & _ & mid & _ & Hm)])];
      cbv zeta in *.
    + rewrite Hf. split; [reflexivity|auto].
    + rewrite Hf. split; [reflexivity|auto].
    + destruct Hm as [(_ & _ & Hf)|[(Hw & _ & Hf)|(_ & _ & Hf)]]; rewrite Hf;
        try (split; [reflexivity|auto]; fail).
      split; [apply map_fst_chmod|]. intros f Hin.
      destruct (in_chmod _ _ _ _ Hin) as [H|H]; [left; exact H|].
      right. split; [exact Hw|]. exists bin. split; [exact Hb|exact H].
  - intros platform ctx w0 w. subst w.
    pose proof (marol_activate_shape platform ctx w0) as Hs.
    destruct (MarolExtension.activate platform ctx w0) as [w r]. cbn [fst]. cbv zeta in Hs.
    destruct Hs as [(_ & _ & _ & Hf & _)|[(_ & _ & _ & mid & _ & [(_ & _ & Hf)|(Hw & _ & _ & Hf)])|
                                          (_ & _ & code & _ & _ & _ & Hf & _)]];
      rewrite Hf; try (split; [reflexivity|auto]; fail).
    split; [apply map_fst_chmod|]. intros f Hin.
    destruct (in_chmod _ _ _ _ Hin) as [H|H]; [left; exact H|right; auto].
Qed.

Lemma activate_files_frame_witness :
  let w0 := init_world [("/ext/bin/amaro-lsp-linux", "644"); ("/x", "600")] in
  let w := Extension.activate "linux" (mkContext "/ext") w0 in
  map fst (files w) = ["/ext/bin/amaro-lsp-linux"; "/x"] /\
  (In ("/ext/bin/amaro-lsp-linux", "755") (files w0) \/
   ("linux" <> "win32" /\ exists bin, Extension.binaryName "linux" = Some bin /\
      ("/ext/bin/amaro-lsp-linux", "755") =
      (Extension.serverPath "linux" (mkContext "/ext") bin, "755"))).
Proof.
  intros w0 w. destruct activate_files_frame as [H _].
  destruct (H "linux" (mkContext "/ext") w0) as [Hm Hin].
  split.
  - unfold w. rewrite Hm. reflexivity.
  - apply Hin. vm_compute. left. reflexivity.
Defined.



(** [deactivate] of either client, taken together: both functions have the
    same body. *)
Lemma deactivate_same w : MarolExtension.deactivate w = Extension.deactivate w.
Proof. reflexivity. Qed.

(** X5: [deactivate] (of either client) neither clears the [client]
    variable nor touches the files: a second call stops the same client
    again and returns the same kind of result, and with no client the call
    changes nothing. *)
Theorem deactivate_keeps_client :
  forall w,
    let '(r, w') := Extension.deactivate w in
    client w' = client w /\ files w' = files w /\
    fst (Extension.deactivate w') = r /\
    fst (MarolExtension.deactivate w) = r /\
    (forall c, client w = Some c ->
       r = Some (StopPromise c) /\ events w' = (events w ++ [ClientStop c])%list /\
       events (snd (Extension.deactivate w')) =
         (events w ++ [ClientStop c; ClientStop c])%list) /\
    (client w = None -> r = None /\ w' = w).
Proof.
  intros w.
  unfold Extension.deactivate, MarolExtension.deactivate. destruct (client w) as [c|] eqn:Hc; cbn.
  - rewrite Hc. split; [reflexivity|]. split; [reflexivity|].
    split; [reflexivity|]. split; [reflexivity|]. split; [|discriminate].
    intros c' Hc'. inversion Hc'; subst c'.
    split; [reflexivity|]. split; [reflexivity|]. cbn. rewrite <- app_assoc. reflexivity.
  - rewrite Hc. split; [reflexivity|]. split; [reflexivity|].
    split; [reflexivity|]. split; [reflexivity|]. split; [discriminate|].
    intros _. split; reflexivity.
Qed.

Lemma deactivate_keeps_client_witness :
  let c := Extension.mkLanguageClient "/ext/bin/amaro-lsp-linux" in
  let w := mkWorld (Some c) [] [] [] in
  fst (Extension.deactivate w) = Some (StopPromise c) /\
  events (snd (Extension.deactivate (snd (Extension.deactivate w)))) =
    [ClientStop c; ClientStop c].
Proof.
  intros c w. pose proof (deactivate_keeps_client w) as H.
  destruct (Extension.deactivate w) as [r w'] eqn:E.
  destruct H as (_ & _ & _ & _ & Hs & _).
  destruct (Hs c eq_refl) as (Hr & _ & He). split; [exact Hr|exact He].
Defined.

Lemma app_split_not_in (l1 l2 pre post : list event) y :
  (l1 ++ l2 = pre ++ y :: post)%list -> ~ In y l2 ->
  exists post', l1 = (pre ++ y :: post')%list.
Proof.
  revert l1. induction pre as [|p pre IH]; intros l1 E Hn.
  - destruct l1 as [|a l1]; cbn in E.
    + subst l2. destruct Hn. left. reflexivity.
    + inversion E; subst. exists l1. reflexivity.
  - destruct l1 as [|a l1]; cbn in E.
    + subst l2. destruct Hn. right. apply in_or_app. right. left. reflexivity.
    + inversion E as [[Ha E']]; subst a. destruct (IH l1 E' Hn) as (post' & ->).
      exists post'. reflexivity.
Qed.

Lemma snoc_split (l pre post : list event) x y :
  (l ++ [x] = pre ++ y :: post)%list ->
  (pre = l /\ y = x) \/ exists post', l = (pre ++ y :: post')%list.
Proof.
  intros E. destruct post as [|p post] using rev_ind.
  - apply app_inj_tail in E. destruct E as [-> ->]. left. auto.
  - right. rewrite app_comm_cons, app_assoc in E. apply app_inj_tail in E.
    destruct E as [-> _]. exists post. reflexivity.
Qed.

Lemma stops_created_appends w0 w :
  stops_created w0 ->
  (exists new, events w = (events w0 ++ new)%list /\ (forall c, ~ In (ClientStop c) new) /\
     (client w = client w0 \/ exists c, client w = Some c /\ In (NewLanguageClient c) new)) ->
  stops_created w.
Proof.
  intros [H1 H2] (new & E & Hn & Hc). split.
  - intros c Hw. rewrite E. apply in_or_app.
    destruct Hc as [Hc|(c' & Hc & Hin)].
    + left. apply H1. congruence.
    + right. rewrite Hw in Hc. inversion Hc; subst. exact Hin.
  - intros pre c post Ew. rewrite E in Ew.
    destruct (app_split_not_in _ _ _ _ _ Ew (Hn c)) as (post' & Ew0).
    exact (H2 _ _ _ Ew0).
Qed.

Lemma stops_created_deactivate w :
  stops_created w -> stops_created (snd (Extension.deactivate w)).
Proof.
  intros Hs. unfold Extension.deactivate.
  destruct (client w) as [c0|] eqn:Hc; cbn [snd]; [|exact Hs].
  destruct Hs as [H1 H2]. split.
  - intros c Hw. cbn in Hw |- *. apply in_or_app. left. apply H1. congruence.
  - intros pre c post E. cbn in E.
    destruct (snoc_split _ _ _ _ _ E) as [(-> & Hy)|(post' & E')].
    + inversion Hy; subst. apply H1. exact Hc.
    + exact (H2 _ _ _ E').
Qed.

Lemma stops_created_init fs : stops_created (init_world fs).
Proof.
  split; [discriminate|]. intros pre c post E. destruct pre; discriminate.
Qed.

Lemma stops_created_set_files w fs errs :
  stops_created w -> stops_created (mkWorld (client w) fs errs (events w)).
Proof. intros [H1 H2]. split; assumption. Qed.

(** X6: in any session of host calls from the freshly loaded module (either
    client), every [client.stop()] is on a client that an earlier
    [activate] constructed. *)
Theorem session_stops_only_created_clients :
  (forall fs cs pre c post,
     events (Session.run (init_world fs) cs) = (pre ++ ClientStop c :: post)%list ->
     In (NewLanguageClient c) pre) /\
  (forall fs cs pre c post,
     events (Session.marol_run (init_world fs) cs) = (pre ++ ClientStop c :: post)%list ->
     In (NewLanguageClient c) pre).
Proof.
  split.
  - intros fs cs. unfold Session.run.
    assert (Hw : stops_created (fold_left (fun w c => Session.step c w) cs (init_world fs))).
    { generalize (stops_created_init fs). generalize (init_world fs).
      induction cs as [|k cs IH]; intros w Hw; [exact Hw|]. cbn. apply IH.
      destruct k; cbn [Session.step].
      - apply (stops_created_appends w); [exact Hw|apply activate_appends].
      - apply stops_created_deactivate. exact Hw.
      - apply stops_created_set_files. exact Hw. }
    intros pre c post E. exact (proj2 Hw _ _ _ E).
  - intros fs cs. unfold Session.marol_run.
    assert (Hw : stops_created (fold_left (fun w c => Session.marol_step c w) cs (init_world fs))).
    { generalize (stops_created_init fs). generalize (init_world fs).
      induction cs as [|k cs IH]; intros w Hw; [exact Hw|]. cbn. apply IH.
      destruct k; cbn [Session.marol_step].
      - apply (stops_created_appends w); [exact Hw|apply marol_activate_appends].
      - rewrite deactivate_same. apply stops_created_deactivate. exact Hw.
      - apply stops_created_set_files. exact Hw. }
    intros pre c post E. exact (proj2 Hw _ _ _ E).
Qed.

Lemma session_stops_only_created_clients_witness :
  let c := Extension.mkLanguageClient "/ext/bin/amaro-lsp-linux" in
  In (NewLanguageClient c)
     (removelast (events (Session.run (init_world [("/ext/bin/amaro-lsp-linux", "644")])
        [Session.CallActivate "linux" (mkContext "/ext"); Session.CallDeactivate]))).
Proof.
  intros c. destruct session_stops_only_created_clients as [H _].
  apply (H [("/ext/bin/amaro-lsp-linux", "644")]
           [Session.CallActivate "linux" (mkContext "/ext"); Session.CallDeactivate] _ c []).
  vm_compute. reflexivity.
Defined.

(** X7: in the older client, when the binary exists at
    [<extensionPath>/marol-lsp/target/debug/<binaryName>], [activate] runs
    [fs.chmodSync(path, '755')] off Windows with no [try] around it.  On
    Windows, or when that call succeeds, [activate] returns normally after
    storing and starting a new [LanguageClient] whose run and debug commands
    are both that path, over stdio, for [file]-scheme [marol] documents, and
    the binary's mode is the only change on disk.  When [chmodSync] throws
    (e.g. [EPERM] or [EROFS]), the exception escapes [activate] right after
    the [existsSync] probe: no client is constructed, and the [client]
    variable and the files are left as they were. *)
Theorem marol_activate_starts_client platform ctx w0 :
  existsSync (MarolExtension.serverPath platform ctx) w0 = true ->
  let sp := MarolExtension.serverPath platform ctx in
  let s := path_sep platform in
  let c := MarolExtension.mkLanguageClient sp in
  let pre := [ConsoleLog "Activating Marol Extension...";
              ConsoleLog ("Looking for LSP binary at: " ++ sp); ExistsSync sp] in
  let '(w, r) := MarolExtension.activate platform ctx w0 in
  sp = (extensionPath ctx ++ s ++ "marol-lsp" ++ s ++ "target" ++ s ++ "debug" ++ s ++
        MarolExtension.binaryName platform) /\
  ((platform = "win32" \/ chmod_error sp w0 = None) ->
   r = MarolExtension.Normal /\ client w = Some c /\
   lc_run_command c = sp /\ lc_debug_command c = sp /\
   lc_transport c = stdio /\ lc_scheme c = "file" /\ lc_language c = "marol" /\
   events w = (events w0 ++ pre ++
     (if String.eqb platform "win32" then [] else [ChmodSync sp "755"]) ++
     [NewLanguageClient c; ClientStart c])%list /\
   files w = (if String.eqb platform "win32" then files w0
              else map (fun f => if String.eqb (fst f) sp then (sp, "755") else f) (files w0))) /\
  (forall code, platform <> "win32" -> chmod_error sp w0 = Some code ->
   r = MarolExtension.Throws (code ++ ": chmod '" ++ sp ++ "'") /\
   client w = client w0 /\ files w = files w0 /\ events w = (events w0 ++ pre)%list).
Proof.
  intros He sp s c pre. subst sp s c pre.
  pose proof (marol_activate_shape platform ctx w0) as Hs.
  destruct (MarolExtension.activate platform ctx w0) as [w r]. cbv zeta in Hs.
  split.
  { unfold MarolExtension.serverPath, asAbsolutePath, path_join.
    rewrite !str_app_assoc. reflexivity. }
  destruct Hs as [(He' & _)|[(_ & Hr & Hc & mid & Hev & Hm)|(_ & Hw & code & Hce & Hr & Hc & Hf & Hev)]];
    [congruence| |].
  - split.
    + intros _. split; [exact Hr|]. split; [exact Hc|]. do 5 (split; [reflexivity|]).
      destruct Hm as [(Hw & -> & Hf)|(Hw & _ & -> & Hf)].
      * subst platform. split; [exact Hev|exact Hf].
      * apply String.eqb_neq in Hw. rewrite Hw. split; [exact Hev|exact Hf].
    + intros code Hw Hce. destruct Hm as [(Hw' & _)|(_ & Hn & _)]; congruence.
  - split.
    + intros [Hw'|Hn]; congruence.
    + intros code' _ Hce'. rewrite Hce in Hce'. inversion Hce'; subst code'.
      split; [exact Hr|]. split; [exact Hc|]. split; [exact Hf|exact Hev].
Qed.

Lemma marol_activate_starts_client_witness :
  let sp := "/ext/marol-lsp/target/debug/marol-lsp" in
  let ctx := mkContext "/ext" in
  let w0 := init_world [(sp, "644")] in
  let w1 := mkWorld None [(sp, "644")] [(sp, "EPERM")] [] in
  (client (fst (MarolExtension.activate "linux" ctx w0)) =
     Some (MarolExtension.mkLanguageClient sp) /\
   files (fst (MarolExtension.activate "linux" ctx w0)) = [(sp, "755")]) /\
  (snd (MarolExtension.activate "linux" ctx w1) =
     MarolExtension.Throws ("EPERM: chmod '" ++ sp ++ "'") /\
   client (fst (MarolExtension.activate "linux" ctx w1)) = None).
Proof.
  intros sp ctx w0 w1. split.
  - pose proof (marol_activate_starts_client "linux" ctx w0 eq_refl) as H.
    destruct (MarolExtension.activate "linux" ctx w0) as [w r].
    destruct H as (_ & H & _). destruct H as (_ & Hc & _ & _ & _ & _ & _ & _ & Hf);
      [right; reflexivity|].
    cbn [fst]. split; [exact Hc|]. rewrite Hf. reflexivity.
  - pose proof (marol_activate_starts_client "linux" ctx w1 eq_refl) as H.
    destruct (MarolExtension.activate "linux" ctx w1) as [w r].
    destruct H as (_ & _ & H). destruct (H "EPERM") as (Hr & Hc & _);
      [discriminate|reflexivity|].
    cbn [fst snd]. split; [exact Hr|exact Hc].
Defined.

(** X8: once a session (either client) has stored a client, no later call
    sequence makes the [client] variable [undefined] again. *)
Theorem session_client_persists :
  (forall w cs c, client w = Some c -> client (Session.run w cs) <> None) /\
  (forall w cs c, client w = Some c -> client (Session.marol_run w cs) <> None).
Proof.
  assert (Hk : forall w w', tracks_client w w' -> client w <> None -> client w' <> None).
  { intros w w' (n & _ & [(Hc & _)|(c & Hc & _)]) Hw; rewrite Hc; [exact Hw|discriminate]. }
  split.
  - intros w cs c Hc. assert (Hw : client w <> None) by congruence. clear Hc.
    unfold Session.run. revert w Hw. induction cs as [|k cs IH]; intros w Hw; [exact Hw|].
    cbn. apply IH. apply (Hk w); [|exact Hw].
    destruct k; cbn [Session.step];
      [apply tracks_activate|apply tracks_deactivate|apply tracks_set_files].
  - intros w cs c Hc. assert (Hw : client w <> None) by congruence. clear Hc.
    unfold Session.marol_run. revert w Hw. induction cs as [|k cs IH]; intros w Hw; [exact Hw|].
    cbn. apply IH. apply (Hk w); [|exact Hw].
    destruct k; cbn [Session.marol_step];
      [apply tracks_marol_activate|apply tracks_deactivate|apply tracks_set_files].
Qed.

Lemma session_client_persists_witness :
  let c := Extension.mkLanguageClient "/ext/bin/amaro-lsp-linux" in
  client (Session.run (mkWorld (Some c) [] [] [])
            [Session.CallDeactivate; Session.SetFiles [] [];
             Session.CallActivate "freebsd" (mkContext "/ext")]) <> None.
Proof.
  intros c. destruct session_client_persists as [H _].
  apply (H (mkWorld (Some c) [] [] []) _ c). reflexivity.
Defined.
